(** * HashMouth: onion codec, ratchet, chunking, path builder and relay step

    A shallow embedding of the Go sources
      - crypto.go of package crypto (CreateOnionPacket, PeelOnion, Serialize,
        Deserialize; it follows the tests in src/crypto/crypto_test.go)
      - ratchet.go of package crypto (RatchetSession, NewRatchetSession,
        RatchetStep, GetNextKey; it follows keys.go in src/crypto/keys.go)
      - src/message/chunk.go (Chunk, Validate, ChunkAssembler, SplitMessage)
      - src/message/packet.go (Packet, Sign, Verify, PacketQueue)
      - src/routing/path.go (Path, PathBuilder, BuildRandomPath,
        BuildPathExcluding, BuildMultiplePaths)
      - src/routing/mixnode.go (MixNode, AddPacket, processBatch,
        shuffleBatch, randomDelay)
      - src/network/relay.go (RelayMessage, CreateRelayMessage,
        ProcessRelayMessage)
    followed by the properties proved about them.

    Conventions of the embedding.
      - Go's [int] is the 64-bit two's-complement integer: a [Z] together with
        the wrap-around of every arithmetic operation written out ([Int.add],
        [Int.sub], [Int.mul], [Int.quot]).
      - [[]byte] is [list byte]; [string] is [string].
      - A Go function returning [(T, error)] returns [outcome T]: [Ok v] for
        [(v, nil)], [Err msg] for [(zero, errors.New(msg))], and [Panic msg]
        when the Go runtime panics.
      - Randomness is an explicit input: the bytes (or numbers) that the
        operating system's generator hands out, consumed front to back.
      - The order in which Go ranges over a map is unspecified; where a
        function's result depends on it, the function takes the position at
        which the iteration starts as an extra argument.
      - [make] goes through the size checks of the runtime ([makeslice],
        [makechan]); the limits they compare with are parameters.
      - A [select] between a send and the stop channel is decided by the
        scheduler; the cases that fire are an explicit input. *)

From Stdlib Require Import ZArith Lia.
From Stdlib Require Import Init.Byte.
From Stdlib Require Strings.Byte.
From stdpp Require Import base option list gmap strings sets.

(** ** Outcomes of Go calls *)

Inductive outcome (A : Type) : Type :=
  | Ok (v : A)
  | Err (msg : string)
  | Panic (msg : string).
Arguments Ok {A} v.
Arguments Err {A} msg.
Arguments Panic {A} msg.

Global Instance outcome_ret : MRet outcome := λ A v, Ok v.
Global Instance outcome_bind : MBind outcome := λ A B f m,
  match m with
  | Ok v => f v
  | Err e => Err e
  | Panic p => Panic p
  end.

(** ** Go's [int] *)

Module Int.
Local Open Scope Z_scope.

Definition max_int : Z := 2 ^ 63 - 1.
Definition min_int : Z := - 2 ^ 63.

Definition in_range (z : Z) : Prop := min_int ≤ z ≤ max_int.

(** Two's-complement wrap-around of a mathematical integer. *)
Definition wrap (z : Z) : Z := (z + 2 ^ 63) mod 2 ^ 64 - 2 ^ 63.

Definition add (a b : Z) : Z := wrap (a + b).
Definition sub (a b : Z) : Z := wrap (a - b).
Definition mul (a b : Z) : Z := wrap (a * b).
(** Go's [/] truncates toward zero; the divisor is non-zero at every use. *)
Definition quot (a b : Z) : Z := wrap (a ÷ b).

(** [len(x)] of a slice or map. *)
Definition len {A} (l : list A) : Z := Z.of_nat (length l).
End Int.

(** ** Allocation in the Go runtime *)

Module Runtime.
Local Open Scope Z_scope.

(** The two constants of the runtime that decide what [make] accepts:
    [maxAlloc], the largest allocation in bytes, and [hchanSize], the size of
    a channel header. They depend on the platform and on the release of Go
    (on 64-bit Linux [maxAlloc] is 2^48); here they are parameters. *)
Class Limits := {
  maxAlloc : Z;
  hchanSize : Z;
  limits_sane : 0 ≤ hchanSize ≤ maxAlloc ∧ maxAlloc ≤ Int.max_int;
}.

(** The size in bytes of a pointer and of a slice header, on a 64-bit
    platform. *)
Definition pointer_size : Z := 8.
Definition slice_size : Z := 24.

Section WithLimits.
Context {L : Limits}.

(** [runtime.makeslice], called for [make([]T, len, cap)] with elements of
    [size] bytes: the checks before the allocation. (Running out of memory
    below the limit is a fatal error of the process and is not part of the
    embedding.) *)
Definition makeslice (size len cap : Z) : outcome unit :=
  if decide (cap < 0 ∨ maxAlloc < size * cap ∨ len < 0 ∨ cap < len) then
    if decide (len < 0 ∨ maxAlloc < size * len)
    then Panic "makeslice: len out of range"
    else Panic "makeslice: cap out of range"
  else Ok ().

(** [runtime.makechan], called for [make(chan T, size)] with elements of
    [elem] bytes. *)
Definition makechan (elem size : Z) : outcome unit :=
  if decide (size < 0 ∨ maxAlloc - hchanSize < elem * size)
  then Panic "makechan: size out of range"
  else Ok ().
End WithLimits.

End Runtime.

(** ** Package crypto *)

Module Crypto.

Abbreviation bytes := (list byte).

Global Instance byte_eq_dec : EqDecision byte := Strings.Byte.byte_eq_dec.

(** [chacha20poly1305.KeySize] and [aead.NonceSize()]. *)
Definition KeySize : nat := 32.
Definition NonceSize : nat := 12.

(** The [cipher.AEAD] interface of the standard library, as far as the
    package uses it: the raw sealing and opening functions of a key. The
    cipher itself (golang.org/x/crypto/chacha20poly1305) is a dependency of
    the repository and stays a parameter. *)
Class AEAD := {
  seal : bytes → bytes → bytes → bytes → bytes;
    (* key, nonce, plaintext, additional data ↦ ciphertext ‖ tag *)
  open : bytes → bytes → bytes → bytes → option bytes;
    (* key, nonce, ciphertext ‖ tag, additional data ↦ plaintext, or None
       when the tag does not verify *)
}.

(** What the interface promises: opening what was sealed under the same key,
    nonce and additional data gives the plaintext back. *)
Class AEADCorrect (A : AEAD) : Prop :=
  open_seal : ∀ key nonce plain aad,
    length key = KeySize → length nonce = NonceSize →
    open key nonce (seal key nonce plain aad) aad = Some plain.

Section WithAEAD.
Context {A : AEAD}.

(** [chacha20poly1305.New(key)]: the handle is the key itself. *)
Definition New (key : bytes) : outcome bytes :=
  if decide (length key = KeySize) then Ok key
  else Err "chacha20poly1305: bad key length".

(** [aead.Seal(dst, nonce, plaintext, additionalData)] appends to [dst]. *)
Definition Seal (aead dst nonce plaintext aad : bytes) : bytes :=
  dst ++ seal aead nonce plaintext aad.

(** [aead.Open(dst, nonce, ciphertext, additionalData)]. *)
Definition Open (aead dst nonce ciphertext aad : bytes) : outcome bytes :=
  match open aead nonce ciphertext aad with
  | Some plain => Ok (dst ++ plain)
  | None => Err "chacha20poly1305: message authentication failed"
  end.

(** [io.ReadFull(rand.Reader, buf)] with [len(buf) = n]: the first [n]
    bytes of the source, and what is left of it. *)
Definition ReadFull (rnd : bytes) (n : nat) : outcome (bytes * bytes) :=
  if decide (n ≤ length rnd) then Ok (take n rnd, drop n rnd)
  else match rnd with
       | [] => Err "EOF"
       | _ => Err "unexpected EOF"
       end.

Record OnionPacket := { Payload : bytes }.

Definition CreateOnionPacket (rnd plain key : bytes)
  : outcome (OnionPacket * bytes) :=
  aead ← New key;
  '(nonce, rnd') ← ReadFull rnd NonceSize;
  let ciphertext := Seal aead nonce nonce plain [] in
  Ok ({| Payload := ciphertext |}, rnd').

Definition PeelOnion (pkt : OnionPacket) (key : bytes) : outcome bytes :=
  aead ← New key;
  if decide (length (Payload pkt) < NonceSize)%nat then Err "invalid payload"
  else
    let nonce := take NonceSize (Payload pkt) in
    let ciphertext := drop NonceSize (Payload pkt) in
    Open aead [] nonce ciphertext [].

Definition Serialize (p : OnionPacket) : bytes := Payload p.

Definition Deserialize (data : bytes) : outcome OnionPacket :=
  Ok {| Payload := data |}.

(** The layering of TestMultiLayerOnion for any number of keys
    [K1; ...; Kk]: the innermost packet is made first, under [Kk]; each
    further layer wraps the serialisation of the one inside it. *)
Fixpoint WrapLayers (rnd plain : bytes) (keys : list bytes)
  : outcome (bytes * bytes) :=
  match keys with
  | [] => Ok (plain, rnd)
  | key :: keys' =>
      '(inner, rnd1) ← WrapLayers rnd plain keys';
      '(pkt, rnd2) ← CreateOnionPacket rnd1 inner key;
      Ok (Serialize pkt, rnd2)
  end.

(** ... and the peeling, outermost layer first, under [K1]. *)
Fixpoint PeelLayers (data : bytes) (keys : list bytes) : outcome bytes :=
  match keys with
  | [] => Ok data
  | key :: keys' =>
      pkt ← Deserialize data;
      inner ← PeelOnion pkt key;
      PeelLayers inner keys'
  end.
End WithAEAD.

(** *** ratchet.go *)

Definition xor_byte (a b : byte) : byte :=
  default x00 (Strings.Byte.of_N (N.lxor (Strings.Byte.to_N a) (Strings.Byte.to_N b))).

Record RatchetSession := {
  DHPrivate : bytes;
  DHPublic : bytes;
  PeerPub : bytes;
  RootKey : bytes;
  ChainKey : bytes;
}.

(** [golang.org/x/crypto/curve25519], a dependency of the repository. *)
Class Curve25519 := {
  X25519 : bytes → bytes → outcome bytes;
  Basepoint : bytes;
}.

Definition NewRatchetSession `{Curve25519} (rnd peerPub : bytes)
  : outcome (RatchetSession * bytes) :=
  '(priv, rnd') ← ReadFull rnd 32;
  pub ← X25519 priv Basepoint;
  if decide (length peerPub ≠ 32%nat) then Err "invalid peer public key"
  else
    shared ← X25519 priv peerPub;
    Ok ({| DHPrivate := priv; DHPublic := pub; PeerPub := peerPub;
           RootKey := shared; ChainKey := shared |}, rnd').

Definition RatchetStep (r : RatchetSession) : RatchetSession :=
  let newKey := (λ b, xor_byte b x55) <$> ChainKey r in
  {| DHPrivate := DHPrivate r; DHPublic := DHPublic r; PeerPub := PeerPub r;
     RootKey := RootKey r; ChainKey := newKey |}.

(** The key returned, and the session after the call. *)
Definition GetNextKey (r : RatchetSession) : bytes * RatchetSession :=
  let r' := RatchetStep r in (ChainKey r', r').

(** The session after [n] ratchet steps. *)
Definition steps (n : nat) (r : RatchetSession) : RatchetSession :=
  Nat.iter n RatchetStep r.

(** The keys that [n] successive calls of [GetNextKey] return. *)
Fixpoint NextKeys (n : nat) (r : RatchetSession) : list bytes :=
  match n with
  | O => []
  | S n' => let '(key, r') := GetNextKey r in key :: NextKeys n' r'
  end.

End Crypto.

(** ** Package message *)

Module Message.
Import Crypto.
Local Open Scope Z_scope.

Record Chunk := {
  MessageID : string;
  Seq : Z;
  Total : Z;
  Data : bytes;
}.

Definition NewChunk (messageID : string) (seq total : Z) (data : bytes) : Chunk :=
  {| MessageID := messageID; Seq := seq; Total := total; Data := data |}.

(** [nil] is [None]. *)
Definition Validate (c : Chunk) : option string :=
  if decide (MessageID c = "") then Some "message ID cannot be empty"
  else if decide (Seq c < 0 ∨ Total c ≤ Seq c) then Some "invalid sequence number"
  else if decide (Total c ≤ 0) then Some "total chunks must be positive"
  else if decide (Int.len (Data c) = 0) then Some "chunk data cannot be empty"
  else None.

(** messageID -> seq -> chunk. The operations below only read the chunks
    they are given, so a stored [*Chunk] is modelled by the value it points
    to. *)
Record ChunkAssembler := { chunks : gmap string (gmap Z Chunk) }.

Definition NewChunkAssembler : ChunkAssembler := {| chunks := ∅ |}.

(** The error returned, and the assembler after the call. *)
Definition AddChunk (ca : ChunkAssembler) (chunk : Chunk)
  : option string * ChunkAssembler :=
  match Validate chunk with
  | Some err => (Some err, ca)
  | None =>
      let m1 :=
        match chunks ca !! MessageID chunk with
        | Some _ => chunks ca
        | None => <[MessageID chunk := ∅]> (chunks ca)
        end in
      (None, {| chunks := alter (λ cs, <[Seq chunk := chunk]> cs) (MessageID chunk) m1 |})
  end.

(** The first chunk that [for _, chunk := range chunks] yields when the
    iteration starts at position [start] of the map. *)
Definition range_first (start : nat) (cs : gmap Z Chunk) : option Chunk :=
  snd <$> map_to_list cs !! (start `mod` size cs)%nat.

(** [for i := 0; i < total; i++ { if _, exists := chunks[i]; !exists { return false } }] *)
Definition all_present (cs : gmap Z Chunk) (total : Z) : bool :=
  forallb (λ i, bool_decide (is_Some (cs !! i))) (seqZ 0 total).

Definition IsComplete (start : nat) (ca : ChunkAssembler) (messageID : string) : bool :=
  match chunks ca !! messageID with
  | None => false
  | Some cs =>
      if decide (size cs = 0%nat) then false
      else
        let total := from_option Total 0 (range_first start cs) in
        if decide (Z.of_nat (size cs) ≠ total) then false
        else all_present cs total
  end.

(** [for i := 0; i < total; i++ { result = append(result, chunks[i].Data...) }];
    a missing sequence number is a nil [*Chunk]. *)
Fixpoint append_chunks (cs : gmap Z Chunk) (idxs : list Z) (result : bytes)
  : outcome bytes :=
  match idxs with
  | [] => Ok result
  | i :: idxs' =>
      match cs !! i with
      | None => Panic "invalid memory address or nil pointer dereference"
      | Some c => append_chunks cs idxs' (result ++ Data c)
      end
  end.

(** The result, and the assembler after the call. [start] is where the
    map iteration of the [IsComplete] call starts. *)
Definition Assemble (start : nat) (ca : ChunkAssembler) (messageID : string)
  : outcome bytes * ChunkAssembler :=
  if negb (IsComplete start ca messageID) then (Err "message is not complete", ca)
  else
    let cs := default ∅ (chunks ca !! messageID) in
    match cs !! 0 with
    | None => (Panic "invalid memory address or nil pointer dereference", ca)
    | Some c0 =>
        let total := Total c0 in
        match append_chunks cs (seqZ 0 total) [] with
        | Ok result => (Ok result, {| chunks := delete messageID (chunks ca) |})
        | Err e => (Err e, ca)
        | Panic p => (Panic p, ca)
        end
    end.

(** [data[start:end]] on a slice whose capacity is its length. *)
Definition slice (data : bytes) (start end_ : Z) : outcome bytes :=
  if decide (0 ≤ start ∧ start ≤ end_ ∧ end_ ≤ Int.len data)
  then Ok (take (Z.to_nat (end_ - start)) (drop (Z.to_nat start) data))
  else Panic "slice bounds out of range".

(** The body of the loop of [SplitMessage], for the values [idxs] of [i]. *)
Fixpoint split_loop (messageID : string) (data : bytes) (chunkSize total : Z)
    (idxs : list Z) (chunks : list Chunk) : outcome (list Chunk) :=
  match idxs with
  | [] => Ok chunks
  | i :: idxs' =>
      let start := Int.mul i chunkSize in
      let end0 := Int.add start chunkSize in
      let end_ := if decide (Int.len data < end0) then Int.len data else end0 in
      piece ← slice data start end_;
      let chunk := NewChunk messageID i total piece in
      split_loop messageID data chunkSize total idxs' (chunks ++ [chunk])
  end.

Definition SplitMessage (messageID : string) (data : bytes) (chunkSize : Z)
  : outcome (list Chunk) :=
  if decide (chunkSize ≤ 0) then Err "chunk size must be positive"
  else if decide (Int.len data = 0) then Err "data cannot be empty"
  else
    let total := Int.quot (Int.sub (Int.add (Int.len data) chunkSize) 1) chunkSize in
    (* make([]*Chunk, 0, total) *)
    if decide (total < 0) then Panic "makeslice: cap out of range"
    else split_loop messageID data chunkSize total (seqZ 0 total) [].

(** Adding the chunks of a list one after the other, as the tests do:
    the errors returned, in order, and the assembler at the end. *)
Fixpoint AddChunks (ca : ChunkAssembler) (l : list Chunk)
  : list (option string) * ChunkAssembler :=
  match l with
  | [] => ([], ca)
  | c :: l' =>
      let '(err, ca1) := AddChunk ca c in
      let '(errs, ca2) := AddChunks ca1 l' in
      (err :: errs, ca2)
  end.

(** *** The specification's side

    The number of chunks and the chunks themselves as the specification
    describes them, to compare [SplitMessage] with: chunk [i] of
    ⌈|data| / chunkSize⌉ carries the [chunkSize] bytes from offset
    [i * chunkSize] on, fewer when the data ends before. *)
Definition ceil_div (a b : Z) : Z := (a + b - 1) `div` b.

Definition spec_chunk (messageID : string) (data : bytes) (chunkSize total i : Z)
  : Chunk :=
  NewChunk messageID i total
    (take (Z.to_nat chunkSize) (drop (Z.to_nat (i * chunkSize)) data)).

Definition spec_chunks (messageID : string) (data : bytes) (chunkSize : Z)
  : list Chunk :=
  let total := ceil_div (Int.len data) chunkSize in
  spec_chunk messageID data chunkSize total <$> seqZ 0 total.

(** The validity predicate in the specification's words. *)
Definition chunk_valid (c : Chunk) : Prop :=
  MessageID c ≠ "" ∧ 0 ≤ Seq c < Total c ∧ 0 < Total c ∧ Data c ≠ [].

(** Every chunk the assembler stores is valid. *)
Definition stored_valid (ca : ChunkAssembler) : Prop :=
  ∀ messageID cs seq c,
    chunks ca !! messageID = Some cs → cs !! seq = Some c → chunk_valid c.

(** The chunks stored for a message, by sequence number, and the set of
    these sequence numbers. *)
Definition stored (ca : ChunkAssembler) (messageID : string) : gmap Z Chunk :=
  default ∅ (chunks ca !! messageID).

Definition stored_seqs (ca : ChunkAssembler) (messageID : string) : gset Z :=
  dom (stored ca messageID).

(** The set {0, ..., n-1}. *)
Definition below (n : Z) : gset Z := list_to_set (seqZ 0 n).

(** The data of the chunks stored under 0, ..., n-1, in this order. *)
Definition data_upto (cs : gmap Z Chunk) (n : Z) : bytes :=
  concat ((λ i, from_option Data [] (cs !! i)) <$> seqZ 0 n).

(** [ca.chunks[id][chunk.Seq] = chunk] on the inner map. *)
Definition store (cs : gmap Z Chunk) (chunk : Chunk) : gmap Z Chunk :=
  <[Seq chunk := chunk]> cs.

End Message.

(** ** Package routing *)

Module Routing.
Local Open Scope Z_scope.

Record Path := { Nodes : list string }.

Definition NewPath (nodes : list string) : outcome Path :=
  if decide (Int.len nodes = 0) then Err "path must contain at least one node"
  else Ok {| Nodes := nodes |}.

Record PathBuilder := {
  availableNodes : list string;
  minPathLength : Z;
  maxPathLength : Z;
}.

Definition NewPathBuilder (nodes : list string) (minLength maxLength : Z)
  : outcome PathBuilder :=
  if decide (minLength < 1) then Err "minimum path length must be at least 1"
  else if decide (maxLength < minLength)
  then Err "maximum path length must be >= minimum path length"
  else if decide (Int.len nodes < minLength)
  then Err "not enough nodes for minimum path length"
  else Ok {| availableNodes := nodes; minPathLength := minLength;
             maxPathLength := maxLength |}.

(** One call of [rand.Int(rand.Reader, max)] as the generator answers it:
    with a number, of which the call keeps the residue below [max], or with
    a failure of the operating system's source. *)
Inductive draw := Drawn (raw : Z) | DrawFailed.

(** The error of a failed draw; its text is the generator's, not one of
    this package. *)
Definition rand_error : string := "crypto/rand: read failed".

(** A run that needs more draws than it was given has not finished: [None]. *)
Definition randInt (draws : list draw) (max : Z)
  : option (outcome (Z * list draw)) :=
  if decide (max ≤ 0) then Some (Panic "crypto/rand: argument to Int is <= 0")
  else match draws with
       | [] => None
       | Drawn raw :: draws' => Some (Ok (raw `mod` max, draws'))
       | DrawFailed :: _ => Some (Err rand_error)
       end.

(** [availableNodes[index]] *)
Definition index_nodes (nodes : list string) (index : Z) : outcome string :=
  if decide (0 ≤ index < Int.len nodes)
  then Ok (default "" (nodes !! Z.to_nat index))
  else Panic "index out of range".

(** [for len(selectedNodes) < pathLength { ... }]: [usedIndices] is the set
    of the indices mapped to [true]. *)
Fixpoint select_loop (nodes : list string) (pathLength : Z) (draws : list draw)
    (usedIndices : gset Z) (selectedNodes : list string) {struct draws}
  : option (outcome (list string)) :=
  if decide (Int.len selectedNodes < pathLength) then
    if decide (Int.len nodes ≤ 0)
    then Some (Panic "crypto/rand: argument to Int is <= 0")
    else match draws with
         | [] => None
         | DrawFailed :: _ => Some (Err rand_error)
         | Drawn raw :: draws' =>
             let index := raw `mod` Int.len nodes in
             if decide (index ∈ usedIndices)
             then select_loop nodes pathLength draws' usedIndices selectedNodes
             else
               match index_nodes nodes index with
               | Ok node =>
                   select_loop nodes pathLength draws'
                     ({[index]} ∪ usedIndices) (selectedNodes ++ [node])
               | Err e => Some (Err e)
               | Panic p => Some (Panic p)
               end
         end
  else Some (Ok selectedNodes).

Definition BuildRandomPath (pb : PathBuilder) (draws : list draw)
  : option (outcome Path) :=
  if decide (Int.len (availableNodes pb) = 0) then Some (Err "no nodes available")
  else
    let lengthRange := Int.add (Int.sub (maxPathLength pb) (minPathLength pb)) 1 in
    match randInt draws lengthRange with
    | None => None
    | Some (Err e) => Some (Err e)
    | Some (Panic p) => Some (Panic p)
    | Some (Ok (lengthOffset, draws')) =>
        let pathLength0 := Int.add (minPathLength pb) lengthOffset in
        let pathLength :=
          if decide (Int.len (availableNodes pb) < pathLength0)
          then Int.len (availableNodes pb) else pathLength0 in
        match select_loop (availableNodes pb) pathLength draws' ∅ [] with
        | None => None
        | Some (Err e) => Some (Err e)
        | Some (Panic p) => Some (Panic p)
        | Some (Ok selectedNodes) => Some (NewPath selectedNodes)
        end
    end.

Definition BuildPathExcluding (pb : PathBuilder) (excludeNodes : list string)
    (draws : list draw) : option (outcome Path) :=
  let excludeMap : gset string := list_to_set excludeNodes in
  let filtered := filter (λ node, node ∉ excludeMap) (availableNodes pb) in
  if decide (Int.len filtered < minPathLength pb)
  then Some (Err "not enough nodes after exclusion")
  else
    match NewPathBuilder filtered (minPathLength pb) (maxPathLength pb) with
    | Err e => Some (Err e)
    | Panic p => Some (Panic p)
    | Ok tempBuilder => BuildRandomPath tempBuilder draws
    end.

(** *** The specification's side *)

(** The available nodes that are not excluded, A \ E. *)
Definition remaining (nodes excludeNodes : list string) : list string :=
  filter (λ node, node ∉ excludeNodes) nodes.

(** What the selection loop maintains: the selected nodes are distinct and
    each sits at a used index. *)
Definition tracks (nodes : list string) (usedIndices : gset Z)
    (selectedNodes : list string) : Prop :=
  NoDup selectedNodes
  ∧ ∀ x, x ∈ selectedNodes →
      ∃ i, i ∈ usedIndices ∧ 0 ≤ i ∧ nodes !! Z.to_nat i = Some x.

(** Draws that visit every index of a list of [n] nodes once. *)
Definition sweep (n : Z) : list draw := Drawn <$> seqZ 0 n.

(** The path length that the draw [raw] stands for: uniform between the
    bounds, capped by the number of remaining nodes. *)
Definition chosen_length (pb : PathBuilder) (excludeNodes : list string)
    (raw : Z) : Z :=
  Z.min (minPathLength pb
         + raw `mod` (maxPathLength pb - minPathLength pb + 1))
        (Int.len (remaining (availableNodes pb) excludeNodes)).

(** *** The other operations of path.go *)

Definition Length (p : Path) : Z := Int.len (Nodes p).

Definition GetNode (p : Path) (index : Z) : outcome string :=
  if decide (index < 0 ∨ Int.len (Nodes p) ≤ index) then Err "index out of bounds"
  else index_nodes (Nodes p) index.

(** [for _, node := range p.Nodes { if node == nodeID { return true } }] *)
Fixpoint contains_loop (nodes : list string) (nodeID : string) : bool :=
  match nodes with
  | [] => false
  | node :: nodes' =>
      if decide (node = nodeID) then true else contains_loop nodes' nodeID
  end.

Definition Contains (p : Path) (nodeID : string) : bool :=
  contains_loop (Nodes p) nodeID.

(** The loop of [Path.Validate]; [seen] is the set of the IDs mapped to
    [true]. [nil] is [None]. *)
Fixpoint validate_loop (nodes : list string) (seen : gset string) : option string :=
  match nodes with
  | [] => None
  | node :: nodes' =>
      if decide (node = "") then Some "path contains empty node ID"
      else if decide (node ∈ seen) then Some "path contains duplicate nodes"
      else validate_loop nodes' ({[node]} ∪ seen)
  end.

Definition Validate (p : Path) : option string :=
  if decide (Int.len (Nodes p) = 0) then Some "path is empty"
  else validate_loop (Nodes p) ∅.

(** [for i, node := range p.Nodes { reversed[len(p.Nodes)-1-i] = node }], from
    index [i] on, [rest] being [p.Nodes[i:]]. The index written always lies
    inside [reversed]. *)
Fixpoint reverse_loop (n i : Z) (rest reversed : list string) : list string :=
  match rest with
  | [] => reversed
  | node :: rest' =>
      reverse_loop n (Int.add i 1) rest'
        (<[Z.to_nat (Int.sub (Int.sub n 1) i) := node]> reversed)
  end.

Definition Reverse (p : Path) : Path :=
  let reversed := replicate (length (Nodes p)) "" in
  {| Nodes := reverse_loop (Int.len (Nodes p)) 0 (Nodes p) reversed |}.

(** *** Several paths from one source of randomness

    [BuildMultiplePaths] calls [BuildRandomPath] again and again on the same
    generator, so here the selection loop and [BuildRandomPath] hand back the
    draws they have not consumed. *)
Fixpoint select_run (nodes : list string) (pathLength : Z) (draws : list draw)
    (usedIndices : gset Z) (selectedNodes : list string) {struct draws}
  : option (outcome (list string * list draw)) :=
  if decide (Int.len selectedNodes < pathLength) then
    if decide (Int.len nodes ≤ 0)
    then Some (Panic "crypto/rand: argument to Int is <= 0")
    else match draws with
         | [] => None
         | DrawFailed :: _ => Some (Err rand_error)
         | Drawn raw :: draws' =>
             let index := raw `mod` Int.len nodes in
             if decide (index ∈ usedIndices)
             then select_run nodes pathLength draws' usedIndices selectedNodes
             else
               match index_nodes nodes index with
               | Ok node =>
                   select_run nodes pathLength draws'
                     ({[index]} ∪ usedIndices) (selectedNodes ++ [node])
               | Err e => Some (Err e)
               | Panic p => Some (Panic p)
               end
         end
  else Some (Ok (selectedNodes, draws)).

Definition BuildRandomPath_run (pb : PathBuilder) (draws : list draw)
  : option (outcome (Path * list draw)) :=
  if decide (Int.len (availableNodes pb) = 0) then Some (Err "no nodes available")
  else
    let lengthRange := Int.add (Int.sub (maxPathLength pb) (minPathLength pb)) 1 in
    match randInt draws lengthRange with
    | None => None
    | Some (Err e) => Some (Err e)
    | Some (Panic p) => Some (Panic p)
    | Some (Ok (lengthOffset, draws')) =>
        let pathLength0 := Int.add (minPathLength pb) lengthOffset in
        let pathLength :=
          if decide (Int.len (availableNodes pb) < pathLength0)
          then Int.len (availableNodes pb) else pathLength0 in
        match select_run (availableNodes pb) pathLength draws' ∅ [] with
        | None => None
        | Some (Err e) => Some (Err e)
        | Some (Panic p) => Some (Panic p)
        | Some (Ok (selectedNodes, draws'')) =>
            match NewPath selectedNodes with
            | Ok path => Some (Ok (path, draws''))
            | Err e => Some (Err e)
            | Panic p => Some (Panic p)
            end
        end
    end.

(** [for i := 0; i < count; i++ { ... }], with [n] iterations to go. *)
Fixpoint multiple_loop (pb : PathBuilder) (n : nat) (draws : list draw)
    (paths : list Path) : option (outcome (list Path)) :=
  match n with
  | O => Some (Ok paths)
  | S n' =>
      match BuildRandomPath_run pb draws with
      | None => None
      | Some (Err e) => Some (Err e)
      | Some (Panic p) => Some (Panic p)
      | Some (Ok (path, draws')) => multiple_loop pb n' draws' (paths ++ [path])
      end
  end.

(** [paths := make([]*Path, 0, count)] comes before the first draw. *)
Definition BuildMultiplePaths `{Runtime.Limits} (pb : PathBuilder) (count : Z)
    (draws : list draw) : option (outcome (list Path)) :=
  if decide (count ≤ 0) then Some (Err "count must be positive")
  else
    match Runtime.makeslice Runtime.pointer_size 0 count with
    | Ok _ => multiple_loop pb (Z.to_nat count) draws []
    | Err e => Some (Err e)
    | Panic p => Some (Panic p)
    end.

(** A run without the draws it hands back. *)
Definition forget_rest {A B} (r : option (outcome (A * B))) : option (outcome A) :=
  match r with
  | None => None
  | Some (Ok (a, _)) => Some (Ok a)
  | Some (Err e) => Some (Err e)
  | Some (Panic p) => Some (Panic p)
  end.

(** Draws for [n] paths: for each path the offset 0 and one visit of every
    index. *)
Definition rounds (pb : PathBuilder) (n : nat) : list draw :=
  concat (replicate n (Drawn 0 :: sweep (Int.len (availableNodes pb)))).

(** What a builder made by [NewPathBuilder] satisfies. *)
Definition well_formed (pb : PathBuilder) : Prop :=
  1 ≤ minPathLength pb ∧ minPathLength pb ≤ maxPathLength pb
  ∧ maxPathLength pb ≤ Int.max_int
  ∧ minPathLength pb ≤ Int.len (availableNodes pb).

(** The properties of a path over the nodes of a builder. *)
Definition path_of (pb : PathBuilder) (p : Path) : Prop :=
  NoDup (Nodes p) ∧ (∀ x, x ∈ Nodes p → x ∈ availableNodes pb)
  ∧ minPathLength pb ≤ Int.len (Nodes p)
    ≤ Z.min (maxPathLength pb) (Int.len (availableNodes pb)).

End Routing.

(** ** Package network *)

Module Network.
Import Crypto.
Local Open Scope Z_scope.

Record RelayMessage := {
  MessageID : string;
  NextHop : string;
  FinalDest : string;
  HopsLeft : Z;
  Payload : bytes;
  Path : list string;
  Timestamp : Z;
}.

Definition set_HopsLeft (msg : RelayMessage) (h : Z) : RelayMessage :=
  {| MessageID := MessageID msg; NextHop := NextHop msg;
     FinalDest := FinalDest msg; HopsLeft := h; Payload := Payload msg;
     Path := Path msg; Timestamp := Timestamp msg |}.

Definition set_NextHop (msg : RelayMessage) (hop : string) : RelayMessage :=
  {| MessageID := MessageID msg; NextHop := hop;
     FinalDest := FinalDest msg; HopsLeft := HopsLeft msg;
     Payload := Payload msg; Path := Path msg; Timestamp := Timestamp msg |}.

(** [for i, node := range msg.Path { if node == currentNodeID && i+1 < len(msg.Path)
    { msg.NextHop = msg.Path[i+1]; break } }], from index [i] on, [rest]
    being [msg.Path[i:]]: the new next hop, if the loop assigns one. *)
Fixpoint find_next_hop (path : list string) (currentNodeID : string) (i : Z)
    (rest : list string) : option string :=
  match rest with
  | [] => None
  | node :: rest' =>
      if decide (node = currentNodeID ∧ Int.add i 1 < Int.len path)
      then path !! Z.to_nat (Int.add i 1)
      else find_next_hop path currentNodeID (Int.add i 1) rest'
  end.

(** What the call returns: the message pointer (or nil), the
    final-destination flag and the error (or nil). *)
Record relay_result := {
  relayed : option RelayMessage;
  final : bool;
  err : option string;
}.

(** The function works on [*msg] in place and returns the same pointer: the
    first component is the message object after the call, and a returned
    message is that object. *)
Definition ProcessRelayMessage (msg : RelayMessage) (currentNodeID : string)
  : RelayMessage * relay_result :=
  if decide (FinalDest msg = currentNodeID)
  then (msg, {| relayed := Some msg; final := true; err := None |})
  else if decide (HopsLeft msg ≤ 0)
  then (msg, {| relayed := None; final := false;
                err := Some "message exceeded hop limit" |})
  else
    let msg1 := set_HopsLeft msg (Int.sub (HopsLeft msg) 1) in
    let msg2 :=
      if decide (0 < Int.len (Path msg1)) then
        match find_next_hop (Path msg1) currentNodeID 0 (Path msg1) with
        | Some hop => set_NextHop msg1 hop
        | None => msg1
        end
      else msg1 in
    (msg2, {| relayed := Some msg2; final := false; err := None |}).

(** [CreateRelayMessage]. The message ID that [generateMessageID] draws
    (sixteen random bytes in hexadecimal) and the reading of the clock are
    inputs. *)
Definition CreateRelayMessage (msgID : string) (now : Z) (finalDest : string)
    (payload : bytes) (path : list string) : outcome RelayMessage :=
  if decide (Int.len path = 0) then Err "path cannot be empty"
  else
    match path !! 0%nat with
    | None => Panic "index out of range"
    | Some first =>
        Ok {| MessageID := msgID; NextHop := first; FinalDest := finalDest;
              HopsLeft := Int.len path; Payload := payload; Path := path;
              Timestamp := now |}
    end.

(** The message [msg] with another hop count and next hop, everything else
    as it is. *)
Definition with_hop (msg : RelayMessage) (hops : Z) (next : string) : RelayMessage :=
  {| MessageID := MessageID msg; NextHop := next; FinalDest := FinalDest msg;
     HopsLeft := hops; Payload := Payload msg; Path := Path msg;
     Timestamp := Timestamp msg |}.

(** The message handed from node to node: processed at each of [nodes] in
    turn, each time relayed on. [None] when some node does not relay it (it
    delivers the message or drops it). *)
Fixpoint relay_through (msg : RelayMessage) (nodes : list string)
  : option RelayMessage :=
  match nodes with
  | [] => Some msg
  | node :: nodes' =>
      let '(_, r) := ProcessRelayMessage msg node in
      match relayed r, final r, err r with
      | Some msg', false, None => relay_through msg' nodes'
      | _, _, _ => None
      end
  end.

End Network.

(** ** Package routing: mixnode.go

    The sequential part of a mix node: its configuration and its queue, the
    extraction and the shuffle of a batch, and the choice of a delay. The
    channels, the mutex and the two loops that call these functions are not
    part of the embedding. *)

Module Mix.
Import Crypto Routing.
Local Open Scope Z_scope.

(** A [time.Duration] is an [int64] count of nanoseconds. *)
Record MixNode := {
  ID : string;
  packetQueue : list bytes;
  maxQueueSize : Z;
  minDelay : Z;
  maxDelay : Z;
  batchSize : Z;
}.

(** The struct literal makes, in this order, the queue
    ([make([][]byte, 0, maxQueueSize)]), the processing and the output
    channel ([make(chan []byte, maxQueueSize)]) and the stop channel
    ([make(chan struct{})]). *)
Definition NewMixNode `{Runtime.Limits} (id : string)
    (maxQueueSize batchSize minDelay maxDelay : Z) : outcome MixNode :=
  if decide (maxQueueSize ≤ 0) then Err "max queue size must be positive"
  else if decide (batchSize ≤ 0) then Err "batch size must be positive"
  else if decide (minDelay < 0 ∨ maxDelay < minDelay)
  then Err "invalid delay configuration"
  else
    _ ← Runtime.makeslice Runtime.slice_size 0 maxQueueSize;
    _ ← Runtime.makechan Runtime.slice_size maxQueueSize;
    _ ← Runtime.makechan Runtime.slice_size maxQueueSize;
    _ ← Runtime.makechan 0 0;
    Ok {| ID := id; packetQueue := []; maxQueueSize := maxQueueSize;
          minDelay := minDelay; maxDelay := maxDelay; batchSize := batchSize |}.

Definition set_packetQueue (mn : MixNode) (queue : list bytes) : MixNode :=
  {| ID := ID mn; packetQueue := queue; maxQueueSize := maxQueueSize mn;
     minDelay := minDelay mn; maxDelay := maxDelay mn; batchSize := batchSize mn |}.

(** [Ok mn'] is the node after a call that returned nil; on an error the
    node is as it was. *)
Definition AddPacket (mn : MixNode) (packet : bytes) : outcome MixNode :=
  if decide (maxQueueSize mn ≤ Int.len (packetQueue mn)) then Err "queue is full"
  else Ok (set_packetQueue mn (packetQueue mn ++ [packet])).

Definition QueueSize (mn : MixNode) : Z := Int.len (packetQueue mn).

(** [shuffled[i], shuffled[j] = shuffled[j], shuffled[i]] *)
Definition swap (shuffled : list bytes) (i j : Z) : outcome (list bytes) :=
  if decide (0 ≤ i ∧ 0 ≤ j) then
    match shuffled !! Z.to_nat i, shuffled !! Z.to_nat j with
    | Some xi, Some xj => Ok (<[Z.to_nat j := xi]> (<[Z.to_nat i := xj]> shuffled))
    | _, _ => Panic "index out of range"
    end
  else Panic "index out of range".

(** [for i := len(shuffled) - 1; i > 0; i-- { ... }], for the values [idxs]
    of [i]; the draws not consumed are handed back. *)
Fixpoint shuffle_loop (idxs : list Z) (draws : list draw) (shuffled : list bytes)
  : option (outcome (list bytes * list draw)) :=
  match idxs with
  | [] => Some (Ok (shuffled, draws))
  | i :: idxs' =>
      match randInt draws (Int.add i 1) with
      | None => None
      | Some (Err e) => Some (Err e)
      | Some (Panic p) => Some (Panic p)
      | Some (Ok (j, draws')) =>
          match swap shuffled i j with
          | Ok shuffled' => shuffle_loop idxs' draws' shuffled'
          | Err e => Some (Err e)
          | Panic p => Some (Panic p)
          end
      end
  end.

Definition shuffleBatch (batch : list bytes) (draws : list draw)
  : option (outcome (list bytes * list draw)) :=
  shuffle_loop (reverse (seqZ 1 (Int.sub (Int.len batch) 1))) draws batch.

(** The delay chosen; a failed draw is answered with the minimum. *)
Definition randomDelay (mn : MixNode) (draws : list draw) : option (outcome Z) :=
  if decide (minDelay mn = maxDelay mn) then Some (Ok (minDelay mn))
  else
    let delayRange := Int.sub (maxDelay mn) (minDelay mn) in
    match randInt draws delayRange with
    | None => None
    | Some (Err _) => Some (Ok (minDelay mn))
    | Some (Panic p) => Some (Panic p)
    | Some (Ok (randomOffset, _)) => Some (Ok (Int.add (minDelay mn) randomOffset))
    end.

(** The case of [select { case mn.processingCh <- packet: ...; case
    <-mn.stopCh: return }] that fires: the send (the channel has room), or
    the stop (the node has been stopped). *)
Inductive selected := Sends | Stops.

Global Instance selected_eq_dec : EqDecision selected.
Proof. solve_decision. Defined.

(** [for _, packet := range shuffled { select { ... } }]: the packets sent
    to the processing channel, in the order of sending, for the cases
    [fired] that the scheduler picks, one for each [select] reached. [None]
    when these run out: the call is still waiting in a [select], the channel
    being full and the node not stopped. *)
Fixpoint send_loop (shuffled : list bytes) (fired : list selected) (sent : list bytes)
  : option (list bytes) :=
  match shuffled with
  | [] => Some sent
  | packet :: shuffled' =>
      match fired with
      | [] => None
      | Sends :: fired' => send_loop shuffled' fired' (sent ++ [packet])
      | Stops :: _ => Some sent
      end
  end.

(** [processBatch]: the node after the call, and the packets it has sent to
    the processing channel, in the order of sending. *)
Definition processBatch (mn : MixNode) (draws : list draw) (fired : list selected)
  : option (outcome (MixNode * list bytes)) :=
  if decide (Int.len (packetQueue mn) = 0) then Some (Ok (mn, []))
  else
    let size :=
      if decide (Int.len (packetQueue mn) < batchSize mn)
      then Int.len (packetQueue mn) else batchSize mn in
    if decide (size < 0) then Some (Panic "makeslice: len out of range")
    else
      let batch := take (Z.to_nat size) (packetQueue mn) in
      let mn' := set_packetQueue mn (drop (Z.to_nat size) (packetQueue mn)) in
      match shuffleBatch batch draws with
      | None => None
      | Some (Panic p) => Some (Panic p)
      | Some (Ok (shuffled, _)) =>
          sent ← send_loop shuffled fired []; Some (Ok (mn', sent))
      | Some (Err _) =>
          sent ← send_loop batch fired []; Some (Ok (mn', sent))
      end.

(** The number of packets that [processBatch] takes off the queue:
    min(batchSize, len(packetQueue)). *)
Definition taken (mn : MixNode) : nat :=
  Z.to_nat (Z.min (batchSize mn) (Int.len (packetQueue mn))).

(** What [NewMixNode] establishes and the operations keep. *)
Definition configured (mn : MixNode) : Prop :=
  Int.len (packetQueue mn) ≤ maxQueueSize mn ∧ 0 < maxQueueSize mn
  ∧ 0 < batchSize mn ∧ 0 ≤ minDelay mn ≤ maxDelay mn.

End Mix.

(** ** Package message: packet.go *)

Module Packets.
Import Crypto.
Local Open Scope Z_scope.

(** [PacketType] is an [int]; the four constants are 0 to 3. *)
Definition PacketTypeData : Z := 0.
Definition PacketTypeAck : Z := 1.
Definition PacketTypeHandshake : Z := 2.
Definition PacketTypeKeyExchange : Z := 3.

Record Packet := {
  PktType : Z;
  Sender : string;
  Recipient : string;
  Timestamp : Z;
  Nonce : bytes;
  Payload : bytes;
  Signature : bytes;
}.

(** [time.Now().Unix()] is the input [now]. *)
Definition NewPacket (now : Z) (pktType : Z) (sender recipient : string)
    (payload : bytes) : Packet :=
  {| PktType := pktType; Sender := sender; Recipient := recipient;
     Timestamp := now; Nonce := []; Payload := payload; Signature := [] |}.

(** [crypto/ed25519] and [encoding/json] of the standard library, as far
    as the package uses them. *)
Definition PrivateKeySize : nat := 64.
Definition PublicKeySize : nat := 32.

Class Ed25519 := {
  ed_sign : bytes → bytes → bytes;          (* private key, message ↦ signature *)
  ed_verify : bytes → bytes → bytes → bool; (* public key, message, signature *)
  ed_pair : bytes → bytes → Prop;           (* a private key and its public key *)
}.

(** What the signature scheme promises: a signature is not empty, and it
    verifies under the public key of the private key that made it. *)
Class Ed25519Correct (E : Ed25519) : Prop := {
  ed_pair_sizes : ∀ priv pub,
    ed_pair priv pub → length priv = PrivateKeySize ∧ length pub = PublicKeySize;
  ed_sign_nonempty : ∀ priv msg,
    length priv = PrivateKeySize → ed_sign priv msg ≠ [];
  ed_verify_sign : ∀ priv pub msg,
    ed_pair priv pub → ed_verify pub msg (ed_sign priv msg) = true;
}.

Class JSON := { Marshal : Packet → outcome bytes }.

(** [json.Marshal] of a [*Packet] does not fail: the fields are an [int],
    strings, an [int64] and byte slices, all of which it encodes. *)
Class JSONMarshals (J : JSON) : Prop :=
  marshal_ok : ∀ p, ∃ data, Marshal p = Ok data.

Section WithLibraries.
Context {E : Ed25519} {J : JSON}.

Definition signableData (p : Packet) : outcome bytes :=
  let temp := {| PktType := PktType p; Sender := Sender p; Recipient := Recipient p;
                 Timestamp := Timestamp p; Nonce := Nonce p; Payload := Payload p;
                 Signature := [] |} in
  Marshal temp.

(** [Ok p'] is the packet after a call that returned nil; on an error the
    packet is as it was. *)
Definition Sign (p : Packet) (privateKey : bytes) : outcome Packet :=
  if decide (length privateKey ≠ PrivateKeySize) then Err "invalid private key size"
  else
    data ← signableData p;
    Ok {| PktType := PktType p; Sender := Sender p; Recipient := Recipient p;
          Timestamp := Timestamp p; Nonce := Nonce p; Payload := Payload p;
          Signature := ed_sign privateKey data |}.

(** [Ok ()] is nil. *)
Definition Verify (p : Packet) (publicKey : bytes) : outcome unit :=
  if decide (length publicKey ≠ PublicKeySize) then Err "invalid public key size"
  else if decide (Int.len (Signature p) = 0) then Err "packet is not signed"
  else
    data ← signableData p;
    if negb (ed_verify publicKey data (Signature p))
    then Err "signature verification failed"
    else Ok ().
End WithLibraries.

(** [nil] is [None]. *)
Definition Validate (p : Packet) : option string :=
  if decide (Sender p = "") then Some "sender cannot be empty"
  else if decide (Recipient p = "") then Some "recipient cannot be empty"
  else if decide (Timestamp p = 0) then Some "timestamp cannot be zero"
  else if decide (Int.len (Payload p) = 0) then Some "payload cannot be empty"
  else None.

(** *** PacketQueue *)

Record PacketQueue := { packets : list Packet; maxSize : Z }.

(** [packets: make([]*Packet, 0, maxSize)] *)
Definition NewPacketQueue `{Runtime.Limits} (maxSize : Z) : outcome PacketQueue :=
  _ ← Runtime.makeslice Runtime.pointer_size 0 maxSize;
  Ok {| packets := []; maxSize := maxSize |}.

(** [Ok pq'] is the queue after a call that returned nil; on an error the
    queue is as it was. *)
Definition Enqueue (pq : PacketQueue) (packet : Packet) : outcome PacketQueue :=
  if decide (maxSize pq ≤ Int.len (packets pq)) then Err "queue is full"
  else Ok {| packets := packets pq ++ [packet]; maxSize := maxSize pq |}.

(** The packet returned, and the queue after the call. *)
Definition Dequeue (pq : PacketQueue) : outcome (Packet * PacketQueue) :=
  if decide (Int.len (packets pq) = 0) then Err "queue is empty"
  else
    match packets pq with
    | [] => Panic "index out of range"
    | packet :: rest => Ok (packet, {| packets := rest; maxSize := maxSize pq |})
    end.

Definition Size (pq : PacketQueue) : Z := Int.len (packets pq).

Definition IsEmpty (pq : PacketQueue) : bool := bool_decide (Int.len (packets pq) = 0).

Definition Clear `{Runtime.Limits} (pq : PacketQueue) : outcome PacketQueue :=
  _ ← Runtime.makeslice Runtime.pointer_size 0 (maxSize pq);
  Ok {| packets := []; maxSize := maxSize pq |}.

(** Enqueuing the packets of a list one after the other: the errors
    returned, in order, and the queue at the end. *)
Fixpoint EnqueueAll (pq : PacketQueue) (l : list Packet)
  : list (option string) * PacketQueue :=
  match l with
  | [] => ([], pq)
  | packet :: l' =>
      match Enqueue pq packet with
      | Ok pq' => let '(errs, pq'') := EnqueueAll pq' l' in (None :: errs, pq'')
      | Err e => let '(errs, pq'') := EnqueueAll pq l' in (Some e :: errs, pq'')
      | Panic _ => ([], pq)
      end
  end.

(** Dequeuing [n] times: the packets returned, in order, and the queue at
    the end; [None] if one of the calls fails. *)
Fixpoint DequeueN (n : nat) (pq : PacketQueue) : option (list Packet * PacketQueue) :=
  match n with
  | O => Some ([], pq)
  | S n' =>
      match Dequeue pq with
      | Ok (packet, pq') =>
          '(l, pq'') ← DequeueN n' pq'; Some (packet :: l, pq'')
      | _ => None
      end
  end.

End Packets.

(** ** A cipher to run the embedding on

    The marker cipher does not hide anything: its tag spells out the key and
    the nonce. It satisfies the laws asked of an AEAD above, which is all it
    is used for: the laws are consistent, and the functions of package crypto
    can be evaluated on concrete packets. *)

Module MarkerCipher.
Import Crypto.

Definition overhead : nat := KeySize + NonceSize.

Definition marker_seal (key nonce plain aad : bytes) : bytes :=
  plain ++ key ++ nonce.

Definition marker_open (key nonce ciphertext aad : bytes) : option bytes :=
  let n := (length ciphertext - overhead)%nat in
  if decide (overhead ≤ length ciphertext ∧ drop n ciphertext = key ++ nonce)
  then Some (take n ciphertext) else None.

Definition marker : AEAD := {| seal := marker_seal; open := marker_open |}.

Definition zeros (n : nat) : bytes := replicate n x00.
Definition ones (n : nat) : bytes := replicate n x01.
(** [[]byte(s)] *)
Definition text (s : string) : bytes := String.list_byte_of_string s.
End MarkerCipher.

(** ** A signature scheme and a serialisation to run the embedding on

    Like the marker cipher, these are no cryptography: the signature of a
    message spells out the public half of the key and the message, and the
    serialisation writes the fields one after the other. They satisfy the
    laws asked of the signature scheme, and they compute. *)

Module MarkerSignature.
Import Crypto MarkerCipher Packets.

Definition marker_sign (priv msg : bytes) : bytes := drop 32 priv ++ msg.

Definition marker_verify (pub msg sig : bytes) : bool :=
  bool_decide (sig = pub ++ msg).

Definition marker_pair (priv pub : bytes) : Prop :=
  length priv = PrivateKeySize ∧ pub = drop 32 priv.

Definition marker_ed25519 : Ed25519 :=
  {| ed_sign := marker_sign; ed_verify := marker_verify; ed_pair := marker_pair |}.

Definition marker_json : JSON :=
  {| Marshal := λ p,
       Ok (text (Sender p) ++ text (Recipient p) ++ Nonce p ++ Payload p
           ++ Signature p) |}.

(** A private key and a packet. *)
Definition test_key : bytes := zeros 32 ++ ones 32.
Definition test_packet : Packet :=
  NewPacket 1700000000 PacketTypeData "alice" "bob" (text "hello").
End MarkerSignature.

(** ** Concrete inputs *)

Module Examples.
Import Crypto MarkerCipher Message.
Local Open Scope Z_scope.

(** Ten nodes, of which three are excluded, for paths of 2 to 4 hops. *)
Definition ten_nodes : Routing.PathBuilder :=
  {| Routing.availableNodes :=
       ["n0"; "n1"; "n2"; "n3"; "n4"; "n5"; "n6"; "n7"; "n8"; "n9"];
     Routing.minPathLength := 2;
     Routing.maxPathLength := 4 |}.
Definition excluded : list string := ["n0"; "n1"; "n2"].

(** The message of TestSplitMessage. *)
Definition test_message : bytes :=
  text "This is a test message that will be split into chunks".

(** Two chunks of message "msg1" that disagree about the total, and the
    assembler that holds both. *)
Definition first_of_two : Chunk := NewChunk "msg1" 0 2 (text "ab").
Definition second_of_five : Chunk := NewChunk "msg1" 1 5 (text "cd").

Definition mixed_totals : ChunkAssembler :=
  (AddChunks NewChunkAssembler [first_of_two; second_of_five]).2.

(** The same disagreement the other way round: chunk 0 announces five
    chunks, chunk 1 announces two. *)
Definition first_of_five : Chunk := NewChunk "msg1" 0 5 (text "ab").
Definition second_of_two : Chunk := NewChunk "msg1" 1 2 (text "cd").

Definition crossed_totals : ChunkAssembler :=
  (AddChunks NewChunkAssembler [first_of_five; second_of_two]).2.

(** A relay message on the path r1, r2, r3 towards "dest", with [hops]
    hops left. *)
Definition relay_message (hops : Z) : Network.RelayMessage :=
  {| Network.MessageID := "0a1b"; Network.NextHop := "r1";
     Network.FinalDest := "dest"; Network.HopsLeft := hops;
     Network.Payload := text "payload"; Network.Path := ["r1"; "r2"; "r3"];
     Network.Timestamp := 1700000000 |}.

(** A mix node for batches of two, holding three packets. *)
Definition mix_node : Mix.MixNode :=
  {| Mix.ID := "mix1"; Mix.packetQueue := [text "p0"; text "p1"; text "p2"];
     Mix.maxQueueSize := 1000; Mix.minDelay := 50000000;
     Mix.maxDelay := 200000000; Mix.batchSize := 2 |}.

(** The limits of the runtime on 64-bit Linux, with the channel header of
    Go 1.22. *)
Definition linux_amd64 : Runtime.Limits.
Proof.
  refine {| Runtime.maxAlloc := 2 ^ 48; Runtime.hchanSize := 96 |}.
  unfold Int.max_int. lia.
Defined.
End Examples.

(** * Properties *)

(** ** The onion codec *)

Section Onion.
Import Crypto.
Context {A : AEAD}.

Lemma New_ok key : length key = KeySize → New key = Ok key.
Proof. intros Hk. unfold New. by rewrite decide_True. Qed.

Lemma New_bad key :
  length key ≠ KeySize → New key = Err "chacha20poly1305: bad key length".
Proof. intros Hk. unfold New. by rewrite decide_False. Qed.

Lemma ReadFull_ok rnd n :
  (n ≤ length rnd)%nat → ReadFull rnd n = Ok (take n rnd, drop n rnd).
Proof. intros Hn. unfold ReadFull. by rewrite decide_True. Qed.

(** What [CreateOnionPacket] builds: the nonce it drew, followed by the
    sealed plaintext. *)
Lemma CreateOnionPacket_ok rnd plain key :
  length key = KeySize → (NonceSize ≤ length rnd)%nat →
  CreateOnionPacket rnd plain key =
    Ok ({| Payload := take NonceSize rnd ++ seal key (take NonceSize rnd) plain [] |},
        drop NonceSize rnd).
Proof.
  intros Hk Hr. unfold CreateOnionPacket.
  rewrite New_ok by done. cbn. rewrite ReadFull_ok by done. reflexivity.
Qed.

(** Peeling a packet made of a 12-byte nonce and a body opens the body. *)
Lemma PeelOnion_split nonce body key :
  length key = KeySize → length nonce = NonceSize →
  PeelOnion {| Payload := nonce ++ body |} key = Open key [] nonce body [].
Proof.
  intros Hk Hn. unfold PeelOnion. rewrite New_ok by done.
  change (Ok key ≫= ?f) with (f key). cbv beta. cbn [Payload].
  rewrite decide_False by (rewrite length_app; lia).
  rewrite <- Hn. by rewrite take_app_length, drop_app_length.
Qed.

Lemma take_nonce_length (rnd : bytes) :
  (NonceSize ≤ length rnd)%nat → length (take NonceSize rnd) = NonceSize.
Proof. intros. rewrite length_take. lia. Qed.

Section Correct.
Context {HA : AEADCorrect A}.

Lemma create_then_peel rnd plain key :
  length key = KeySize → (NonceSize ≤ length rnd)%nat →
  ∃ pkt, CreateOnionPacket rnd plain key = Ok (pkt, drop NonceSize rnd)
         ∧ PeelOnion pkt key = Ok plain.
Proof.
  intros Hk Hr. eexists. split; [by apply CreateOnionPacket_ok|].
  rewrite PeelOnion_split by auto using take_nonce_length.
  unfold Open. rewrite open_seal by auto using take_nonce_length.
  reflexivity.
Qed.

Lemma wrap_then_peel keys : ∀ rnd plain,
  Forall (λ key, length key = KeySize) keys →
  (NonceSize * length keys ≤ length rnd)%nat →
  ∃ onion rnd', WrapLayers rnd plain keys = Ok (onion, rnd')
                ∧ length rnd' = (length rnd - NonceSize * length keys)%nat
                ∧ PeelLayers onion keys = Ok plain.
Proof.
  induction keys as [|key keys IH]; intros rnd plain Hkeys Hrnd.
  - exists plain, rnd. cbn. repeat split; lia.
  - apply Forall_cons in Hkeys as [Hk Hkeys]. cbn [length] in Hrnd.
    destruct (IH rnd plain Hkeys ltac:(lia)) as (inner & rnd1 & Hw & Hlen & Hp).
    destruct (create_then_peel rnd1 inner key Hk ltac:(lia)) as (pkt & Hc & Hpeel).
    exists (Serialize pkt), (drop NonceSize rnd1). repeat split.
    + cbn [WrapLayers]. rewrite Hw. cbn. rewrite Hc. reflexivity.
    + rewrite length_drop, Hlen. cbn [length]. lia.
    + cbn [PeelLayers]. unfold Deserialize. cbn.
      replace {| Payload := Serialize pkt |} with pkt by (by destruct pkt).
      rewrite Hpeel. cbn. exact Hp.
Qed.
End Correct.

Lemma CreateOnionPacket_inv rnd plain key pkt rnd' :
  CreateOnionPacket rnd plain key = Ok (pkt, rnd') →
  length key = KeySize ∧ (NonceSize ≤ length rnd)%nat.
Proof.
  unfold CreateOnionPacket. intros Hc.
  destruct (decide (length key = KeySize)) as [Hk|Hk];
    [|by rewrite New_bad in Hc].
  split; [done|]. destruct (decide (NonceSize ≤ length rnd)%nat); [done|].
  rewrite New_ok in Hc by done. unfold ReadFull in Hc.
  rewrite decide_False in Hc by done. by destruct rnd.
Qed.

Lemma PeelOnion_cases pkt key :
  PeelOnion pkt key =
    if decide (length key = KeySize) then
      if decide (length (Payload pkt) < NonceSize)%nat then Err "invalid payload"
      else match open key (take NonceSize (Payload pkt))
                   (drop NonceSize (Payload pkt)) [] with
           | Some plain => Ok plain
           | None => Err "chacha20poly1305: message authentication failed"
           end
    else Err "chacha20poly1305: bad key length".
Proof.
  unfold PeelOnion, New, Open.
  destruct (decide (length key = KeySize)); reflexivity.
Qed.
End Onion.

Section MarkerLaws.
Import Crypto MarkerCipher.

Lemma marker_open_seal : AEADCorrect marker.
Proof.
  intros key nonce plain aad Hk Hn. cbn.
  unfold marker_open, marker_seal, overhead. unfold KeySize, NonceSize in *.
  assert (length (plain ++ key ++ nonce) - (32 + 12) = length plain)%nat
    as -> by (rewrite !length_app; lia).
  rewrite drop_app_length, take_app_length.
  rewrite decide_True; [done|]. split; [|done]. rewrite !length_app. lia.
Qed.

End MarkerLaws.

Section OnionClaims.
Import Crypto MarkerCipher.

(** C1. Wrapping a payload innermost-to-outermost under 32-byte keys
    K1, ..., Kk (given the 12 random bytes each layer's nonce needs) and
    peeling with K1, ..., Kk in that order gives the payload back; in
    particular peeling a packet just created, with the key it was created
    with, gives the plaintext back. *)
Theorem onion_wrap_peel_roundtrip (A : AEAD) (HA : AEADCorrect A) :
  (∀ (keys : list bytes) (plain rnd : bytes),
     Forall (λ key, length key = KeySize) keys →
     (NonceSize * length keys ≤ length rnd)%nat →
     ∃ onion rnd', WrapLayers rnd plain keys = Ok (onion, rnd')
                   ∧ PeelLayers onion keys = Ok plain)
  ∧ (∀ key plain rnd : bytes,
       length key = KeySize → (NonceSize ≤ length rnd)%nat →
       ∃ pkt rnd', CreateOnionPacket rnd plain key = Ok (pkt, rnd')
                   ∧ PeelOnion pkt key = Ok plain).
Proof.
  split.
  - intros keys plain rnd Hkeys Hrnd.
    destruct (wrap_then_peel keys rnd plain Hkeys Hrnd) as (onion & rnd' & Hw & _ & Hp).
    by exists onion, rnd'.
  - intros key plain rnd Hk Hrnd.
    destruct (create_then_peel rnd plain key Hk Hrnd) as (pkt & Hc & Hp).
    by exists pkt, (drop NonceSize rnd).
Qed.

Lemma onion_wrap_peel_roundtrip_witness :
  ∃ onion rnd',
    WrapLayers (A := marker) (zeros 40) (text "Secret message")
      [ones 32; zeros 32; replicate 32 x02] = Ok (onion, rnd')
    ∧ PeelLayers (A := marker) onion [ones 32; zeros 32; replicate 32 x02]
      = Ok (text "Secret message").
Proof.
  apply (proj1 (onion_wrap_peel_roundtrip marker marker_open_seal)).
  - repeat constructor.
  - vm_compute. lia.
Defined.



End OnionClaims.

(** ** The ratchet *)

Section Ratchet.
Import Crypto.

Lemma xor_byte_55_twice b : xor_byte (xor_byte b x55) x55 = b.
Proof. destruct b; reflexivity. Qed.

Lemma RatchetStep_twice r : RatchetStep (RatchetStep r) = r.
Proof.
  destruct r as [priv pub peer root chain]. unfold RatchetStep. cbn. f_equal.
  rewrite <- list_fmap_compose. rewrite <- (list_fmap_id chain) at 2.
  apply list_fmap_ext. intros _ b _. apply xor_byte_55_twice.
Qed.

Lemma steps_add_two n r : steps (n + 2) r = steps n r.
Proof.
  unfold steps. induction n as [|n IH].
  - apply RatchetStep_twice.
  - change (RatchetStep (Nat.iter (n + 2) RatchetStep r)
            = RatchetStep (Nat.iter n RatchetStep r)).
    by f_equal.
Qed.

(** A session straight out of [NewRatchetSession] starts its chain at the
    shared secret. *)
Lemma NewRatchetSession_chain `{Curve25519} rnd peerPub s rnd' :
  NewRatchetSession rnd peerPub = Ok (s, rnd') → ChainKey s = RootKey s.
Proof.
  unfold NewRatchetSession. intros Hs.
  destruct (ReadFull rnd 32) as [[priv r1]| |]; cbn in Hs; try discriminate.
  destruct (X25519 priv Basepoint); cbn in Hs; try discriminate.
  destruct (decide (length peerPub ≠ 32%nat)); try discriminate.
  destruct (X25519 priv peerPub); cbn in Hs; try discriminate.
  by injection Hs as <- _.
Qed.

(** C3 does not hold of the code. The step XORs every byte of the chain
    key with 0x55, so two steps undo each other: in every session, fresh
    ones included, the chain key after j + 2 steps is the chain key after
    j steps (in particular after 2 steps it is the initial one again), and
    the third key handed out by [GetNextKey] is the first one. *)
Theorem ratchet_chain_key_repeats (r : Crypto.RatchetSession) :
  ChainKey (steps 2 r) = ChainKey (steps 0 r)
  ∧ (∀ j, ChainKey (steps (j + 2) r) = ChainKey (steps j r))
  ∧ NextKeys 3 r !! 2%nat = NextKeys 3 r !! 0%nat.
Proof.
  split; [|split].
  - exact (f_equal ChainKey (steps_add_two 0 r)).
  - intros j. by rewrite steps_add_two.
  - change (Some (ChainKey (RatchetStep (RatchetStep (RatchetStep r))))
            = Some (ChainKey (RatchetStep r))).
    by rewrite RatchetStep_twice.
Qed.
End Ratchet.

(** ** Go's [int] where nothing overflows *)

Section IntFacts.
Local Open Scope Z_scope.

Lemma wrap_in_range z : Int.in_range z → Int.wrap z = z.
Proof.
  unfold Int.in_range, Int.wrap, Int.min_int, Int.max_int. intros Hz.
  rewrite Z.mod_small; lia.
Qed.

Lemma wrap_sub_wrap x y : Int.wrap (Int.wrap x - y) = Int.wrap (x - y).
Proof.
  unfold Int.wrap. f_equal.
  replace ((x + 2 ^ 63) `mod` 2 ^ 64 - 2 ^ 63 - y + 2 ^ 63)
    with ((x + 2 ^ 63) `mod` 2 ^ 64 - y) by lia.
  rewrite Zminus_mod_idemp_l. f_equal. lia.
Qed.

Lemma len_nonneg {A} (l : list A) : 0 ≤ Int.len l.
Proof. unfold Int.len. lia. Qed.

Lemma len_zero {A} (l : list A) : Int.len l = 0 ↔ l = [].
Proof. unfold Int.len. destruct l; cbn; split; intros; (done || lia). Qed.
End IntFacts.

(** ** Splitting *)

Section Split.
Import Crypto Message.
Local Open Scope Z_scope.

Lemma ceil_div_bounds a b :
  0 < a → 0 < b →
  0 < ceil_div a b ∧ (ceil_div a b - 1) * b < a ∧ a ≤ ceil_div a b * b.
Proof.
  intros Ha Hb. unfold ceil_div.
  pose proof (Z.div_mod (a + b - 1) b ltac:(lia)) as Hdm.
  pose proof (Z.mod_pos_bound (a + b - 1) b Hb) as Hm.
  nia.
Qed.

Lemma total_no_overflow (data : bytes) chunkSize :
  0 < chunkSize → 0 < Int.len data →
  Int.len data + chunkSize - 1 ≤ Int.max_int →
  Int.quot (Int.sub (Int.add (Int.len data) chunkSize) 1) chunkSize
  = ceil_div (Int.len data) chunkSize.
Proof.
  intros Hc Hl Hmax. unfold Int.quot, Int.sub, Int.add, ceil_div.
  rewrite wrap_sub_wrap.
  assert (Int.in_range (Int.len data + chunkSize - 1)) as Hr
    by (unfold Int.in_range, Int.min_int, Int.max_int in *; lia).
  rewrite (wrap_in_range _ Hr).
  rewrite Z.quot_div_nonneg by lia.
  apply wrap_in_range.
  pose proof (Z.div_pos (Int.len data + chunkSize - 1) chunkSize ltac:(lia) Hc).
  pose proof (Z.div_le_upper_bound (Int.len data + chunkSize - 1) chunkSize
                (Int.len data + chunkSize - 1) Hc ltac:(nia)).
  unfold Int.in_range, Int.min_int, Int.max_int in *. lia.
Qed.

(** The slice the loop cuts for an offset inside the data. *)
Lemma slice_piece (data : bytes) start chunkSize :
  0 ≤ start < Int.len data → 0 < chunkSize →
  slice data start
    (if decide (Int.len data < start + chunkSize) then Int.len data
     else start + chunkSize)
  = Ok (take (Z.to_nat chunkSize) (drop (Z.to_nat start) data)).
Proof.
  intros Hs Hc. unfold slice. destruct (decide (Int.len data < start + chunkSize)).
  - rewrite decide_True by lia. f_equal.
    rewrite !take_ge; [done| |]; rewrite length_drop; unfold Int.len in *; lia.
  - rewrite decide_True by lia. do 2 f_equal. lia.
Qed.

Lemma split_loop_no_overflow messageID (data : bytes) chunkSize total idxs acc :
  0 < chunkSize → Int.len data + chunkSize - 1 ≤ Int.max_int →
  (∀ i, i ∈ idxs → 0 ≤ i ∧ i * chunkSize < Int.len data) →
  split_loop messageID data chunkSize total idxs acc
  = Ok (acc ++ (spec_chunk messageID data chunkSize total <$> idxs)).
Proof.
  intros Hc Hmax. revert acc.
  induction idxs as [|i idxs IH]; intros acc Hidx.
  - cbn. by rewrite app_nil_r.
  - destruct (Hidx i ltac:(left)) as [Hi0 Hi].
    cbn [split_loop]. unfold Int.mul, Int.add.
    assert (Int.in_range (i * chunkSize)) as Hr1
      by (unfold Int.in_range, Int.min_int, Int.max_int in *; nia).
    rewrite (wrap_in_range _ Hr1).
    assert (Int.in_range (i * chunkSize + chunkSize)) as Hr2
      by (unfold Int.in_range, Int.min_int, Int.max_int in *; nia).
    rewrite (wrap_in_range _ Hr2).
    rewrite slice_piece by nia. cbn.
    rewrite IH by (intros j Hj; apply Hidx; by right).
    by rewrite <- app_assoc.
Qed.

(** Where the computation of the chunk count does not overflow,
    [SplitMessage] returns the chunks of the specification. *)
Lemma SplitMessage_no_overflow messageID (data : bytes) chunkSize :
  0 < chunkSize → data ≠ [] →
  Int.len data + chunkSize - 1 ≤ Int.max_int →
  SplitMessage messageID data chunkSize = Ok (spec_chunks messageID data chunkSize).
Proof.
  intros Hc Hd Hmax.
  assert (0 < Int.len data) as Hl by (destruct data; [done|unfold Int.len; cbn; lia]).
  pose proof (ceil_div_bounds _ _ Hl Hc) as (HN & Hlo & Hhi).
  unfold SplitMessage. rewrite decide_False by lia. rewrite decide_False by lia.
  rewrite total_no_overflow by done. rewrite decide_False by lia.
  rewrite split_loop_no_overflow; [done..|].
  intros i [Hi0 Hi]%elem_of_seqZ. nia.
Qed.

(** The chunks of the specification, field by field. *)
Lemma spec_chunks_fields messageID (data : bytes) chunkSize :
  length (spec_chunks messageID data chunkSize)
  = Z.to_nat (ceil_div (Int.len data) chunkSize)
  ∧ ∀ i, 0 ≤ i < ceil_div (Int.len data) chunkSize →
      ∃ c, spec_chunks messageID data chunkSize !! Z.to_nat i = Some c
           ∧ MessageID c = messageID ∧ Seq c = i
           ∧ Total c = ceil_div (Int.len data) chunkSize
           ∧ Data c = take (Z.to_nat chunkSize) (drop (Z.to_nat (i * chunkSize)) data).
Proof.
  unfold spec_chunks. split; [by rewrite length_fmap, length_seqZ|].
  intros i Hi. eexists. rewrite list_lookup_fmap.
  rewrite (proj2 (lookup_seqZ 0 _ (Z.to_nat i) i)) by lia. done.
Qed.

Lemma split_loop_not_Err messageID (data : bytes) chunkSize total idxs acc msg :
  split_loop messageID data chunkSize total idxs acc ≠ Err msg.
Proof.
  revert acc. induction idxs as [|i idxs IH]; intros acc; cbn [split_loop]; [done|].
  unfold slice. destruct (decide _); [apply IH|done].
Qed.

Lemma SplitMessage_errors messageID (data : bytes) chunkSize :
  (∃ msg, SplitMessage messageID data chunkSize = Err msg)
  ↔ chunkSize ≤ 0 ∨ data = [].
Proof.
  unfold SplitMessage. split.
  - intros [msg Hs]. destruct (decide (chunkSize ≤ 0)); [by left|].
    destruct (decide (Int.len data = 0)) as [Hz|Hz]; [right; by apply len_zero|].
    exfalso. destruct (decide (_ < 0)); [done|].
    by apply split_loop_not_Err in Hs.
  - intros [Hc| ->].
    + rewrite decide_True by done. eauto.
    + destruct (decide (chunkSize ≤ 0)); eauto.
Qed.
End Split.

(** ** The assembler *)

Section Assembler.
Import Crypto Message.
Local Open Scope Z_scope.

Lemma Validate_valid c : Validate c = None ↔ chunk_valid c.
Proof.
  unfold Validate, chunk_valid. pose proof (len_zero (Data c)) as Hz.
  repeat case_decide; split; intros Hv; try done; intuition (try done; lia).
Qed.

Lemma Validate_invalid c : ¬ chunk_valid c → ∃ e, Validate c = Some e.
Proof.
  intros Hc. destruct (Validate c) as [e|] eqn:Hv; [by exists e|].
  by apply Validate_valid in Hv.
Qed.

Lemma AddChunk_valid ca c :
  chunk_valid c →
  AddChunk ca c =
    (None, {| chunks := <[MessageID c := store (default ∅ (chunks ca !! MessageID c)) c]>
                          (chunks ca) |}).
Proof.
  intros Hc%Validate_valid. unfold AddChunk. rewrite Hc. do 2 f_equal.
  apply map_eq. intros j. destruct (decide (MessageID c = j)) as [<-|Hne].
  - rewrite lookup_alter_eq, lookup_insert_eq.
    destruct (chunks ca !! MessageID c) as [cs|] eqn:Hl; cbn.
    + by rewrite Hl.
    + by rewrite lookup_insert_eq.
  - rewrite lookup_alter_ne, lookup_insert_ne by done.
    destruct (chunks ca !! MessageID c); [done|]. by rewrite lookup_insert_ne.
Qed.

Lemma AddChunk_invalid ca c :
  ¬ chunk_valid c → ∃ e, AddChunk ca c = (Some e, ca).
Proof.
  intros [e He]%Validate_invalid. exists e. unfold AddChunk. by rewrite He.
Qed.

Lemma AddChunks_cons ca c l :
  AddChunks ca (c :: l) =
    ((AddChunk ca c).1 :: (AddChunks (AddChunk ca c).2 l).1,
     (AddChunks (AddChunk ca c).2 l).2).
Proof. cbn. destruct (AddChunk ca c), (AddChunks _ l). reflexivity. Qed.

(** Adding valid chunks of one message never fails, and leaves, for that
    message, the chunks stored one after the other. *)
Lemma AddChunks_valid messageID l : ∀ ca,
  Forall (λ c, chunk_valid c ∧ MessageID c = messageID) l →
  (AddChunks ca l).1 = replicate (length l) None
  ∧ stored (AddChunks ca l).2 messageID = foldl store (stored ca messageID) l.
Proof.
  unfold stored. induction l as [|c l IH]; intros ca Hl; [done|].
  apply Forall_cons in Hl as [[Hc Hid] Hl]. rewrite AddChunks_cons.
  rewrite (AddChunk_valid _ _ Hc). cbn [fst snd length replicate foldl].
  destruct (IH {| chunks := <[MessageID c := store (default ∅ (chunks ca !! MessageID c)) c]>
                              (chunks ca) |} Hl) as [-> ->].
  split; [done|]. cbn [chunks]. rewrite <- Hid. by rewrite lookup_insert_eq.
Qed.

Lemma foldl_store_other l : ∀ cs s,
  s ∉ Seq <$> l → foldl store cs l !! s = cs !! s.
Proof.
  induction l as [|c l IH]; intros cs s Hs; [done|].
  rewrite fmap_cons, not_elem_of_cons in Hs. destruct Hs as [Hne Hs].
  cbn [foldl]. rewrite IH by done. unfold store. by rewrite lookup_insert_ne.
Qed.

Lemma foldl_store_elem l : ∀ cs c,
  NoDup (Seq <$> l) → c ∈ l → foldl store cs l !! Seq c = Some c.
Proof.
  induction l as [|c' l IH]; intros cs c Hnd Hc; [by apply elem_of_nil in Hc|].
  rewrite fmap_cons, NoDup_cons in Hnd. destruct Hnd as [Hfresh Hnd].
  cbn [foldl]. apply elem_of_cons in Hc as [->|Hc].
  - rewrite foldl_store_other by done. unfold store. by rewrite lookup_insert_eq.
  - by apply IH.
Qed.

Lemma elem_of_below i n : i ∈ below n ↔ 0 ≤ i < n.
Proof. unfold below. rewrite elem_of_list_to_set, elem_of_seqZ. lia. Qed.

Lemma size_below n : size (below n) = Z.to_nat n.
Proof.
  unfold below. rewrite size_list_to_set by apply NoDup_seqZ. apply length_seqZ.
Qed.

Lemma range_first_stored start (cs : gmap Z Chunk) c :
  range_first start cs = Some c → ∃ k, cs !! k = Some c.
Proof.
  unfold range_first. intros Hf. apply fmap_Some in Hf as ([k c'] & Hl & ->).
  exists k. apply elem_of_map_to_list. by eapply list_elem_of_lookup_2.
Qed.

Lemma range_first_nonempty start (cs : gmap Z Chunk) :
  size cs ≠ 0%nat → ∃ c, range_first start cs = Some c.
Proof.
  intros Hz. unfold range_first.
  destruct (lookup_lt_is_Some_2 (map_to_list cs) (start `mod` size cs)%nat) as [[k c] Hl].
  - rewrite length_map_to_list. by apply Nat.mod_upper_bound.
  - exists c. by rewrite Hl.
Qed.

(** Every stored chunk is the first of some iteration. *)
Lemma range_first_any (cs : gmap Z Chunk) k c :
  cs !! k = Some c → ∃ start, range_first start cs = Some c.
Proof.
  intros Hk%elem_of_map_to_list. apply list_elem_of_lookup_1 in Hk as [i Hi].
  exists i. unfold range_first.
  pose proof (lookup_lt_Some _ _ _ Hi) as Hlt. rewrite length_map_to_list in Hlt.
  rewrite Nat.mod_small by done. by rewrite Hi.
Qed.

Lemma all_present_true (cs : gmap Z Chunk) total :
  all_present cs total = true ↔ ∀ i, 0 ≤ i < total → is_Some (cs !! i).
Proof.
  unfold all_present. rewrite forallb_forall. split.
  - intros Hall i Hi. eapply bool_decide_eq_true_1, Hall.
    apply list_elem_of_In, elem_of_seqZ. lia.
  - intros Hall i Hi%list_elem_of_In%elem_of_seqZ.
    apply bool_decide_eq_true_2, Hall. lia.
Qed.

(** What [IsComplete] decides: the total it reads off the first chunk of
    the iteration is positive, and the stored sequence numbers are exactly
    those below it. *)
Lemma IsComplete_true start ca messageID :
  IsComplete start ca messageID = true ↔
  ∃ cs c, chunks ca !! messageID = Some cs ∧ range_first start cs = Some c
          ∧ 0 < Total c ∧ dom cs = below (Total c).
Proof.
  unfold IsComplete. destruct (chunks ca !! messageID) as [cs|];
    [|split; [done|by intros (? & ? & ? & _)]].
  destruct (decide (size cs = 0%nat)) as [Hz|Hz].
  { split; [done|]. intros (? & c & [= <-] & Hf & _).
    apply range_first_stored in Hf as [k Hk].
    apply map_size_empty_iff in Hz. subst cs. by rewrite lookup_empty in Hk. }
  destruct (range_first_nonempty start cs Hz) as [c Hf]. rewrite Hf. cbn [from_option].
  destruct (decide (Z.of_nat (size cs) ≠ Total c)) as [Hne|Heq%dec_stable].
  { split; [done|]. intros (? & c' & [= <-] & Hf' & Hpos & Hdom).
    rewrite Hf in Hf'. injection Hf' as <-. exfalso. apply Hne.
    rewrite <- size_dom, Hdom, size_below. lia. }
  rewrite all_present_true. split.
  - intros Hall. exists cs, c. split_and!; [done|done|lia|].
    symmetry. apply set_subseteq_size_eq.
    + intros i Hi%elem_of_below. by apply elem_of_dom, Hall.
    + rewrite size_dom, size_below. lia.
  - intros (? & c' & [= <-] & Hf' & Hpos & Hdom) i Hi.
    rewrite Hf in Hf'. injection Hf' as <-.
    apply elem_of_dom. rewrite Hdom. by apply elem_of_below.
Qed.

(** *** Reassembling what was split *)

Lemma concat_pieces (c n : nat) (l : bytes) :
  concat ((λ i, take c (drop (i * c) l)) <$> seq 0 n) = take (n * c) l.
Proof.
  induction n as [|n IH]; [done|].
  rewrite seq_S, fmap_app, concat_app, IH. cbn [fmap list_fmap concat].
  rewrite app_nil_r, take_take_drop. f_equal. lia.
Qed.

Lemma append_chunks_ok (cs : gmap Z Chunk) (f : Z → Chunk) idxs : ∀ acc,
  (∀ i, i ∈ idxs → cs !! i = Some (f i)) →
  append_chunks cs idxs acc = Ok (acc ++ concat ((λ i, Data (f i)) <$> idxs)).
Proof.
  induction idxs as [|i idxs IH]; intros acc Hcs; cbn.
  - by rewrite app_nil_r.
  - rewrite (Hcs i) by left. rewrite IH by (intros j Hj; apply Hcs; by right).
    by rewrite <- app_assoc.
Qed.

Section OneMessage.
Context (messageID : string) (data : bytes) (chunkSize : Z).
Context (Hid : messageID ≠ "") (Hdata : data ≠ []) (Hsize : 0 < chunkSize).

Local Abbreviation total := (ceil_div (Int.len data) chunkSize).
Local Abbreviation piece := (spec_chunk messageID data chunkSize total).

Lemma len_data_pos : 0 < Int.len data.
Proof. destruct data; [done|]. unfold Int.len. cbn. lia. Qed.

Lemma total_bounds :
  0 < total ∧ (total - 1) * chunkSize < Int.len data ≤ total * chunkSize.
Proof.
  pose proof (ceil_div_bounds _ _ len_data_pos Hsize). lia.
Qed.

Lemma spec_chunks_Seq :
  Seq <$> spec_chunks messageID data chunkSize = seqZ 0 total.
Proof.
  unfold spec_chunks. rewrite <- list_fmap_compose.
  rewrite <- (list_fmap_id (seqZ 0 total)) at 2. by apply list_fmap_ext.
Qed.

Lemma piece_valid i : 0 ≤ i < total → chunk_valid (piece i).
Proof.
  intros Hi. pose proof total_bounds as Ht.
  unfold chunk_valid, piece, spec_chunk. cbn. split_and!; try done; try lia.
  intros Hnil%(f_equal length). rewrite length_take, length_drop in Hnil.
  unfold Int.len in *. cbn in Hnil. nia.
Qed.

Lemma pieces_concat :
  concat ((λ i, Data (piece i)) <$> seqZ 0 total) = data.
Proof.
  pose proof total_bounds as Ht. unfold seqZ. rewrite <- list_fmap_compose.
  erewrite list_fmap_ext; [rewrite (concat_pieces (Z.to_nat chunkSize))|].
  - apply take_ge. unfold Int.len in *. nia.
  - intros _ i _. cbn. do 2 f_equal. nia.
Qed.

(** The inner map after the chunks were added in any order. *)
Lemma permuted_lookup l i :
  l ≡ₚ spec_chunks messageID data chunkSize →
  foldl store ∅ l !! i = if decide (0 ≤ i < total) then Some (piece i) else None.
Proof.
  intros Hl.
  assert (Seq <$> l ≡ₚ seqZ 0 total) as Hseq by (by rewrite Hl, spec_chunks_Seq).
  case_decide as Hi.
  - apply (foldl_store_elem l ∅ (piece i)).
    + rewrite Hseq. apply NoDup_seqZ.
    + rewrite Hl. unfold spec_chunks. apply list_elem_of_fmap_2.
      apply elem_of_seqZ. lia.
  - rewrite foldl_store_other, lookup_empty; [done|].
    rewrite Hseq, elem_of_seqZ. lia.
Qed.

Lemma permuted_roundtrip l start :
  l ≡ₚ spec_chunks messageID data chunkSize →
  (AddChunks NewChunkAssembler l).1 = replicate (length l) None
  ∧ (Assemble start (AddChunks NewChunkAssembler l).2 messageID).1 = Ok data.
Proof.
  intros Hl. pose proof total_bounds as Ht.
  assert (Forall (λ c, chunk_valid c ∧ MessageID c = messageID) l) as Hvalid.
  { rewrite Hl. unfold spec_chunks. apply Forall_fmap, Forall_forall.
    intros i Hi%elem_of_seqZ. split; [apply piece_valid; lia|done]. }
  destruct (AddChunks_valid messageID l NewChunkAssembler Hvalid) as [Herrs Hst].
  split; [done|]. set (ca := (AddChunks NewChunkAssembler l).2) in *.
  assert (stored NewChunkAssembler messageID = ∅) as Hfresh by done.
  rewrite Hfresh in Hst.
  assert (chunks ca !! messageID = Some (foldl store ∅ l)) as Hcs.
  { unfold stored in Hst. destruct (chunks ca !! messageID) as [cs|]; cbn in Hst.
    - by rewrite Hst.
    - pose proof (permuted_lookup l 0 Hl) as H0.
      rewrite decide_True, <- Hst in H0 by lia. by rewrite lookup_empty in H0. }
  assert (IsComplete start ca messageID = true) as Hcomplete.
  { apply IsComplete_true.
    destruct (range_first_nonempty start (foldl store ∅ l)) as [c Hc].
    { rewrite map_size_empty_iff. intros Hempty.
      pose proof (permuted_lookup l 0 Hl) as H0.
      rewrite decide_True, Hempty in H0 by lia. by rewrite lookup_empty in H0. }
    exists (foldl store ∅ l), c.
    assert (Total c = total) as ->.
    { destruct (range_first_stored _ _ _ Hc) as [k Hk].
      rewrite (permuted_lookup l k Hl) in Hk. case_decide; [|done].
      by injection Hk as <-. }
    split_and!; [done|done|lia|].
    apply set_eq. intros i.
    rewrite elem_of_dom, elem_of_below, (permuted_lookup l i Hl).
    case_decide; [|by rewrite is_Some_alt]. split; eauto. }
  unfold Assemble. rewrite Hcomplete. cbn [negb]. rewrite Hcs.
  change (default ∅ (Some (foldl store ∅ l))) with (foldl store ∅ l).
  rewrite (permuted_lookup l 0 Hl), decide_True by lia.
  change (Total (piece 0)) with total.
  rewrite (append_chunks_ok _ piece).
  - cbn [app fst]. f_equal. apply pieces_concat.
  - intros i Hi%elem_of_seqZ. rewrite (permuted_lookup l i Hl).
    by rewrite decide_True by lia.
Qed.
End OneMessage.
End Assembler.

Section MessageClaims.
Import Crypto MarkerCipher Message Examples.
Local Open Scope Z_scope.

Lemma range_first_empty start : range_first start (∅ : gmap Z Chunk) = None.
Proof. unfold range_first. by rewrite map_to_list_empty. Qed.

Lemma IsComplete_stored start ca messageID :
  IsComplete start ca messageID = true ↔
  ∃ c, range_first start (stored ca messageID) = Some c ∧ 0 < Total c
       ∧ stored_seqs ca messageID = below (Total c).
Proof.
  rewrite IsComplete_true. unfold stored_seqs, stored. split.
  - intros (cs & c & Hcs & Hf & Hpos & Hdom). rewrite Hcs. by exists c.
  - intros (c & Hf & Hpos & Hdom). destruct (chunks ca !! messageID) as [cs|].
    + by exists cs, c.
    + cbn in Hf. by rewrite range_first_empty in Hf.
Qed.

(** What [IsComplete] computes. It reads the total off one stored chunk
    only, the first that the iteration over the map yields: it returns true
    iff that total N is positive and the stored sequence numbers are exactly
    0..N-1. It returns true whichever chunk comes first iff, in addition,
    every stored chunk reports the total N. *)
Theorem IsComplete_characterisation (ca : ChunkAssembler) (messageID : string) :
  (∀ start, IsComplete start ca messageID = true ↔
     ∃ c, range_first start (stored ca messageID) = Some c ∧ 0 < Total c
          ∧ stored_seqs ca messageID = below (Total c))
  ∧ ((∀ start, IsComplete start ca messageID = true) ↔
     ∃ N, 0 < N ∧ stored_seqs ca messageID = below N
          ∧ ∀ seq c, stored ca messageID !! seq = Some c → Total c = N).
Proof.
  split; [intros start; apply IsComplete_stored|]. split.
  - intros Hall.
    destruct (proj1 (IsComplete_stored 0 ca messageID) (Hall 0%nat))
      as (c0 & Hf0 & Hpos0 & Hdom0).
    exists (Total c0). split_and!; [done..|]. intros seq c Hc.
    destruct (range_first_any _ _ _ Hc) as [start Hf].
    destruct (proj1 (IsComplete_stored start ca messageID) (Hall start))
      as (c' & Hf' & Hpos & Hdom).
    rewrite Hf in Hf'. injection Hf' as <-.
    assert (size (below (Total c)) = size (below (Total c0))) as Hsz by congruence.
    rewrite !size_below in Hsz. lia.
  - intros (N & HN & Hdom & Htot) start. apply IsComplete_stored.
    destruct (range_first_nonempty start (stored ca messageID)) as [c Hf].
    { rewrite <- size_dom. unfold stored_seqs in Hdom. rewrite Hdom, size_below. lia. }
    exists c. destruct (range_first_stored _ _ _ Hf) as [k Hk].
    rewrite (Htot k c Hk). done.
Qed.

Lemma IsComplete_characterisation_witness :
  IsComplete 1 mixed_totals "msg1" = true.
Proof.
  apply (proj1 (IsComplete_characterisation mixed_totals "msg1")).
  exists first_of_two. split_and!; [reflexivity|reflexivity|].
  vm_compute. reflexivity.
Defined.

(** The assembler holding chunk 0 of 2 and chunk 1 of 5 is declared
    complete when the iteration starts at chunk 0, although its chunks do
    not report one common total. *)
Lemma IsComplete_mixed_totals_counterexample :
  ¬ (∀ start ca messageID,
       IsComplete start ca messageID = true ↔
       ∃ N, 0 < N ∧ stored_seqs ca messageID = below N
            ∧ ∀ seq c, stored ca messageID !! seq = Some c → Total c = N).
Proof.
  intros Hclaim.
  destruct (proj1 (Hclaim 1%nat mixed_totals "msg1") eq_refl) as (N & _ & _ & Htot).
  pose proof (Htot 0 first_of_two eq_refl) as H0.
  pose proof (Htot 1 second_of_five eq_refl) as H1.
  cbn in H0, H1. lia.
Qed.

(** C2 does not hold of the code. [IsComplete] takes the total "from any
    chunk", the first one that the iteration over the map yields, and never
    compares the totals of the other chunks. On the assembler that holds
    chunk 0 of 2 and chunk 1 of 5 of one message no N is as the claim asks,
    yet [IsComplete] answers true when the iteration yields chunk 0 first;
    it answers false when the iteration yields chunk 1 first, so that on
    one and the same state the answer depends on the order of the map. The
    sibling [Assemble] reads the total off chunk 0 instead: with chunk 0 of
    5 and chunk 1 of 2 stored, the message that [IsComplete] has just
    declared complete makes [Assemble] run into the missing chunk 2 and
    panic. *)
Theorem IsComplete_total_from_any_chunk :
  IsComplete 1 mixed_totals "msg1" = true
  ∧ IsComplete 0 mixed_totals "msg1" = false
  ∧ ¬ (∃ N, 0 < N ∧ stored_seqs mixed_totals "msg1" = below N
            ∧ ∀ seq c, stored mixed_totals "msg1" !! seq = Some c → Total c = N)
  ∧ range_first 1 (stored mixed_totals "msg1") = Some first_of_two
  ∧ range_first 0 (stored mixed_totals "msg1") = Some second_of_five
  ∧ IsComplete 0 crossed_totals "msg1" = true
  ∧ (Assemble 0 crossed_totals "msg1").1
    = Panic "invalid memory address or nil pointer dereference".
Proof.
  split_and!; try reflexivity.
  intros (N & _ & _ & Htot).
  pose proof (Htot 0 first_of_two eq_refl) as H0.
  pose proof (Htot 1 second_of_five eq_refl) as H1.
  cbn in H0, H1. lia.
Qed.

Lemma AddChunk_stored_valid ca c : stored_valid ca → stored_valid (AddChunk ca c).2.
Proof.
  intros Hca. destruct (decide (chunk_valid c)) as [Hc|Hc].
  - rewrite (AddChunk_valid _ _ Hc). cbn [snd]. intros mid cs seq c' Hcs Hc'.
    cbn [chunks] in Hcs. apply lookup_insert_Some in Hcs as [[<- <-]|[Hne Hcs]].
    + unfold store in Hc'. apply lookup_insert_Some in Hc' as [[_ <-]|[_ Hc']]; [done|].
      destruct (chunks ca !! MessageID c) as [cs|] eqn:Hold; cbn in Hc'.
      * by eapply Hca.
      * by rewrite lookup_empty in Hc'.
    + by eapply Hca.
  - destruct (AddChunk_invalid ca c Hc) as [e ->]. done.
Qed.

Lemma Assemble_state start ca messageID :
  (Assemble start ca messageID).2 = ca
  ∨ (Assemble start ca messageID).2 = {| chunks := delete messageID (chunks ca) |}.
Proof.
  unfold Assemble. destruct (negb _); [by left|].
  destruct (_ !! 0); [|by left]. destruct (append_chunks _ _ _); auto.
Qed.

Lemma Assemble_stored_valid start ca messageID :
  stored_valid ca → stored_valid (Assemble start ca messageID).2.
Proof.
  intros Hca. destruct (Assemble_state start ca messageID) as [->| ->]; [done|].
  intros mid cs seq c Hcs Hc. cbn [chunks] in Hcs.
  apply lookup_delete_Some in Hcs as [_ Hcs]. by eapply Hca.
Qed.

(** C10. The validity predicate is what [Validate] checks; a fresh
    assembler stores nothing; [AddChunk] answers an invalid chunk with an
    error and the assembler it was given; and the chunks stored stay valid
    through [AddChunk] and [Assemble]. ([IsComplete] only reads the
    assembler: in the embedding it returns a boolean and no new state.) *)
Theorem stored_chunks_valid :
  stored_valid NewChunkAssembler
  ∧ (∀ c, Validate c = None ↔ chunk_valid c)
  ∧ (∀ ca c, ¬ chunk_valid c → ∃ e, AddChunk ca c = (Some e, ca))
  ∧ (∀ ca c, stored_valid ca → stored_valid (AddChunk ca c).2)
  ∧ (∀ ca start messageID,
       stored_valid ca → stored_valid (Assemble start ca messageID).2).
Proof.
  split_and!.
  - intros mid cs seq c Hcs. cbn [chunks NewChunkAssembler] in Hcs.
    by rewrite lookup_empty in Hcs.
  - apply Validate_valid.
  - apply AddChunk_invalid.
  - apply AddChunk_stored_valid.
  - intros ca start mid. apply Assemble_stored_valid.
Qed.

Lemma stored_chunks_valid_witness : stored_valid mixed_totals.
Proof.
  destruct stored_chunks_valid as (Hnew & _ & _ & Hadd & _).
  apply (Hadd _ second_of_five), (Hadd _ first_of_two), Hnew.
Defined.

(** C5, as the code has it. For a non-empty message ID, non-empty data
    and a positive chunk size for which |data| + chunkSize - 1 is an [int],
    [SplitMessage] succeeds, and adding its chunks to a fresh assembler in
    any order succeeds for every chunk and makes [Assemble] return the
    data. *)
Theorem split_add_assemble_roundtrip (messageID : string) (data : bytes)
    (chunkSize : Z) :
  messageID ≠ "" → data ≠ [] → 0 < chunkSize →
  Int.len data + chunkSize - 1 ≤ Int.max_int →
  ∃ cks, SplitMessage messageID data chunkSize = Ok cks
         ∧ ∀ l start, l ≡ₚ cks →
             (AddChunks NewChunkAssembler l).1 = replicate (length l) None
             ∧ (Assemble start (AddChunks NewChunkAssembler l).2 messageID).1
               = Ok data.
Proof.
  intros Hid Hdata Hsize Hmax. exists (spec_chunks messageID data chunkSize).
  split; [by apply SplitMessage_no_overflow|].
  intros l start Hl. by apply (permuted_roundtrip messageID data chunkSize).
Qed.

Lemma split_add_assemble_roundtrip_witness :
  ∃ cks, SplitMessage "msg1" test_message 10 = Ok cks
         ∧ ∀ l start, l ≡ₚ cks →
             (AddChunks NewChunkAssembler l).1 = replicate (length l) None
             ∧ (Assemble start (AddChunks NewChunkAssembler l).2 "msg1").1
               = Ok test_message.
Proof.
  apply (split_add_assemble_roundtrip "msg1" test_message 10).
  - discriminate.
  - discriminate.
  - lia.
  - vm_compute. discriminate.
Defined.

(** C5 as the specification words it fails for the empty message ID:
    [SplitMessage] does not look at the ID, but [AddChunk] refuses every
    chunk that carries the empty one. *)
Lemma empty_message_id_counterexample :
  ¬ (∀ (messageID : string) (data : bytes) (chunkSize : Z),
       data ≠ [] → 0 < chunkSize →
       ∃ cks, SplitMessage messageID data chunkSize = Ok cks
              ∧ ∀ l start, l ≡ₚ cks →
                  (Assemble start (AddChunks NewChunkAssembler l).2 messageID).1
                  = Ok data).
Proof.
  intros Hclaim.
  destruct (Hclaim "" (text "ab") 1 ltac:(discriminate) ltac:(lia)) as (cks & Hs & Hr).
  vm_compute in Hs. injection Hs as <-.
  specialize (Hr _ 0%nat (reflexivity _)). vm_compute in Hr. discriminate.
Qed.

(** C6 does not hold of the code where [len(data) + chunkSize - 1] leaves
    the range of [int]. With the largest chunk size, four bytes are split
    into no chunk at all (the specification asks for one chunk holding the
    four bytes), and for two bytes the chunk count comes out negative and
    allocating the result panics. *)
Theorem SplitMessage_count_overflow :
  SplitMessage "msg1" (text "abcd") Int.max_int = Ok []
  ∧ ceil_div (Int.len (text "abcd")) Int.max_int = 1
  ∧ SplitMessage "msg1" (text "ab") Int.max_int = Panic "makeslice: cap out of range".
Proof. split_and!; vm_compute; reflexivity. Qed.
End MessageClaims.

(** ** The path builder *)

Section PathBuilder.
Import Routing.
Local Open Scope Z_scope.

Lemma index_nodes_ok (nodes : list string) index :
  0 ≤ index < Int.len nodes →
  ∃ node, index_nodes nodes index = Ok node ∧ nodes !! Z.to_nat index = Some node.
Proof.
  intros Hi. unfold index_nodes. rewrite decide_True by done.
  destruct (lookup_lt_is_Some_2 nodes (Z.to_nat index)) as [node Hn].
  - unfold Int.len in Hi. lia.
  - exists node. by rewrite Hn.
Qed.

Section Loop.
Context (nodes : list string) (pathLength : Z).
Context (Hnodes : 0 < Int.len nodes).

Lemma drawn_index raw : 0 ≤ raw `mod` Int.len nodes < Int.len nodes.
Proof. by apply Z.mod_pos_bound. Qed.

Lemma select_loop_done draws usedIndices selectedNodes :
  ¬ Int.len selectedNodes < pathLength →
  select_loop nodes pathLength draws usedIndices selectedNodes
  = Some (Ok selectedNodes).
Proof. intros Hge. destruct draws; cbn [select_loop]; by rewrite decide_False. Qed.

(** The loop ends with a selection or with the error of a failed draw. *)
Lemma select_loop_outcome draws : ∀ usedIndices selectedNodes o,
  select_loop nodes pathLength draws usedIndices selectedNodes = Some o →
  (∃ selected, o = Ok selected) ∨ (o = Err rand_error ∧ DrawFailed ∈ draws).
Proof.
  induction draws as [|[raw|] draws IH]; intros used sel o; cbn [select_loop];
    (destruct (decide (Int.len sel < pathLength)); [|intros [= <-]; eauto]);
    rewrite decide_False by lia.
  - done.
  - destruct (index_nodes_ok nodes _ (drawn_index raw)) as (node & -> & _).
    destruct (decide _); intros Ho%IH;
      (destruct Ho as [?|[? ?]]; [by left|right; split; [done|by right]]).
  - intros [= <-]. right. split; [done|by left].
Qed.

(** A selection the loop returns has [pathLength] distinct nodes. *)
Lemma select_loop_selected draws : ∀ usedIndices selectedNodes selected,
  NoDup nodes → tracks nodes usedIndices selectedNodes →
  Int.len selectedNodes ≤ pathLength →
  select_loop nodes pathLength draws usedIndices selectedNodes = Some (Ok selected) →
  NoDup selected ∧ (∀ x, x ∈ selected → x ∈ nodes) ∧ Int.len selected = pathLength.
Proof.
  induction draws as [|[raw|] draws IH]; intros used sel res Hnd Htr Hlen;
    cbn [select_loop];
    (destruct (decide (Int.len sel < pathLength));
     [|intros [= <-]; destruct Htr as [Hsel Hidx]; split_and!;
       [done| |lia];
       intros x (i & _ & _ & Hx)%Hidx; by eapply list_elem_of_lookup_2]);
    rewrite decide_False by lia; [done| |done].
  destruct (index_nodes_ok nodes _ (drawn_index raw)) as (node & -> & Hnode).
  pose proof (drawn_index raw) as Hraw.
  destruct (decide _) as [Hused|Hfresh]; [by apply IH|].
  apply IH; [done| |unfold Int.len in *; rewrite length_app; cbn; lia].
  destruct Htr as [Hsel Hidx]. split.
  - apply NoDup_app. split_and!; [done| |apply NoDup_singleton].
    intros x (i & Hi & Hi0 & Hx)%Hidx ->%list_elem_of_singleton.
    apply Hfresh. pose proof (NoDup_lookup _ _ _ _ Hnd Hx Hnode). 
    by replace (raw `mod` Int.len nodes) with i by lia.
  - intros x [(i & Hi & Hi0 & Hx)%Hidx| ->%list_elem_of_singleton]%elem_of_app.
    + exists i. split_and!; [by apply elem_of_union_r|done..].
    + exists (raw `mod` Int.len nodes).
      split_and!; [by apply elem_of_union_l, elem_of_singleton|lia|done].
Qed.

(** Once every index has been drawn the loop has ended. *)
Lemma select_loop_sweep (n : nat) : ∀ k usedIndices selectedNodes,
  pathLength ≤ Int.len nodes →
  0 ≤ k → k + Z.of_nat n = Int.len nodes →
  (∀ i, 0 ≤ i < k → i ∈ usedIndices) →
  Z.of_nat (size usedIndices) = Int.len selectedNodes →
  ∃ selected,
    select_loop nodes pathLength (Drawn <$> seqZ k (Z.of_nat n))
      usedIndices selectedNodes = Some (Ok selected).
Proof.
  induction n as [|n IH]; intros k used sel Hpl Hk Hkn Hcov Hsize.
  - destruct (decide (Int.len sel < pathLength)) as [Hlt|];
      [|eauto using select_loop_done].
    exfalso. assert (Message.below (Int.len nodes) ⊆ used) as below_used.
    { intros i Hi%elem_of_below. apply Hcov. lia. }
    apply subseteq_size in below_used. rewrite size_below in below_used.
    unfold Int.len in *. lia.
  - destruct (decide (Int.len sel < pathLength)) as [Hlt|];
      [|eauto using select_loop_done].
    rewrite seqZ_cons by lia. rewrite fmap_cons. cbn [select_loop].
    rewrite decide_True by done. rewrite decide_False by lia.
    rewrite (Z.mod_small k) by lia.
    replace (Z.pred (Z.of_nat (S n))) with (Z.of_nat n) by lia.
    destruct (decide (k ∈ used)) as [Hused|Hfresh].
    + apply IH; [done|lia|lia| |done].
      intros i Hi. destruct (decide (i = k)) as [->|]; [done|apply Hcov; lia].
    + destruct (index_nodes_ok nodes k ltac:(lia)) as (node & -> & _).
      apply IH; [done|lia|lia| |].
      * intros i Hi. destruct (decide (i = k)) as [->|];
          [by apply elem_of_union_l, elem_of_singleton|].
        apply elem_of_union_r, Hcov. lia.
      * rewrite size_union, size_singleton by (by apply disjoint_singleton_l).
        unfold Int.len in *. rewrite length_app. cbn. lia.
Qed.

Lemma select_loop_ends draws : ∀ usedIndices selectedNodes,
  pathLength ≤ Int.len nodes →
  Forall (λ d, d ≠ DrawFailed) draws →
  Z.of_nat (size usedIndices) = Int.len selectedNodes →
  ∃ selected,
    select_loop nodes pathLength (draws ++ sweep (Int.len nodes))
      usedIndices selectedNodes = Some (Ok selected).
Proof.
  induction draws as [|[raw|] draws IH]; intros used sel Hpl Hok Hsize.
  - unfold sweep, Int.len. apply select_loop_sweep; try done; try lia.
  - apply Forall_cons in Hok as [_ Hok].
    destruct (decide (Int.len sel < pathLength)) as [Hlt|];
      [|eauto using select_loop_done].
    cbn [app select_loop]. rewrite decide_True by done.
    rewrite decide_False by lia.
    destruct (decide _) as [Hused|Hfresh]; [by apply IH|].
    destruct (index_nodes_ok nodes _ (drawn_index raw)) as (node & -> & _).
    apply IH; [done..|].
    rewrite size_union, size_singleton by (by apply disjoint_singleton_l).
    unfold Int.len in *. rewrite length_app. cbn. lia.
  - by apply Forall_cons in Hok as [? _].
Qed.
End Loop.

Section Builder.
Context (pb : PathBuilder) (excludeNodes : list string).
Context (Hdistinct : NoDup (availableNodes pb)).
Context (Hmin : 1 ≤ minPathLength pb).
Context (Hminmax : minPathLength pb ≤ maxPathLength pb).
Context (Hmax : maxPathLength pb ≤ Int.max_int).

Local Abbreviation rest := (remaining (availableNodes pb) excludeNodes).
Local Abbreviation minLen := (minPathLength pb).
Local Abbreviation maxLen := (maxPathLength pb).

Lemma filtered_remaining :
  filter (λ node, node ∉ (list_to_set excludeNodes : gset string)) (availableNodes pb)
  = rest.
Proof. apply list_filter_iff. intros x. by rewrite elem_of_list_to_set. Qed.

Lemma length_range : Int.add (Int.sub maxLen minLen) 1 = maxLen - minLen + 1.
Proof.
  unfold Int.add, Int.sub.
  rewrite (wrap_in_range (maxLen - minLen))
    by (unfold Int.in_range, Int.min_int, Int.max_int in *; lia).
  apply wrap_in_range. unfold Int.in_range, Int.min_int, Int.max_int in *. lia.
Qed.

Lemma path_length offset :
  0 ≤ offset < maxLen - minLen + 1 → Int.add minLen offset = minLen + offset.
Proof.
  intros Ho. apply wrap_in_range.
  unfold Int.in_range, Int.min_int, Int.max_int in *. lia.
Qed.

Local Abbreviation chosen := (chosen_length pb excludeNodes).

Lemma chosen_bounds raw :
  minLen ≤ Int.len rest →
  minLen ≤ chosen raw ≤ Z.min maxLen (Int.len rest).
Proof.
  intros Hlen. unfold chosen_length.
  pose proof (Z.mod_pos_bound raw (maxLen - minLen + 1) ltac:(lia)). lia.
Qed.

(** With enough nodes left, [BuildPathExcluding] is the random draw of a
    length followed by the selection loop over the remaining nodes. *)
Lemma BuildPathExcluding_enough draws :
  minLen ≤ Int.len rest →
  BuildPathExcluding pb excludeNodes draws =
    match draws with
    | [] => None
    | DrawFailed :: _ => Some (Err rand_error)
    | Drawn raw :: draws' =>
        match select_loop rest (chosen raw) draws' ∅ [] with
        | None => None
        | Some (Err e) => Some (Err e)
        | Some (Panic p) => Some (Panic p)
        | Some (Ok selected) => Some (NewPath selected)
        end
    end.
Proof.
  intros Hlen. unfold BuildPathExcluding. rewrite filtered_remaining.
  rewrite decide_False by lia. unfold NewPathBuilder.
  rewrite !decide_False by lia. unfold BuildRandomPath. cbn [availableNodes
    minPathLength maxPathLength]. rewrite decide_False by lia.
  rewrite length_range. unfold randInt. rewrite decide_False by lia.
  destruct draws as [|[raw|] draws]; [done| |done].
  pose proof (Z.mod_pos_bound raw (maxLen - minLen + 1) ltac:(lia)) as Hoff.
  rewrite path_length by done. unfold chosen_length.
  destruct (decide _); [rewrite Z.min_r by lia|rewrite Z.min_l by lia]; done.
Qed.

Lemma BuildPathExcluding_few draws :
  Int.len rest < minLen →
  BuildPathExcluding pb excludeNodes draws
  = Some (Err "not enough nodes after exclusion").
Proof.
  intros Hlen. unfold BuildPathExcluding. rewrite filtered_remaining.
  by rewrite decide_True.
Qed.

Lemma rest_distinct : NoDup rest.
Proof. by apply NoDup_filter. Qed.

Lemma tracks_nothing : tracks rest ∅ [].
Proof.
  split; [apply NoDup_nil_2|]. intros x Hx. by apply elem_of_nil in Hx.
Qed.

Lemma NewPath_selected selected :
  0 < Int.len selected → NewPath selected = Ok {| Nodes := selected |}.
Proof. intros Hs. unfold NewPath. by rewrite decide_False by lia. Qed.

Lemma BuildPathExcluding_outcome draws o :
  minLen ≤ Int.len rest →
  BuildPathExcluding pb excludeNodes draws = Some o →
  (∃ p, o = Ok p ∧ NoDup (Nodes p) ∧ (∀ x, x ∈ Nodes p → x ∈ rest)
        ∧ minLen ≤ Int.len (Nodes p) ≤ Z.min maxLen (Int.len rest))
  ∨ (o = Err rand_error ∧ DrawFailed ∈ draws).
Proof.
  intros Hlen. rewrite BuildPathExcluding_enough by done.
  destruct draws as [|[raw|] draws]; [done| |intros [= <-]; right; split; [done|by left]].
  pose proof (chosen_bounds raw Hlen) as Hch.
  destruct (select_loop _ _ _ _ _) as [o'|] eqn:Hloop; [|done].
  destruct (select_loop_outcome rest (chosen raw) ltac:(lia) _ _ _ _ Hloop)
    as [[selected ->]|[-> Hfail]].
  - apply select_loop_selected in Hloop as (Hnd & Hin & Hl);
      [|lia|apply rest_distinct|apply tracks_nothing|unfold Int.len; cbn; lia].
    rewrite NewPath_selected by lia. intros [= <-]. left.
    eexists. split; [done|]. cbn [Nodes]. split_and!; [done|done|lia|lia].
  - intros [= <-]. right. split; [done|by right].
Qed.

Lemma BuildPathExcluding_ends raw draws :
  minLen ≤ Int.len rest → Forall (λ d, d ≠ DrawFailed) draws →
  ∃ p, BuildPathExcluding pb excludeNodes
         (Drawn raw :: draws ++ sweep (Int.len rest)) = Some (Ok p).
Proof.
  intros Hlen Hok. rewrite BuildPathExcluding_enough by done.
  pose proof (chosen_bounds raw Hlen) as Hch.
  destruct (select_loop_ends rest (chosen raw) ltac:(lia) draws ∅ [])
    as [selected Hloop]; [lia|done|done|].
  rewrite Hloop.
  apply select_loop_selected in Hloop as (Hnd & Hin & Hl);
    [|lia|apply rest_distinct|apply tracks_nothing|unfold Int.len; cbn; lia].
  rewrite NewPath_selected by lia. eauto.
Qed.
End Builder.
End PathBuilder.

Section PathClaims.
Import Routing Examples.
Local Open Scope Z_scope.

(** C7. For a builder over pairwise distinct nodes with bounds
    1 ≤ minHops ≤ maxHops and for every sequence of draws: building a path
    that excludes E fails with "not enough nodes after exclusion" iff fewer
    than minHops nodes remain; a path that is returned has no duplicate,
    consists of remaining nodes only (so contains no element of E), and has
    a length between minHops and min(maxHops, |A \ E|). When enough nodes
    remain, the only other way to end is the error of a failed draw, and
    the builder does return a path once the draws have visited every
    index. *)
Theorem BuildPathExcluding_spec (pb : PathBuilder) (excludeNodes : list string) :
  NoDup (availableNodes pb) →
  1 ≤ minPathLength pb → minPathLength pb ≤ maxPathLength pb →
  maxPathLength pb ≤ Int.max_int →
  (∀ draws,
     BuildPathExcluding pb excludeNodes draws
       = Some (Err "not enough nodes after exclusion")
     ↔ Int.len (remaining (availableNodes pb) excludeNodes) < minPathLength pb)
  ∧ (∀ draws p,
       BuildPathExcluding pb excludeNodes draws = Some (Ok p) →
       NoDup (Nodes p)
       ∧ (∀ x, x ∈ Nodes p → x ∈ availableNodes pb ∧ x ∉ excludeNodes)
       ∧ minPathLength pb ≤ Int.len (Nodes p)
         ≤ Z.min (maxPathLength pb)
                 (Int.len (remaining (availableNodes pb) excludeNodes)))
  ∧ (minPathLength pb ≤ Int.len (remaining (availableNodes pb) excludeNodes) →
     (∀ draws o,
        BuildPathExcluding pb excludeNodes draws = Some o →
        (∃ p, o = Ok p) ∨ (o = Err rand_error ∧ DrawFailed ∈ draws))
     ∧ (∀ raw draws,
          Forall (λ d, d ≠ DrawFailed) draws →
          ∃ p, BuildPathExcluding pb excludeNodes
                 (Drawn raw :: draws
                    ++ sweep (Int.len (remaining (availableNodes pb) excludeNodes)))
               = Some (Ok p))).
Proof.
  intros Hnd Hmin Hminmax Hmax.
  pose proof (BuildPathExcluding_outcome pb excludeNodes Hnd Hmin Hminmax Hmax) as Hout.
  destruct (decide (Int.len (remaining (availableNodes pb) excludeNodes)
                    < minPathLength pb)) as [Hfew|Henough].
  - split_and!.
    + intros draws. by rewrite BuildPathExcluding_few.
    + intros draws p. by rewrite BuildPathExcluding_few.
    + lia.
  - split_and!.
    + intros draws. split; [|done]. intros Hb. exfalso.
      destruct (Hout draws _ ltac:(lia) Hb) as [(p & ? & _)|[? _]]; done.
    + intros draws p Hb.
      destruct (Hout draws _ ltac:(lia) Hb) as [(p' & [= <-] & Hp1 & Hp2 & Hp3)|[? _]];
        [|done].
      split_and!; [done| |lia..].
      intros x [Hx1 Hx2]%Hp2%list_elem_of_filter. done.
    + intros _. split.
      * intros draws o Hb.
        destruct (Hout draws _ ltac:(lia) Hb) as [(p & -> & _)|?]; eauto.
      * intros raw draws Hok. apply BuildPathExcluding_ends; (done || lia).
Qed.

Lemma BuildPathExcluding_spec_witness :
  ∃ p, BuildPathExcluding ten_nodes excluded
         (Drawn 5 :: [Drawn 9; Drawn 2; Drawn 9] ++ sweep 7) = Some (Ok p).
Proof.
  refine (proj2 (proj2 (proj2 (BuildPathExcluding_spec ten_nodes excluded _ _ _ _)) _)
            5 [Drawn 9; Drawn 2; Drawn 9] _).
  - apply (bool_decide_unpack _). vm_compute. exact I.
  - cbn. lia.
  - cbn. lia.
  - vm_compute. discriminate.
  - vm_compute. discriminate.
  - repeat constructor; discriminate.
Defined.
End PathClaims.

(** ** The relay step *)

Section Relay.
Import Network Examples.
Local Open Scope Z_scope.

Lemma set_NextHop_frame msg hop :
  MessageID (set_NextHop msg hop) = MessageID msg
  ∧ FinalDest (set_NextHop msg hop) = FinalDest msg
  ∧ HopsLeft (set_NextHop msg hop) = HopsLeft msg
  ∧ Payload (set_NextHop msg hop) = Payload msg
  ∧ Path (set_NextHop msg hop) = Path msg
  ∧ Timestamp (set_NextHop msg hop) = Timestamp msg.
Proof. done. Qed.

(** The message object after a relay step: one hop less, and possibly a
    new next hop. *)
Lemma relay_step msg currentNodeID :
  FinalDest msg ≠ currentNodeID → ¬ HopsLeft msg ≤ 0 →
  ∃ hop,
    ProcessRelayMessage msg currentNodeID =
      (set_NextHop (set_HopsLeft msg (Int.sub (HopsLeft msg) 1)) hop,
       {| relayed := Some (set_NextHop (set_HopsLeft msg (Int.sub (HopsLeft msg) 1)) hop);
          final := false; err := None |}).
Proof.
  intros Hdest Hhops. unfold ProcessRelayMessage.
  rewrite decide_False by done. rewrite decide_False by done.
  destruct (decide _); [destruct (find_next_hop _ _ _ _) as [hop|]|].
  - by exists hop.
  - exists (NextHop msg). by destruct msg.
  - exists (NextHop msg). by destruct msg.
Qed.

(** C8, as the code has it. The final-destination test comes first: a
    message that has reached its final destination is delivered whatever
    its hop count, and its counter is not touched. Elsewhere a message with
    hop count ≤ 0 is dropped with "message exceeded hop limit" (nothing is
    returned and the message is left as it was), and a message with a
    positive hop count is relayed with the counter decremented by exactly
    one. *)
Theorem ProcessRelayMessage_hops (msg : RelayMessage) (currentNodeID : string) :
  Int.in_range (HopsLeft msg) →
  (FinalDest msg = currentNodeID →
     ProcessRelayMessage msg currentNodeID
     = (msg, {| relayed := Some msg; final := true; err := None |}))
  ∧ (FinalDest msg ≠ currentNodeID → HopsLeft msg ≤ 0 →
       ProcessRelayMessage msg currentNodeID
       = (msg, {| relayed := None; final := false;
                  err := Some "message exceeded hop limit" |}))
  ∧ (FinalDest msg ≠ currentNodeID → 0 < HopsLeft msg →
       ∃ msg',
         ProcessRelayMessage msg currentNodeID
         = (msg', {| relayed := Some msg'; final := false; err := None |})
         ∧ HopsLeft msg' = HopsLeft msg - 1).
Proof.
  intros Hrange. split_and!.
  - intros Hdest. unfold ProcessRelayMessage. by rewrite decide_True.
  - intros Hdest Hhops. unfold ProcessRelayMessage.
    rewrite decide_False by done. by rewrite decide_True.
  - intros Hdest Hhops.
    destruct (relay_step msg currentNodeID Hdest ltac:(lia)) as [hop ->].
    eexists. split; [done|]. cbn. unfold Int.sub. apply wrap_in_range.
    unfold Int.in_range, Int.min_int, Int.max_int in *. lia.
Qed.

Lemma ProcessRelayMessage_hops_witness :
  ∃ msg',
    ProcessRelayMessage (relay_message 3) "r1"
    = (msg', {| relayed := Some msg'; final := false; err := None |})
    ∧ HopsLeft msg' = 3 - 1.
Proof.
  refine (proj2 (proj2 (ProcessRelayMessage_hops (relay_message 3) "r1" _)) _ _).
  - vm_compute. split; discriminate.
  - discriminate.
  - cbn. lia.
Defined.

(** C8 as the specification words it fails: at its final destination a
    message with no hop left is delivered, not dropped. *)
Lemma delivered_without_hops_counterexample :
  ¬ (∀ (msg : RelayMessage) (currentNodeID : string),
       HopsLeft msg ≤ 0 →
       relayed (ProcessRelayMessage msg currentNodeID).2 = None
       ∧ err (ProcessRelayMessage msg currentNodeID).2
         = Some "message exceeded hop limit").
Proof.
  intros Hclaim.
  destruct (Hclaim (relay_message 0) "dest" ltac:(cbn; lia)) as [Hdrop _].
  vm_compute in Hdrop. discriminate.
Qed.

(** C9. [ProcessRelayMessage] leaves the message ID, the final
    destination, the payload, the path and the timestamp of the message as
    they were; the message it returns is the message object itself; and at
    the final destination the message comes back unmodified. *)
Theorem ProcessRelayMessage_frame (msg : RelayMessage) (currentNodeID : string) :
  MessageID (ProcessRelayMessage msg currentNodeID).1 = MessageID msg
  ∧ FinalDest (ProcessRelayMessage msg currentNodeID).1 = FinalDest msg
  ∧ Payload (ProcessRelayMessage msg currentNodeID).1 = Payload msg
  ∧ Path (ProcessRelayMessage msg currentNodeID).1 = Path msg
  ∧ Timestamp (ProcessRelayMessage msg currentNodeID).1 = Timestamp msg
  ∧ (∀ m, relayed (ProcessRelayMessage msg currentNodeID).2 = Some m →
          m = (ProcessRelayMessage msg currentNodeID).1)
  ∧ (FinalDest msg = currentNodeID →
       ProcessRelayMessage msg currentNodeID
       = (msg, {| relayed := Some msg; final := true; err := None |})).
Proof.
  destruct (decide (FinalDest msg = currentNodeID)) as [Hdest|Hdest];
    [|destruct (decide (HopsLeft msg ≤ 0)) as [Hhops|Hhops]].
  - unfold ProcessRelayMessage. rewrite decide_True by done. cbn.
    split_and!; try done. by intros m [= <-].
  - unfold ProcessRelayMessage. rewrite decide_False, decide_True by done. cbn.
    split_and!; done.
  - destruct (relay_step msg currentNodeID Hdest Hhops) as [hop ->]. cbn.
    split_and!; try done. by intros m [= <-].
Qed.

Lemma ProcessRelayMessage_frame_witness :
  ProcessRelayMessage (relay_message 0) "dest"
  = (relay_message 0,
     {| relayed := Some (relay_message 0); final := true; err := None |}).
Proof.
  apply (ProcessRelayMessage_frame (relay_message 0) "dest"). reflexivity.
Defined.
End Relay.

(** * Further properties of the code *)

(** ** What [make] accepts *)

Section RuntimeFacts.
Import Runtime.
Local Open Scope Z_scope.
Context {L : Limits}.

Lemma makeslice_cap size cap :
  makeslice size 0 cap =
    if decide (0 ≤ cap ∧ size * cap ≤ maxAlloc) then Ok ()
    else Panic "makeslice: cap out of range".
Proof.
  pose proof limits_sane as Hsane. unfold makeslice.
  repeat case_decide; try done; lia.
Qed.

Lemma makechan_spec elem size :
  makechan elem size =
    if decide (0 ≤ size ∧ elem * size ≤ maxAlloc - hchanSize) then Ok ()
    else Panic "makechan: size out of range".
Proof. unfold makechan. repeat case_decide; try done; lia. Qed.
End RuntimeFacts.

(** ** Paths *)

Section PathOps.
Import Routing.
Local Open Scope Z_scope.

Lemma validate_loop_None nodes : ∀ seen,
  validate_loop nodes seen = None ↔
  ("" ∉ nodes) ∧ NoDup nodes ∧ ∀ x, x ∈ nodes → x ∉ seen.
Proof.
  induction nodes as [|node nodes IH]; intros seen; cbn [validate_loop].
  - split; [intros _|done]. split_and!; [apply not_elem_of_nil|apply NoDup_nil_2|].
    intros x Hx. by apply elem_of_nil in Hx.
  - destruct (decide (node = "")) as [->|Hne].
    { split; [done|]. intros (Hempty & _). exfalso. apply Hempty. by left. }
    destruct (decide (node ∈ seen)) as [Hseen|Hfresh].
    { split; [done|]. intros (_ & _ & Hs). exfalso. by apply (Hs node); [left|]. }
    rewrite IH, NoDup_cons, not_elem_of_cons. split.
    + intros (Hempty & Hnd & Hs). split_and!; try done.
      * intros Hin. apply (Hs node Hin). by apply elem_of_union_l, elem_of_singleton.
      * intros x [->|Hx]%elem_of_cons; [done|].
        intros Hxs. apply (Hs x Hx). by apply elem_of_union_r.
    + intros ([_ Hempty] & [Hnode Hnd] & Hs). split_and!; try done.
      intros x Hx [->%elem_of_singleton|Hxs]%elem_of_union; [done|].
      apply (Hs x); [by right|done].
Qed.

Lemma validate_loop_errors nodes : ∀ seen e,
  validate_loop nodes seen = Some e →
  e = "path contains empty node ID" ∨ e = "path contains duplicate nodes".
Proof.
  induction nodes as [|node nodes IH]; intros seen e; cbn [validate_loop]; [done|].
  repeat case_decide; [intros [= <-]; auto..|apply IH].
Qed.

Lemma Validate_None (p : Path) :
  Validate p = None ↔ Nodes p ≠ [] ∧ ("" ∉ Nodes p) ∧ NoDup (Nodes p).
Proof.
  unfold Validate. destruct (decide (Int.len (Nodes p) = 0)) as [Hz|Hz].
  - apply len_zero in Hz. split; [done|]. by intros [? _].
  - rewrite validate_loop_None. rewrite len_zero in Hz. split.
    + intros (? & ? & _). done.
    + intros (_ & ? & ?). split_and!; try done; intros x _; apply not_elem_of_empty.
Qed.

(** X1. [Path.Validate] accepts a path exactly when it has at least one
    node, no empty node ID and no node twice; the empty path is answered
    with "path is empty", and every rejection is one of the three errors. *)
Theorem Path_Validate_accepts (p : Path) :
  (Validate p = None ↔ Nodes p ≠ [] ∧ ("" ∉ Nodes p) ∧ NoDup (Nodes p))
  ∧ (Nodes p = [] → Validate p = Some "path is empty")
  ∧ (∀ e, Validate p = Some e →
       e = "path is empty" ∨ e = "path contains empty node ID"
       ∨ e = "path contains duplicate nodes").
Proof.
  split_and!; [apply Validate_None|unfold Validate..].
  - intros ->. done.
  - intros e. destruct (decide _); [intros [= <-]; auto|].
    intros He%validate_loop_errors. tauto.
Qed.

Lemma contains_loop_elem nodes nodeID :
  contains_loop nodes nodeID = true ↔ nodeID ∈ nodes.
Proof.
  induction nodes as [|node nodes IH]; cbn [contains_loop].
  - split; [done|]. by intros ?%elem_of_nil.
  - rewrite elem_of_cons. destruct (decide (node = nodeID)) as [->|Hne].
    + split; auto.
    + rewrite IH. split; [auto|]. by intros [?|?].
Qed.

(** X2. [GetNode] answers exactly the indices 0 ≤ index < Length with the
    node at that index and every other index with "index out of bounds";
    [Contains] is membership in the node list, so a node that [GetNode]
    returns is contained, and a contained node is at some index. *)
Theorem GetNode_Contains (p : Path) :
  (∀ index, 0 ≤ index < Length p →
     ∃ node, GetNode p index = Ok node ∧ Nodes p !! Z.to_nat index = Some node
             ∧ Contains p node = true)
  ∧ (∀ index, ¬ (0 ≤ index < Length p) → GetNode p index = Err "index out of bounds")
  ∧ (∀ nodeID, Contains p nodeID = true ↔ nodeID ∈ Nodes p)
  ∧ (∀ nodeID, Contains p nodeID = true →
       ∃ index, 0 ≤ index < Length p ∧ GetNode p index = Ok nodeID).
Proof.
  unfold Length, Contains, GetNode. split_and!.
  - intros index Hi. rewrite decide_False by lia.
    destruct (index_nodes_ok (Nodes p) index Hi) as (node & -> & Hn).
    exists node. split_and!; [done..|].
    apply contains_loop_elem. by eapply list_elem_of_lookup_2.
  - intros index Hi. rewrite decide_True by lia. done.
  - intros nodeID. apply contains_loop_elem.
  - intros nodeID [i Hi]%contains_loop_elem%list_elem_of_lookup_1.
    pose proof (lookup_lt_Some _ _ _ Hi) as Hlt.
    exists (Z.of_nat i). unfold Int.len. split; [lia|].
    rewrite decide_False by lia. unfold index_nodes, Int.len.
    rewrite decide_True by lia. by rewrite Nat2Z.id, Hi.
Qed.

Lemma reverse_loop_spec (nodes : list string) : ∀ done rest,
  nodes = done ++ rest → Int.len nodes ≤ Int.max_int →
  reverse_loop (Int.len nodes) (Int.len done) rest
    (replicate (length rest) "" ++ reverse done)
  = reverse nodes.
Proof.
  intros done rest. revert done.
  induction rest as [|node rest IH]; intros done Hnodes Hmax.
  - cbn. by rewrite Hnodes, app_nil_r.
  - cbn [reverse_loop]. unfold Int.add, Int.sub.
    assert (Int.len nodes = Int.len done + 1 + Int.len rest) as Hlen.
    { rewrite Hnodes. unfold Int.len. rewrite length_app. cbn [length]. lia. }
    pose proof (len_nonneg done). pose proof (len_nonneg rest).
    rewrite (wrap_in_range (Int.len nodes - 1))
      by (unfold Int.in_range, Int.min_int, Int.max_int in *; lia).
    rewrite (wrap_in_range (Int.len nodes - 1 - Int.len done))
      by (unfold Int.in_range, Int.min_int, Int.max_int in *; lia).
    rewrite (wrap_in_range (Int.len done + 1))
      by (unfold Int.in_range, Int.min_int, Int.max_int in *; lia).
    replace (Z.to_nat (Int.len nodes - 1 - Int.len done)) with (length rest)
      by (unfold Int.len in *; lia).
    change (length (node :: rest)) with (S (length rest)).
    rewrite replicate_S_end, <- app_assoc.
    rewrite insert_app_r_alt by (rewrite length_replicate; lia).
    rewrite length_replicate, Nat.sub_diag. cbn [app insert list_insert].
    specialize (IH (done ++ [node])).
    replace (Int.len done + 1) with (Int.len (done ++ [node]))
      by (unfold Int.len; rewrite length_app; cbn; lia).
    rewrite reverse_app in IH. cbn in IH. apply IH; [|done].
    by rewrite <- app_assoc.
Qed.

Lemma Reverse_nodes (p : Path) :
  Int.len (Nodes p) ≤ Int.max_int → Nodes (Reverse p) = reverse (Nodes p).
Proof.
  intros Hmax. unfold Reverse. cbn [Nodes].
  pose proof (reverse_loop_spec (Nodes p) [] (Nodes p) eq_refl Hmax) as H.
  cbn [reverse app] in H. by rewrite app_nil_r in H.
Qed.

(** X3. [Reverse] returns the nodes in the opposite order: reversing twice
    gives the path back, and the length, the nodes contained and the verdict
    of [Validate] (accepted or not) are those of the original path. *)
Theorem Reverse_spec (p : Path) :
  Int.len (Nodes p) ≤ Int.max_int →
  Nodes (Reverse p) = reverse (Nodes p)
  ∧ Reverse (Reverse p) = p
  ∧ Length (Reverse p) = Length p
  ∧ (∀ nodeID, Contains (Reverse p) nodeID = Contains p nodeID)
  ∧ (Validate (Reverse p) = None ↔ Validate p = None).
Proof.
  intros Hmax. pose proof (Reverse_nodes p Hmax) as Hrev.
  assert (Int.len (Nodes (Reverse p)) = Int.len (Nodes p)) as Hlen
    by (unfold Int.len; by rewrite Hrev, length_reverse).
  split_and!.
  - done.
  - destruct (Reverse (Reverse p)) as [nodes] eqn:Hrr.
    assert (nodes = Nodes (Reverse (Reverse p))) as -> by (by rewrite Hrr).
    rewrite Reverse_nodes by lia. rewrite Hrev, reverse_involutive. by destruct p.
  - done.
  - intros nodeID. apply eq_true_iff_eq. unfold Contains.
    rewrite !contains_loop_elem, Hrev. apply elem_of_reverse.
  - rewrite !Validate_None, Hrev.
    rewrite elem_of_reverse.
    assert (NoDup (reverse (Nodes p)) ↔ NoDup (Nodes p)) as ->
      by (by rewrite reverse_Permutation).
    assert (reverse (Nodes p) ≠ [] ↔ Nodes p ≠ []) as ->; [|done].
    split; intros H Hnil; apply H.
    + by rewrite Hnil.
    + by rewrite <- (reverse_involutive (Nodes p)), Hnil.
Qed.

Lemma Reverse_spec_witness :
  Reverse (Reverse {| Nodes := ["r1"; "r2"; "r3"] |}) = {| Nodes := ["r1"; "r2"; "r3"] |}.
Proof.
  refine (proj1 (proj2 (Reverse_spec {| Nodes := ["r1"; "r2"; "r3"] |} _))).
  vm_compute. discriminate.
Defined.
End PathOps.

(** ** Building paths without exclusion, and several at once *)

Section MorePaths.
Import Routing.
Local Open Scope Z_scope.

Lemma remaining_nil nodes : remaining nodes [] = nodes.
Proof.
  unfold remaining. induction nodes as [|node nodes IH]; [done|].
  rewrite filter_cons_True by apply not_elem_of_nil. by rewrite IH.
Qed.

(** Excluding nothing is [BuildRandomPath]. *)
Lemma BuildPathExcluding_nil pb draws :
  well_formed pb → BuildPathExcluding pb [] draws = BuildRandomPath pb draws.
Proof.
  intros (Hmin & Hminmax & Hmax & Hlen). unfold BuildPathExcluding.
  rewrite (filtered_remaining pb []), remaining_nil.
  rewrite decide_False by lia. unfold NewPathBuilder.
  rewrite !decide_False by lia. by destruct pb.
Qed.

Lemma BuildRandomPath_outcome pb draws o :
  NoDup (availableNodes pb) → well_formed pb →
  BuildRandomPath pb draws = Some o →
  (∃ p, o = Ok p ∧ path_of pb p) ∨ (o = Err rand_error ∧ DrawFailed ∈ draws).
Proof.
  intros Hnd Hwf. pose proof Hwf as (Hmin & Hminmax & Hmax & Hlen).
  rewrite <- BuildPathExcluding_nil by done. intros Hb.
  apply BuildPathExcluding_outcome in Hb; [|done..|by rewrite remaining_nil].
  rewrite remaining_nil in Hb. destruct Hb as [(p & -> & Hp1 & Hp2 & Hp3)|?]; [|by right].
  left. exists p. split; [done|]. split_and!; [done|done|lia..].
Qed.

Lemma path_of_Validate pb p :
  ("" ∉ availableNodes pb) → 1 ≤ minPathLength pb → path_of pb p → Validate p = None.
Proof.
  intros Hempty Hmin (Hnd & Hin & Hlen). apply Validate_None. split_and!; [|auto|done].
  intros Hnil. rewrite Hnil in Hlen. unfold Int.len in Hlen. cbn in Hlen. lia.
Qed.

(** X4. On a builder that [NewPathBuilder] accepts, building a path that
    excludes no node is the same as [BuildRandomPath], whatever the draws;
    and [NewPathBuilder] accepts exactly the arguments with
    1 ≤ minLength ≤ maxLength and at least minLength nodes. *)
Theorem BuildPathExcluding_nothing (nodes : list string) (minLength maxLength : Z) :
  maxLength ≤ Int.max_int →
  (∀ pb, NewPathBuilder nodes minLength maxLength = Ok pb →
     well_formed pb ∧ availableNodes pb = nodes
     ∧ ∀ draws, BuildPathExcluding pb [] draws = BuildRandomPath pb draws)
  ∧ ((∃ pb, NewPathBuilder nodes minLength maxLength = Ok pb)
     ↔ 1 ≤ minLength ∧ minLength ≤ maxLength ∧ minLength ≤ Int.len nodes).
Proof.
  intros Hmax. unfold NewPathBuilder. split.
  - intros pb. repeat case_decide; try done. intros [= <-].
    assert (well_formed {| availableNodes := nodes; minPathLength := minLength;
                           maxPathLength := maxLength |}) as Hwf
      by (unfold well_formed; cbn; lia).
    split_and!; [done|done|]. intros draws. by apply BuildPathExcluding_nil.
  - repeat case_decide; split; try (intros [? ?]; done); try lia; eauto.
Qed.

Lemma BuildPathExcluding_nothing_witness :
  ∃ pb, NewPathBuilder ["n0"; "n1"; "n2"; "n3"] 2 4 = Ok pb.
Proof.
  refine (proj2 (proj2 (BuildPathExcluding_nothing ["n0"; "n1"; "n2"; "n3"] 2 4 _)) _).
  - vm_compute. discriminate.
  - unfold Int.len. cbn. lia.
Defined.

(** X5. On a well-formed builder over pairwise distinct, non-empty node
    IDs, every path that [BuildRandomPath] returns passes [Path.Validate],
    consists of available nodes and has a length between the minimum and
    min(maximum, number of nodes); the only error is that of a failed draw;
    and a path is returned once the draws have visited every index. *)
Theorem BuildRandomPath_valid (pb : PathBuilder) :
  NoDup (availableNodes pb) → ("" ∉ availableNodes pb) → well_formed pb →
  (∀ draws p, BuildRandomPath pb draws = Some (Ok p) →
     path_of pb p ∧ Validate p = None)
  ∧ (∀ draws o, BuildRandomPath pb draws = Some o →
       (∃ p, o = Ok p) ∨ (o = Err rand_error ∧ DrawFailed ∈ draws))
  ∧ (∀ raw draws, Forall (λ d, d ≠ DrawFailed) draws →
       ∃ p, BuildRandomPath pb
              (Drawn raw :: draws ++ sweep (Int.len (availableNodes pb)))
            = Some (Ok p)).
Proof.
  intros Hnd Hempty Hwf. pose proof Hwf as (Hmin & Hminmax & Hmax & Hlen). split_and!.
  - intros draws p Hb.
    destruct (BuildRandomPath_outcome pb draws _ Hnd Hwf Hb) as [(p' & [= <-] & Hp)|[? _]];
      [|done].
    split; [done|]. by eapply path_of_Validate.
  - intros draws o Hb.
    destruct (BuildRandomPath_outcome pb draws _ Hnd Hwf Hb) as [(p & -> & _)|?]; eauto.
  - intros raw draws Hok. rewrite <- BuildPathExcluding_nil by done.
    pose proof (BuildPathExcluding_ends pb [] Hnd Hmin Hminmax Hmax raw draws) as Hends.
    rewrite remaining_nil in Hends. by apply Hends.
Qed.

Lemma BuildRandomPath_valid_witness :
  ∃ p, BuildRandomPath Examples.ten_nodes
         (Drawn 1 :: [Drawn 4; Drawn 4] ++ sweep 10) = Some (Ok p).
Proof.
  refine (proj2 (proj2 (BuildRandomPath_valid Examples.ten_nodes _ _ _))
            1 [Drawn 4; Drawn 4] _).
  - apply (bool_decide_unpack _). vm_compute. exact I.
  - apply (bool_decide_unpack _). vm_compute. exact I.
  - unfold well_formed, Int.len, Int.max_int. cbn. lia.
  - repeat constructor; discriminate.
Defined.

Lemma select_run_loop nodes pathLength draws : ∀ used sel,
  select_loop nodes pathLength draws used sel
  = forget_rest (select_run nodes pathLength draws used sel).
Proof.
  induction draws as [|[raw|] draws IH]; intros used sel;
    cbn [select_loop select_run]; repeat case_decide; try done.
  destruct (index_nodes _ _); [apply IH|done..].
Qed.

(** Draws appended to those a run was given are handed back untouched. *)
Lemma select_run_app nodes pathLength tail draws : ∀ used sel selected rest,
  select_run nodes pathLength draws used sel = Some (Ok (selected, rest)) →
  select_run nodes pathLength (draws ++ tail) used sel
  = Some (Ok (selected, rest ++ tail)).
Proof.
  induction draws as [|[raw|] draws IH]; intros used sel selected rest.
  - cbn [select_run app]. repeat case_decide; try done. intros [= <- <-].
    destruct tail; cbn [select_run]; by rewrite decide_False.
  - cbn [select_run app]. repeat case_decide; try done; [apply IH| |].
    + destruct (index_nodes _ _); [apply IH|done..].
    + by intros [= <- <-].
  - cbn [select_run app]. repeat case_decide; try done. by intros [= <- <-].
Qed.

Lemma select_run_rest (P : draw → Prop) nodes pathLength draws :
  ∀ used sel selected rest,
  Forall P draws →
  select_run nodes pathLength draws used sel = Some (Ok (selected, rest)) →
  Forall P rest.
Proof.
  induction draws as [|[raw|] draws IH]; intros used sel selected rest HP;
    cbn [select_run]; repeat case_decide; try done;
    try (intros [= <- <-]; done); apply Forall_cons in HP as [_ HP].
  - by apply IH.
  - destruct (index_nodes _ _); [by apply IH|done..].
Qed.

Lemma BuildRandomPath_run_loop pb draws :
  BuildRandomPath pb draws = forget_rest (BuildRandomPath_run pb draws).
Proof.
  unfold BuildRandomPath, BuildRandomPath_run. case_decide; [done|].
  destruct (randInt _ _) as [[[offset draws']| |]|]; try done.
  rewrite select_run_loop.
  destruct (select_run _ _ _ _ _) as [[[selected rest]| |]|]; try done.
  cbn [forget_rest]. by destruct (NewPath selected).
Qed.

Lemma BuildRandomPath_run_app pb draws tail p rest :
  BuildRandomPath_run pb draws = Some (Ok (p, rest)) →
  BuildRandomPath_run pb (draws ++ tail) = Some (Ok (p, rest ++ tail)).
Proof.
  unfold BuildRandomPath_run, randInt. repeat case_decide; try done.
  destruct draws as [|[raw|] draws]; try done. cbn [app].
  destruct (select_run _ _ draws _ _) as [[[selected rest']| |]|] eqn:Hrun; try done.
  rewrite (select_run_app _ _ tail _ _ _ _ _ Hrun).
  destruct (NewPath selected); try done. by intros [= <- <-].
Qed.

Lemma BuildRandomPath_run_rest (P : draw → Prop) pb draws p rest :
  Forall P draws → BuildRandomPath_run pb draws = Some (Ok (p, rest)) → Forall P rest.
Proof.
  intros HP. unfold BuildRandomPath_run, randInt. repeat case_decide; try done.
  destruct draws as [|[raw|] draws]; try done. apply Forall_cons in HP as [_ HP].
  destruct (select_run _ _ draws _ _) as [[[selected rest']| |]|] eqn:Hrun; try done.
  destruct (NewPath selected); try done. intros [= <- <-].
  by eapply select_run_rest.
Qed.

Section Several.
Context (pb : PathBuilder).
Context (Hdistinct : NoDup (availableNodes pb)) (Hwf : well_formed pb).

Lemma BuildRandomPath_run_outcome draws o :
  BuildRandomPath_run pb draws = Some o →
  (∃ p rest, o = Ok (p, rest) ∧ path_of pb p) ∨ o = Err rand_error.
Proof.
  intros Hrun. pose proof (BuildRandomPath_run_loop pb draws) as Hloop.
  rewrite Hrun in Hloop. destruct o as [[p rest]|e|msg]; cbn in Hloop.
  - destruct (BuildRandomPath_outcome pb draws _ Hdistinct Hwf Hloop)
      as [(p' & [= <-] & Hp)|[? _]]; [|done]. left. eauto.
  - destruct (BuildRandomPath_outcome pb draws _ Hdistinct Hwf Hloop)
      as [(p' & ? & _)|[[= ->] _]]; [done|by right].
  - by destruct (BuildRandomPath_outcome pb draws _ Hdistinct Hwf Hloop)
      as [(p' & ? & _)|[? _]].
Qed.

Lemma multiple_loop_outcome n : ∀ draws paths o,
  Forall (path_of pb) paths →
  multiple_loop pb n draws paths = Some o →
  (∃ res, o = Ok res ∧ length res = (length paths + n)%nat ∧ Forall (path_of pb) res)
  ∨ o = Err rand_error.
Proof.
  induction n as [|n IH]; intros draws paths o Hpaths; cbn [multiple_loop].
  - intros [= <-]. left. exists paths. split_and!; [done|lia|done].
  - destruct (BuildRandomPath_run pb draws) as [o'|] eqn:Hrun; [|done].
    destruct (BuildRandomPath_run_outcome draws o' Hrun) as [(p & rest & -> & Hp)| ->].
    + intros Hloop. apply IH in Hloop as [(res & -> & Hlen & Hres)| ->].
      * left. exists res. split_and!; [done| |done].
        rewrite Hlen, length_app. cbn. lia.
      * by right.
      * apply Forall_app. split; [done|]. by apply Forall_singleton.
    + intros [= <-]. by right.
Qed.

Lemma BuildRandomPath_run_ends junk :
  Forall (λ d, d ≠ DrawFailed) junk →
  ∃ p rest,
    BuildRandomPath_run pb (junk ++ Drawn 0 :: sweep (Int.len (availableNodes pb)))
    = Some (Ok (p, rest))
    ∧ Forall (λ d, d ≠ DrawFailed) rest.
Proof.
  intros Hjunk. pose proof Hwf as (Hmin & Hminmax & Hmax & Hlen).
  set (draws := junk ++ Drawn 0 :: sweep (Int.len (availableNodes pb))).
  assert (Forall (λ d, d ≠ DrawFailed) draws) as Hdraws.
  { apply Forall_app. split; [done|]. apply Forall_cons. split; [done|].
    unfold sweep. apply Forall_fmap, Forall_forall. by intros. }
  assert (∃ p, BuildRandomPath pb draws = Some (Ok p)) as [p Hp].
  { pose proof (BuildPathExcluding_ends pb [] Hdistinct Hmin Hminmax Hmax) as Hends.
    rewrite remaining_nil in Hends. subst draws.
    destruct junk as [|[raw|] junk].
    - destruct (Hends 0 [] ltac:(lia) ltac:(done)) as [p Hp]. exists p.
      by rewrite <- BuildPathExcluding_nil.
    - apply Forall_cons in Hjunk as [_ Hjunk].
      destruct (Hends raw (junk ++ [Drawn 0]) ltac:(lia)) as [p Hp].
      { apply Forall_app. split; [done|]. by apply Forall_singleton. }
      exists p. rewrite <- BuildPathExcluding_nil by done.
      rewrite <- app_assoc in Hp. exact Hp.
    - by apply Forall_cons in Hjunk as [? _]. }
  rewrite BuildRandomPath_run_loop in Hp.
  destruct (BuildRandomPath_run pb draws) as [[[p' rest]| |]|] eqn:Hrun; try done.
  exists p', rest. split; [done|]. by eapply BuildRandomPath_run_rest.
Qed.

Lemma multiple_loop_ends n : ∀ junk paths,
  Forall (λ d, d ≠ DrawFailed) junk →
  ∃ res, multiple_loop pb n (junk ++ rounds pb n) paths = Some (Ok res).
Proof.
  induction n as [|n IH]; intros junk paths Hjunk; cbn [multiple_loop]; [eauto|].
  destruct (BuildRandomPath_run_ends junk Hjunk) as (p & rest & Hrun & Hrest).
  unfold rounds. cbn [replicate concat]. fold (rounds pb n).
  rewrite (app_assoc junk), (BuildRandomPath_run_app _ _ _ _ _ Hrun).
  by apply IH.
Qed.
End Several.

(** X6. [BuildMultiplePaths] refuses a count that is not positive with
    "count must be positive", and panics in [make], before any draw, on a
    count whose slice of pointers would exceed the allocation limit of the
    runtime. On a well-formed builder over pairwise distinct nodes, what it
    returns otherwise is exactly [count] paths, each duplicate-free, over
    the available nodes and of a length within the bounds; its only other
    error is that of a failed draw; and for a positive count within the
    limit it does return once each path has had its draws. *)
Theorem BuildMultiplePaths_spec (L : Runtime.Limits) (pb : PathBuilder) (count : Z) :
  NoDup (availableNodes pb) → well_formed pb →
  (count ≤ 0 → ∀ draws,
     BuildMultiplePaths pb count draws = Some (Err "count must be positive"))
  ∧ (0 < count → Runtime.maxAlloc < 8 * count → ∀ draws,
       BuildMultiplePaths pb count draws = Some (Panic "makeslice: cap out of range"))
  ∧ (∀ draws paths, BuildMultiplePaths pb count draws = Some (Ok paths) →
       0 < count ∧ 8 * count ≤ Runtime.maxAlloc
       ∧ Int.len paths = count ∧ Forall (path_of pb) paths)
  ∧ (∀ draws o, BuildMultiplePaths pb count draws = Some o →
       (∃ paths, o = Ok paths) ∨ o = Err "count must be positive"
       ∨ o = Err rand_error ∨ o = Panic "makeslice: cap out of range")
  ∧ (0 < count → 8 * count ≤ Runtime.maxAlloc →
       ∃ paths, BuildMultiplePaths pb count (rounds pb (Z.to_nat count))
                = Some (Ok paths)).
Proof.
  intros Hnd Hwf. unfold BuildMultiplePaths. rewrite makeslice_cap.
  unfold Runtime.pointer_size. split_and!.
  - intros Hc draws. by rewrite decide_True.
  - intros Hc Hbig draws. rewrite decide_False by lia. by rewrite decide_False by lia.
  - intros draws paths. case_decide; [done|]. case_decide; [|done]. intros Hloop.
    apply (multiple_loop_outcome pb Hnd Hwf) in Hloop
      as [(res & [= <-] & Hlen & Hres)|?]; [|done|done].
    split_and!; [lia|lia| |done]. unfold Int.len. cbn in Hlen. lia.
  - intros draws o. case_decide; [intros [= <-]; auto|].
    case_decide; [|intros [= <-]; auto]. intros Hloop.
    apply (multiple_loop_outcome pb Hnd Hwf) in Hloop as [(res & -> & _)| ->]; eauto.
  - intros Hc Hfits. rewrite decide_False by lia. rewrite decide_True by lia.
    apply (multiple_loop_ends pb Hnd Hwf _ [] []). done.
Qed.

Lemma BuildMultiplePaths_spec_witness :
  ∃ paths,
    BuildMultiplePaths (H := Examples.linux_amd64) Examples.ten_nodes 3
      (rounds Examples.ten_nodes 3)
    = Some (Ok paths).
Proof.
  refine (proj2 (proj2 (proj2 (proj2
            (BuildMultiplePaths_spec Examples.linux_amd64 Examples.ten_nodes 3 _ _))))
            _ _).
  - apply (bool_decide_unpack _). vm_compute. exact I.
  - unfold well_formed, Int.len, Int.max_int. cbn. lia.
  - lia.
  - cbn. lia.
Defined.
End MorePaths.

(** ** More on splitting and reassembling *)

Section MoreChunks.
Import Crypto MarkerCipher Message Examples.
Local Open Scope Z_scope.

Lemma concat_spec_chunks messageID (data : bytes) chunkSize :
  data ≠ [] → 0 < chunkSize →
  concat (Data <$> spec_chunks messageID data chunkSize) = data.
Proof.
  intros Hdata Hsize. unfold spec_chunks. rewrite <- list_fmap_compose.
  by apply pieces_concat.
Qed.

(** X7. Where [len(data) + chunkSize - 1] is an [int], [SplitMessage] on
    non-empty data and a positive chunk size returns ⌈|data| / chunkSize⌉
    chunks; chunk i carries the message ID, Seq = i, the common Total, and
    the bytes from offset i * chunkSize on, at least one and at most
    chunkSize of them; the chunk data concatenated in order is the data; and
    every chunk passes [Validate] when the message ID is not empty.
    [SplitMessage] returns an error exactly when chunkSize ≤ 0 or the data is
    empty, the chunk size being looked at first. *)
Theorem SplitMessage_in_range (messageID : string) (data : bytes) (chunkSize : Z) :
  (data ≠ [] → 0 < chunkSize → Int.len data + chunkSize - 1 ≤ Int.max_int →
   ∃ cks, SplitMessage messageID data chunkSize = Ok cks
     ∧ Int.len cks = ceil_div (Int.len data) chunkSize
     ∧ (∀ i, 0 ≤ i < ceil_div (Int.len data) chunkSize →
          ∃ c, cks !! Z.to_nat i = Some c
               ∧ MessageID c = messageID ∧ Seq c = i
               ∧ Total c = ceil_div (Int.len data) chunkSize
               ∧ Data c = take (Z.to_nat chunkSize) (drop (Z.to_nat (i * chunkSize)) data)
               ∧ 0 < Int.len (Data c) ≤ chunkSize)
     ∧ concat (Data <$> cks) = data
     ∧ (messageID ≠ "" → Forall (λ c, Validate c = None) cks))
  ∧ ((∃ msg, SplitMessage messageID data chunkSize = Err msg)
     ↔ chunkSize ≤ 0 ∨ data = [])
  ∧ (chunkSize ≤ 0 →
     SplitMessage messageID data chunkSize = Err "chunk size must be positive").
Proof.
  split_and!.
  - intros Hdata Hsize Hmax. exists (spec_chunks messageID data chunkSize).
    destruct (spec_chunks_fields messageID data chunkSize) as [Hlen Hfields].
    pose proof (total_bounds data chunkSize Hdata Hsize) as Ht.
    split_and!.
    + by apply SplitMessage_no_overflow.
    + unfold Int.len in *. rewrite Hlen. lia.
    + intros i Hi. destruct (Hfields i Hi) as (c & Hc & Hid & Hseq & Htot & Hd).
      exists c. split_and!; try done; rewrite Hd; unfold Int.len in *;
        rewrite length_take, length_drop; nia.
    + by apply concat_spec_chunks.
    + intros Hid. unfold spec_chunks. apply Forall_fmap, Forall_forall.
      intros i Hi%elem_of_seqZ. apply Validate_valid.
      apply (piece_valid messageID data chunkSize Hid Hdata Hsize). lia.
  - apply SplitMessage_errors.
  - intros Hc. unfold SplitMessage. by rewrite decide_True.
Qed.

Lemma SplitMessage_in_range_witness :
  ∃ cks, SplitMessage "msg1" test_message 10 = Ok cks
    ∧ Int.len cks = 6 ∧ concat (Data <$> cks) = test_message.
Proof.
  destruct (proj1 (SplitMessage_in_range "msg1" test_message 10))
    as (cks & Hs & Hlen & _ & Hcat & _).
  - discriminate.
  - lia.
  - vm_compute. discriminate.
  - exists cks. split_and!; [exact Hs|exact Hlen|exact Hcat].
Defined.

Lemma AddChunk_stored ca c messageID :
  chunk_valid c →
  stored (AddChunk ca c).2 messageID
  = if decide (MessageID c = messageID) then store (stored ca messageID) c
    else stored ca messageID.
Proof.
  intros Hc. rewrite (AddChunk_valid _ _ Hc). unfold stored. cbn [snd chunks].
  case_decide as Hid.
  - subst messageID. by rewrite lookup_insert_eq.
  - by rewrite lookup_insert_ne.
Qed.

(** X8. [AddChunk] of a valid chunk stores it under its message ID and
    sequence number in place of whatever was there, and leaves every other
    (message ID, sequence number) as it was; adding the same chunk a second
    time changes nothing. *)
Theorem AddChunk_overwrites (ca : ChunkAssembler) (c : Chunk) :
  chunk_valid c →
  (AddChunk ca c).1 = None
  ∧ stored (AddChunk ca c).2 (MessageID c) !! Seq c = Some c
  ∧ (∀ messageID seq, (messageID, seq) ≠ (MessageID c, Seq c) →
       stored (AddChunk ca c).2 messageID !! seq = stored ca messageID !! seq)
  ∧ AddChunk (AddChunk ca c).2 c = (None, (AddChunk ca c).2).
Proof.
  intros Hc. split_and!.
  - by rewrite (AddChunk_valid _ _ Hc).
  - rewrite (AddChunk_stored _ _ _ Hc), decide_True by done.
    unfold store. by rewrite lookup_insert_eq.
  - intros mid seq Hne. rewrite (AddChunk_stored _ _ _ Hc). case_decide as Hid; [|done].
    unfold store. rewrite lookup_insert_ne; [done|]. intros <-. by subst mid.
  - rewrite (AddChunk_valid (AddChunk ca c).2 _ Hc). f_equal.
    rewrite (AddChunk_valid ca _ Hc). cbn [snd chunks]. f_equal.
    rewrite lookup_insert_eq. unfold store, default. cbn [from_option id].
    by rewrite insert_insert_eq, insert_insert_eq.
Qed.

Lemma AddChunk_overwrites_witness :
  AddChunk (AddChunk NewChunkAssembler first_of_two).2 first_of_two
  = (None, (AddChunk NewChunkAssembler first_of_two).2).
Proof.
  apply (AddChunk_overwrites NewChunkAssembler first_of_two).
  unfold chunk_valid. cbn. split_and!; (discriminate || lia).
Defined.

Lemma append_chunks_present (cs : gmap Z Chunk) idxs : ∀ acc,
  (∀ i, i ∈ idxs → is_Some (cs !! i)) →
  append_chunks cs idxs acc
  = Ok (acc ++ concat ((λ i, from_option Data [] (cs !! i)) <$> idxs)).
Proof.
  induction idxs as [|i idxs IH]; intros acc Hall; cbn.
  - by rewrite app_nil_r.
  - destruct (Hall i ltac:(left)) as [c Hc]. rewrite Hc. cbn.
    rewrite IH by (intros j Hj; apply Hall; by right). by rewrite <- app_assoc.
Qed.

Lemma append_chunks_absent (cs : gmap Z Chunk) idxs : ∀ acc i,
  i ∈ idxs → cs !! i = None →
  append_chunks cs idxs acc
  = Panic "invalid memory address or nil pointer dereference".
Proof.
  induction idxs as [|j idxs IH]; intros acc i Hi Hnone; [by apply elem_of_nil in Hi|].
  cbn [append_chunks]. destruct (cs !! j) as [c|] eqn:Hj; [|done].
  apply elem_of_cons in Hi as [->|Hi]; [congruence|]. by eapply IH.
Qed.

(** What is stored when [IsComplete] answers true. *)
Lemma IsComplete_size start ca messageID :
  IsComplete start ca messageID = true →
  chunks ca !! messageID = Some (stored ca messageID)
  ∧ 0 < Z.of_nat (size (stored ca messageID))
  ∧ stored_seqs ca messageID = below (Z.of_nat (size (stored ca messageID))).
Proof.
  intros Hc. pose proof Hc as (cs & c & Hcs & _)%IsComplete_true.
  apply IsComplete_stored in Hc as (c' & _ & Hpos & Hdom).
  assert (size (stored ca messageID) = Z.to_nat (Total c')) as Hsz
    by (by rewrite <- size_dom, <- size_below; unfold stored_seqs in Hdom; rewrite Hdom).
  split_and!.
  - unfold stored. by rewrite Hcs.
  - lia.
  - rewrite Hdom. f_equal. lia.
Qed.

(** X9. What [Assemble] does, case by case. If [IsComplete] answers false
    it returns "message is not complete" and leaves the assembler alone.
    Otherwise chunk 0 is stored and its Total T decides: if T does not
    exceed the number N of stored chunks, the result is the data of chunks
    0..T-1 in order (all of the message when T = N, only a prefix when
    T < N) and the entry of the message is deleted; if T exceeds N, the
    loop runs into the missing chunk N and the call panics, the assembler
    left as it was. *)
Theorem Assemble_outcome (start : nat) (ca : ChunkAssembler) (messageID : string) :
  (IsComplete start ca messageID = false →
     Assemble start ca messageID = (Err "message is not complete", ca))
  ∧ (IsComplete start ca messageID = true →
     ∃ c0, stored ca messageID !! 0 = Some c0
       ∧ (Total c0 ≤ Z.of_nat (size (stored ca messageID)) →
            Assemble start ca messageID
            = (Ok (data_upto (stored ca messageID) (Total c0)),
               {| chunks := delete messageID (chunks ca) |}))
       ∧ (Z.of_nat (size (stored ca messageID)) < Total c0 →
            Assemble start ca messageID
            = (Panic "invalid memory address or nil pointer dereference", ca))).
Proof.
  split.
  - intros Hc. unfold Assemble. by rewrite Hc.
  - intros Hc. destruct (IsComplete_size _ _ _ Hc) as (Hcs & Hpos & Hdom).
    assert (∀ i, is_Some (stored ca messageID !! i)
                 ↔ 0 ≤ i < Z.of_nat (size (stored ca messageID))) as Hin.
    { intros i. rewrite <- elem_of_dom. unfold stored_seqs in Hdom.
      rewrite Hdom. apply elem_of_below. }
    destruct (proj2 (Hin 0) ltac:(lia)) as [c0 Hc0]. exists c0.
    split; [done|]. unfold Assemble. rewrite Hc. cbn [negb].
    fold (stored ca messageID). rewrite Hc0. split.
    + intros Hle. rewrite append_chunks_present; [done|].
      intros i Hi%elem_of_seqZ. apply Hin. lia.
    + intros Hlt.
      rewrite (append_chunks_absent _ _ _ (Z.of_nat (size (stored ca messageID)))); [done| |].
      * apply elem_of_seqZ. lia.
      * apply eq_None_not_Some. rewrite Hin. lia.
Qed.

Lemma Assemble_outcome_witness :
  Assemble 0 crossed_totals "msg1"
  = (Panic "invalid memory address or nil pointer dereference", crossed_totals).
Proof.
  destruct (proj2 (Assemble_outcome 0 crossed_totals "msg1") eq_refl)
    as (c0 & Hc0 & _ & Hpanic).
  apply Hpanic. injection Hc0 as <-. vm_compute. reflexivity.
Defined.

(** X10. [Assemble] changes the assembler only when it succeeds, and then
    it removes exactly the entry of the assembled message: afterwards that
    message is not complete under any iteration order, assembling it again
    fails with "message is not complete", and what is stored for every other
    message is as before. *)
Theorem Assemble_purges (start : nat) (ca : ChunkAssembler) (messageID : string) :
  ((∀ data, (Assemble start ca messageID).1 ≠ Ok data) →
     (Assemble start ca messageID).2 = ca)
  ∧ (∀ data, (Assemble start ca messageID).1 = Ok data →
       (Assemble start ca messageID).2 = {| chunks := delete messageID (chunks ca) |}
       ∧ (∀ start', IsComplete start' (Assemble start ca messageID).2 messageID = false)
       ∧ (∀ start',
            Assemble start' (Assemble start ca messageID).2 messageID
            = (Err "message is not complete", (Assemble start ca messageID).2))
       ∧ (∀ other, other ≠ messageID →
            stored (Assemble start ca messageID).2 other = stored ca other)).
Proof.
  assert (∀ start' ca', chunks ca' !! messageID = None →
            IsComplete start' ca' messageID = false) as Hgone
    by (intros start' ca' Hnone; unfold IsComplete; by rewrite Hnone).
  unfold Assemble.
  destruct (negb (IsComplete start ca messageID)); cbn [fst snd]; [split; done|].
  destruct (default ∅ (chunks ca !! messageID) !! 0); cbn [fst snd]; [|split; done].
  destruct (append_chunks _ _ _) as [result|e|msg]; cbn [fst snd]; [|split; done..].
  split; [intros Hno; by destruct (Hno result)|].
  intros data _. split_and!.
  - done.
  - intros start'. apply Hgone. cbn [chunks]. apply lookup_delete_eq.
  - intros start'.
    by rewrite (Hgone start' {| chunks := delete messageID (chunks ca) |}
                  (lookup_delete_eq _ _)).
  - intros other Hne. unfold stored. cbn [chunks]. by rewrite lookup_delete_ne.
Qed.

Lemma foldl_store_Some l : ∀ (cs : gmap Z Chunk) k c,
  foldl store cs l !! k = Some c → (c ∈ l ∧ Seq c = k) ∨ cs !! k = Some c.
Proof.
  induction l as [|a l IH]; intros cs k c; cbn [foldl]; [by right|].
  intros [[Hc Hk]|Hs]%IH.
  - left. split; [by right|done].
  - unfold store in Hs. apply lookup_insert_Some in Hs as [[<- <-]|[_ Hs]].
    + left. split; [by left|done].
    + by right.
Qed.

(** X11. While a chunk of a split message is missing, the message is not
    complete: if only chunks of one [SplitMessage] result (non-empty message
    ID, no overflow of the chunk count) have been added to a fresh assembler,
    in any order and with repetitions allowed, and at least one chunk of the
    result has not, [IsComplete] answers false under every iteration order
    and [Assemble] fails with "message is not complete". *)
Theorem incomplete_while_missing (messageID : string) (data : bytes) (chunkSize : Z)
    (cks l : list Chunk) (missing : Chunk) :
  messageID ≠ "" → data ≠ [] → 0 < chunkSize →
  Int.len data + chunkSize - 1 ≤ Int.max_int →
  SplitMessage messageID data chunkSize = Ok cks →
  (∀ c, c ∈ l → c ∈ cks) → missing ∈ cks → missing ∉ l →
  ∀ start,
    IsComplete start (AddChunks NewChunkAssembler l).2 messageID = false
    ∧ (Assemble start (AddChunks NewChunkAssembler l).2 messageID).1
      = Err "message is not complete".
Proof.
  intros Hid Hdata Hsize Hmax Hsplit.
  rewrite SplitMessage_no_overflow in Hsplit by done. injection Hsplit as <-.
  intros Hsub Hmiss Hnot start.
  pose proof (total_bounds data chunkSize Hdata Hsize) as Ht.
  assert (∀ c, c ∈ spec_chunks messageID data chunkSize →
            0 ≤ Seq c < ceil_div (Int.len data) chunkSize
            ∧ c = spec_chunk messageID data chunkSize
                    (ceil_div (Int.len data) chunkSize) (Seq c)) as Hspec.
  { intros c (i & -> & Hi%elem_of_seqZ)%list_elem_of_fmap. cbn. split; [lia|done]. }
  assert (Forall (λ c, chunk_valid c ∧ MessageID c = messageID) l) as Hvalid.
  { apply Forall_forall. intros c Hc%Hsub. destruct (Hspec c Hc) as [Hi ->].
    split; [by apply piece_valid|done]. }
  destruct (AddChunks_valid messageID l NewChunkAssembler Hvalid) as [_ Hst].
  set (ca := (AddChunks NewChunkAssembler l).2) in *.
  change (stored NewChunkAssembler messageID) with (∅ : gmap Z Chunk) in Hst.
  assert (IsComplete start ca messageID = false) as Hfalse.
  { apply not_true_is_false. intros (c & Hf & Hpos & Hdom)%IsComplete_stored.
    apply range_first_stored in Hf as [k Hk]. rewrite Hst in Hk.
    apply foldl_store_Some in Hk as [[Hc _]|Hk]; [|by rewrite lookup_empty in Hk].
    destruct (Hspec c (Hsub c Hc)) as [_ Hceq].
    assert (Total c = ceil_div (Int.len data) chunkSize) as Htot by (by rewrite Hceq).
    destruct (Hspec missing Hmiss) as [Hmi Hmeq].
    assert (Seq missing ∈ stored_seqs ca messageID) as Hin
      by (rewrite Hdom, Htot; by apply elem_of_below).
    unfold stored_seqs in Hin. apply elem_of_dom in Hin as [c' Hc']. rewrite Hst in Hc'.
    apply foldl_store_Some in Hc' as [[Hc'l Hseq]|Hc']; [|by rewrite lookup_empty in Hc'].
    destruct (Hspec c' (Hsub c' Hc'l)) as [_ Hc'eq]. apply Hnot.
    by rewrite Hmeq, <- Hseq, <- Hc'eq. }
  split; [done|]. unfold Assemble. by rewrite Hfalse.
Qed.

Lemma incomplete_while_missing_witness :
  IsComplete 0
    (AddChunks NewChunkAssembler [NewChunk "msg1" 0 2 (text "test ")]).2 "msg1"
  = false
  ∧ (Assemble 0
       (AddChunks NewChunkAssembler [NewChunk "msg1" 0 2 (text "test ")]).2 "msg1").1
    = Err "message is not complete".
Proof.
  apply (incomplete_while_missing "msg1" (text "test mess") 5
           [NewChunk "msg1" 0 2 (text "test "); NewChunk "msg1" 1 2 (text "mess")]
           [NewChunk "msg1" 0 2 (text "test ")]
           (NewChunk "msg1" 1 2 (text "mess"))).
  - discriminate.
  - discriminate.
  - lia.
  - vm_compute. discriminate.
  - reflexivity.
  - intros c Hc. apply elem_of_cons. left. by apply list_elem_of_singleton in Hc.
  - apply elem_of_cons. right. apply elem_of_cons. by left.
  - intros Hin. apply list_elem_of_singleton in Hin. discriminate.
Defined.
End MoreChunks.

(** ** Relaying along a path *)

Section RelayPath.
Import Crypto Network.
Local Open Scope Z_scope.

Lemma find_next_hop_first path currentNodeID : ∀ before rest nxt after,
  path = before ++ rest ++ currentNodeID :: nxt :: after →
  currentNodeID ∉ rest → Int.len path ≤ Int.max_int →
  find_next_hop path currentNodeID (Int.len before)
    (rest ++ currentNodeID :: nxt :: after)
  = Some nxt.
Proof.
  intros before rest. revert before.
  induction rest as [|node rest IH]; intros before nxt after Hpath Hnot Hmax.
  - cbn [app find_next_hop]. unfold Int.add.
    assert (Int.len path = Int.len before + 2 + Int.len after) as Hlen.
    { rewrite Hpath. unfold Int.len. rewrite !length_app. cbn [app length]. lia. }
    pose proof (len_nonneg before). pose proof (len_nonneg after).
    rewrite wrap_in_range by (unfold Int.in_range, Int.min_int, Int.max_int in *; lia).
    rewrite decide_True by (split; [done|lia]).
    rewrite Hpath. cbn [app]. unfold Int.len.
    replace (Z.to_nat (Z.of_nat (length before) + 1)) with (length before + 1)%nat by lia.
    rewrite lookup_app_r by lia.
    by replace (length before + 1 - length before)%nat with 1%nat by lia.
  - apply not_elem_of_cons in Hnot as [Hne Hnot].
    cbn [app find_next_hop]. rewrite decide_False by (intros [? _]; congruence).
    unfold Int.add.
    assert (Int.len path = Int.len before + 1 + Int.len rest + 2 + Int.len after) as Hlen.
    { rewrite Hpath. unfold Int.len.
      rewrite ?length_app; cbn [length]; rewrite ?length_app; cbn [length]. lia. }
    pose proof (len_nonneg before). pose proof (len_nonneg rest).
    pose proof (len_nonneg after).
    rewrite wrap_in_range by (unfold Int.in_range, Int.min_int, Int.max_int in *; lia).
    replace (Int.len before + 1) with (Int.len (before ++ [node]))
      by (unfold Int.len; rewrite length_app; cbn; lia).
    apply IH; [|done..]. rewrite Hpath. by rewrite <- app_assoc.
Qed.

Lemma find_next_hop_none path currentNodeID : ∀ i rest,
  (∀ before' after', rest = before' ++ currentNodeID :: after' → after' = []) →
  Int.len path = i + Int.len rest → 0 ≤ i → Int.len path ≤ Int.max_int →
  find_next_hop path currentNodeID i rest = None.
Proof.
  intros i rest. revert i.
  induction rest as [|node rest IH]; intros i Hlast Hlen Hi Hmax; [done|].
  cbn [find_next_hop]. unfold Int.add.
  assert (Int.len (node :: rest) = 1 + Int.len rest) as Hcons
    by (unfold Int.len; cbn [length]; lia).
  pose proof (len_nonneg rest).
  rewrite wrap_in_range by (unfold Int.in_range, Int.min_int, Int.max_int in *; lia).
  destruct (decide (node = currentNodeID ∧ i + 1 < Int.len path)) as [[-> Hlt]|Hno].
  - specialize (Hlast [] rest eq_refl). subst rest.
    unfold Int.len in *. cbn in *. lia.
  - apply IH; [|lia..]. intros before' after' ->.
    by apply (Hlast (node :: before') after').
Qed.

(** The message after a relay step at a node, given what the search for the
    next hop finds. *)
Lemma relay_at msg currentNodeID :
  FinalDest msg ≠ currentNodeID → 0 < HopsLeft msg → Int.in_range (HopsLeft msg) →
  ProcessRelayMessage msg currentNodeID =
    let msg' :=
      with_hop msg (HopsLeft msg - 1)
        (default (NextHop msg) (find_next_hop (Path msg) currentNodeID 0 (Path msg))) in
    (msg', {| relayed := Some msg'; final := false; err := None |}).
Proof.
  intros Hdest Hhops Hrange. unfold ProcessRelayMessage.
  rewrite decide_False by done. rewrite decide_False by lia.
  unfold Int.sub. rewrite wrap_in_range
    by (unfold Int.in_range, Int.min_int, Int.max_int in *; lia).
  cbn [set_HopsLeft Path]. destruct (decide _) as [Hlen|Hlen].
  - by destruct (find_next_hop _ _ _ _).
  - assert (Path msg = []) as Hnil
      by (destruct (Path msg); [done|unfold Int.len in Hlen; cbn in Hlen; lia]).
    assert (find_next_hop (Path msg) currentNodeID 0 (Path msg) = None) as ->
      by (by rewrite Hnil).
    done.
Qed.

Lemma relay_through_step msg node nodes :
  FinalDest msg ≠ node → 0 < HopsLeft msg → Int.in_range (HopsLeft msg) →
  relay_through msg (node :: nodes)
  = relay_through
      (with_hop msg (HopsLeft msg - 1)
         (default (NextHop msg) (find_next_hop (Path msg) node 0 (Path msg))))
      nodes.
Proof.
  intros Hdest Hhops Hrange. cbn [relay_through]. by rewrite relay_at.
Qed.

Lemma relay_through_dropped msg node nodes :
  FinalDest msg ≠ node → HopsLeft msg ≤ 0 → relay_through msg (node :: nodes) = None.
Proof.
  intros Hdest Hhops. cbn [relay_through]. unfold ProcessRelayMessage.
  rewrite decide_False by done. by rewrite decide_True.
Qed.

Lemma relay_through_app nodes1 : ∀ msg nodes2,
  relay_through msg (nodes1 ++ nodes2)
  = relay_through msg nodes1 ≫= λ msg', relay_through msg' nodes2.
Proof.
  induction nodes1 as [|node nodes1 IH]; intros msg nodes2; [done|].
  cbn [app relay_through]. destruct (ProcessRelayMessage msg node) as [msg1 r].
  destruct (relayed r), (final r), (err r); try done; apply IH.
Qed.

(** X12. The hop count is a budget. A message with n ≥ 0 hops left that is
    handed through nodes none of which is its final destination is relayed
    by the first n of them, each taking one hop and none touching the
    message ID, final destination, payload, path or timestamp; the next node
    drops it. *)
Theorem relay_hop_budget (msg : RelayMessage) (nodes : list string) :
  Int.in_range (HopsLeft msg) → 0 ≤ HopsLeft msg →
  Forall (λ node, node ≠ FinalDest msg) nodes →
  (Int.len nodes ≤ HopsLeft msg →
     ∃ next, relay_through msg nodes
             = Some (with_hop msg (HopsLeft msg - Int.len nodes) next))
  ∧ (HopsLeft msg < Int.len nodes → relay_through msg nodes = None).
Proof.
  revert msg. induction nodes as [|node nodes IH]; intros msg Hrange Hpos Hnodes.
  - unfold Int.len. cbn. split; [|lia]. intros _. exists (NextHop msg).
    rewrite Z.sub_0_r. by destruct msg.
  - apply Forall_cons in Hnodes as [Hne Hnodes].
    assert (Int.len (node :: nodes) = 1 + Int.len nodes) as ->
      by (unfold Int.len; cbn [length]; lia).
    pose proof (len_nonneg nodes) as Hlen.
    destruct (decide (HopsLeft msg ≤ 0)) as [Hzero|Hmore].
    { rewrite relay_through_dropped by done. split; [lia|done]. }
    rewrite relay_through_step by (done || lia).
    set (msg' := with_hop msg _ _).
    destruct (IH msg') as [Hfit Hover]; [..|done|].
    + subst msg'. cbn. unfold Int.in_range, Int.min_int, Int.max_int in *. lia.
    + subst msg'. cbn. lia.
    + split.
      * intros Hle. destruct Hfit as [next ->]; [subst msg'; cbn; lia|].
        exists next. subst msg'. unfold with_hop. cbn. do 2 f_equal. lia.
      * intros Hlt. apply Hover. subst msg'. cbn. lia.
Qed.

Lemma relay_hop_budget_witness :
  ∃ next, relay_through (Examples.relay_message 3) ["r1"; "r2"]
          = Some (with_hop (Examples.relay_message 3) (3 - 2) next).
Proof.
  refine (proj1 (relay_hop_budget (Examples.relay_message 3) ["r1"; "r2"] _ _ _) _).
  - vm_compute. split; discriminate.
  - cbn. lia.
  - repeat constructor; discriminate.
  - unfold Int.len. cbn. lia.
Defined.

Section Created.
Context (msgID : string) (now : Z) (finalDest : string) (payload : bytes).
Context (path : list string).
Context (Hdistinct : NoDup path) (Hdest : finalDest ∉ path).
Context (Hmax : Int.len path ≤ Int.max_int).

Local Abbreviation created first :=
  {| MessageID := msgID; NextHop := first; FinalDest := finalDest;
     HopsLeft := Int.len path; Payload := payload; Path := path;
     Timestamp := now |}.

(** Where the search for the next hop ends at the node at index [k]. *)
Lemma next_hop_on_path k node :
  path !! k = Some node →
  find_next_hop path node 0 path = path !! S k.
Proof.
  intros Hk. pose proof (take_drop_middle _ _ _ Hk) as Hsplit.
  assert (node ∉ take k path) as Hfresh.
  { intros [j Hj]%list_elem_of_lookup_1. apply lookup_take_Some in Hj as [Hj Hlt].
    pose proof (NoDup_lookup _ _ _ _ Hdistinct Hj Hk). lia. }
  destruct (drop (S k) path) as [|nxt after] eqn:Hdrop.
  - rewrite (lookup_ge_None_2 path (S k)).
    + apply find_next_hop_none; [|done|done|done].
      intros before' after' Hpath.
      assert (path !! length before' = Some node) as Hpos
        by (rewrite Hpath; by rewrite list_lookup_middle).
      pose proof (NoDup_lookup _ _ _ _ Hdistinct Hpos Hk) as Hsame.
      apply (f_equal (drop (S k))) in Hpath. rewrite Hdrop in Hpath.
      rewrite <- Hsame in Hpath. rewrite cons_middle, app_assoc in Hpath.
      rewrite drop_app_length' in Hpath by (rewrite length_app; cbn; lia). done.
    + apply (f_equal length) in Hdrop. rewrite length_drop in Hdrop. cbn in Hdrop. lia.
  - assert (path !! S k = Some nxt) as ->.
    { rewrite <- (Nat.add_0_r (S k)), <- lookup_drop, Hdrop. done. }
    pose proof (find_next_hop_first path node [] (take k path) nxt after
                  (eq_sym Hsplit) Hfresh Hmax) as Hfound.
    rewrite Hsplit in Hfound. exact Hfound.
Qed.

(** The created message after its first [k] relays. *)
Lemma relay_through_prefix first k node :
  path !! 0%nat = Some first → path !! k = Some node →
  relay_through (created first) (take k path)
  = Some (with_hop (created first) (Int.len path - Z.of_nat k) node).
Proof.
  intros Hfirst. revert node. induction k as [|k IH]; intros node Hk.
  - rewrite Hfirst in Hk. injection Hk as <-. rewrite Z.sub_0_r. done.
  - destruct (lookup_lt_is_Some_2 path k) as [prev Hprev];
      [apply lookup_lt_Some in Hk; lia|].
    rewrite (take_S_r _ _ _ Hprev), relay_through_app, (IH prev Hprev). cbn [mbind option_bind].
    pose proof (lookup_lt_Some _ _ _ Hk) as Hlt.
    rewrite relay_through_step.
    + cbn. rewrite (next_hop_on_path k prev Hprev), Hk. cbn.
      unfold with_hop. cbn. do 2 f_equal. lia.
    + cbn. intros ->. apply Hdest. by eapply list_elem_of_lookup_2.
    + cbn. unfold Int.len. lia.
    + cbn. unfold Int.in_range, Int.min_int, Int.max_int, Int.len in *. lia.
Qed.

(** ... and after all of them. *)
Lemma relay_through_whole first last :
  path !! 0%nat = Some first → path !! (length path - 1)%nat = Some last →
  relay_through (created first) path = Some (with_hop (created first) 0 last).
Proof.
  intros Hfirst Hlast. pose proof (lookup_lt_Some _ _ _ Hfirst) as Hlen.
  assert (∀ nodes, nodes = take (length path - 1) path ++ [last] →
            relay_through (created first) nodes
            = Some (with_hop (created first) 0 last)) as Hall.
  { intros nodes ->. rewrite relay_through_app.
    rewrite (relay_through_prefix first _ last Hfirst Hlast).
    cbn [mbind option_bind]. rewrite relay_through_step.
    - cbn. rewrite (next_hop_on_path _ last Hlast).
      rewrite lookup_ge_None_2 by lia. cbn. unfold with_hop. cbn.
      do 2 f_equal. unfold Int.len. lia.
    - cbn. intros ->. apply Hdest. by eapply list_elem_of_lookup_2.
    - cbn. unfold Int.len. lia.
    - cbn. unfold Int.in_range, Int.min_int, Int.max_int, Int.len in *. lia. }
  apply Hall. rewrite <- (take_drop (length path - 1) path) at 1.
  f_equal. rewrite (drop_S _ _ _ Hlast).
  by rewrite drop_ge by lia.
Qed.
End Created.

(** X13. A message created for a path of pairwise distinct relays that does
    not contain the final destination starts with the first relay as next hop
    and one hop per relay. Handed along the path, it reaches the relay at
    index k with next hop that relay and k hops used; it leaves the last
    relay with no hop left and the last relay itself as next hop (the final
    destination is never written into NextHop). Then the final destination
    delivers it, and every other node drops it with "message exceeded hop
    limit". An empty path is refused with "path cannot be empty". *)
Theorem relay_along_created_path (msgID : string) (now : Z) (finalDest : string)
    (payload : bytes) (path : list string) :
  NoDup path → finalDest ∉ path → Int.len path ≤ Int.max_int →
  (path = [] →
     CreateRelayMessage msgID now finalDest payload path = Err "path cannot be empty")
  ∧ (∀ first last,
       path !! 0%nat = Some first → path !! (length path - 1)%nat = Some last →
       ∃ msg,
         CreateRelayMessage msgID now finalDest payload path = Ok msg
         ∧ NextHop msg = first ∧ HopsLeft msg = Int.len path
         ∧ (∀ k node, path !! k = Some node →
              relay_through msg (take k path)
              = Some (with_hop msg (Int.len path - Z.of_nat k) node))
         ∧ relay_through msg path = Some (with_hop msg 0 last)
         ∧ ProcessRelayMessage (with_hop msg 0 last) finalDest
           = (with_hop msg 0 last,
              {| relayed := Some (with_hop msg 0 last); final := true; err := None |})
         ∧ (∀ other, other ≠ finalDest →
              ProcessRelayMessage (with_hop msg 0 last) other
              = (with_hop msg 0 last,
                 {| relayed := None; final := false;
                    err := Some "message exceeded hop limit" |}))).
Proof.
  intros Hnd Hdest Hmax. split; [by intros ->|].
  intros first last Hfirst Hlast.
  pose proof (lookup_lt_Some _ _ _ Hfirst) as Hlen.
  exists {| MessageID := msgID; NextHop := first; FinalDest := finalDest;
            HopsLeft := Int.len path; Payload := payload; Path := path;
            Timestamp := now |}.
  split_and!.
  - unfold CreateRelayMessage. rewrite decide_False by (unfold Int.len; lia).
    by rewrite Hfirst.
  - done.
  - done.
  - intros k node Hk. by apply relay_through_prefix.
  - by apply relay_through_whole.
  - unfold ProcessRelayMessage. cbn. by rewrite decide_True.
  - intros other Hne. unfold ProcessRelayMessage. cbn.
    rewrite decide_False by done. by rewrite decide_True.
Qed.

Lemma relay_along_created_path_witness :
  ∃ msg,
    CreateRelayMessage "0a1b" 1700000000 "dest" (MarkerCipher.text "payload")
      ["r1"; "r2"; "r3"]
    = Ok msg
    ∧ relay_through msg ["r1"; "r2"; "r3"] = Some (with_hop msg 0 "r3").
Proof.
  assert (NoDup ["r1"; "r2"; "r3"]) as Hnd
    by (apply (bool_decide_unpack _); vm_compute; exact I).
  assert ("dest" ∉ ["r1"; "r2"; "r3"]) as Hdest
    by (apply (bool_decide_unpack _); vm_compute; exact I).
  assert (Int.len ["r1"; "r2"; "r3"] ≤ Int.max_int) as Hlen
    by (vm_compute; discriminate).
  destruct (proj2 (relay_along_created_path "0a1b" 1700000000 "dest"
                     (MarkerCipher.text "payload") ["r1"; "r2"; "r3"] Hnd Hdest Hlen)
              "r1" "r3" eq_refl eq_refl)
    as (msg & Hcreated & _ & _ & _ & Hthrough & _).
  exists msg. split; assumption.
Defined.
End RelayPath.

(** ** Packets: signatures and the queue *)

Section MarkerSignatureLaws.
Import Crypto MarkerCipher Packets MarkerSignature.

Lemma marker_ed25519_correct : Ed25519Correct marker_ed25519.
Proof.
  split.
  - intros priv pub [Hlen ->]. split; [done|].
    rewrite length_drop. unfold PrivateKeySize, PublicKeySize in *. lia.
  - intros priv msg Hlen Hnil%(f_equal length). cbn in Hnil. unfold marker_sign in Hnil.
    rewrite length_app, length_drop in Hnil. unfold PrivateKeySize in *. cbn in Hnil. lia.
  - intros priv pub msg [_ ->]. cbn. unfold marker_verify, marker_sign.
    by apply bool_decide_eq_true_2.
Qed.

Lemma marker_json_marshals : JSONMarshals marker_json.
Proof. intros p. by eexists. Qed.
End MarkerSignatureLaws.

Section Signatures.
Import Crypto Packets.
Context {E : Ed25519} {J : JSON}.

(** The signed bytes do not depend on the signature field. *)
Lemma signableData_signature p sig :
  signableData {| PktType := PktType p; Sender := Sender p; Recipient := Recipient p;
                  Timestamp := Timestamp p; Nonce := Nonce p; Payload := Payload p;
                  Signature := sig |}
  = signableData p.
Proof. done. Qed.
End Signatures.

Section PacketClaims.
Import Crypto MarkerCipher Packets MarkerSignature.
Local Open Scope Z_scope.

(** X14. With a [json.Marshal] that encodes every packet and a signature
    scheme that verifies what it signed: [Sign] succeeds under every 64-byte
    private key, with "invalid private key size" as its only error, and
    changes nothing but the signature, which is not empty afterwards; the
    packet signed with the private key of a key pair verifies under the
    public key of the pair; signing it again gives the same packet, the
    signature not being part of what is signed. [Verify] refuses a public key
    that is not 32 bytes long, and answers a packet without signature with
    "packet is not signed". *)
Theorem Sign_then_Verify (E : Ed25519) (J : JSON)
    (HE : Ed25519Correct E) (HJ : JSONMarshals J) :
  (∀ p priv, length priv = PrivateKeySize →
     ∃ p', Sign p priv = Ok p'
       ∧ Signature p' ≠ []
       ∧ Sign p' priv = Ok p'
       ∧ PktType p' = PktType p ∧ Sender p' = Sender p ∧ Recipient p' = Recipient p
       ∧ Timestamp p' = Timestamp p ∧ Nonce p' = Nonce p ∧ Payload p' = Payload p
       ∧ Validate p' = Validate p)
  ∧ (∀ p priv pub, ed_pair priv pub →
       ∃ p', Sign p priv = Ok p' ∧ Verify p' pub = Ok ())
  ∧ (∀ p priv, length priv ≠ PrivateKeySize ↔
       Sign p priv = Err "invalid private key size")
  ∧ (∀ p priv o, Sign p priv = o →
       (∃ p', o = Ok p') ∨ o = Err "invalid private key size")
  ∧ (∀ p pub, length pub ≠ PublicKeySize →
       Verify p pub = Err "invalid public key size")
  ∧ (∀ p pub, length pub = PublicKeySize → Signature p = [] →
       Verify p pub = Err "packet is not signed").
Proof.
  assert (∀ p priv, length priv = PrivateKeySize →
            ∃ data, signableData p = Ok data
              ∧ Sign p priv
                = Ok {| PktType := PktType p; Sender := Sender p;
                        Recipient := Recipient p; Timestamp := Timestamp p;
                        Nonce := Nonce p; Payload := Payload p;
                        Signature := ed_sign priv data |}) as Hsign.
  { intros p priv Hlen. unfold Sign. rewrite decide_False by (by intros ?).
    unfold signableData. destruct (marshal_ok
      {| PktType := PktType p; Sender := Sender p; Recipient := Recipient p;
         Timestamp := Timestamp p; Nonce := Nonce p; Payload := Payload p;
         Signature := [] |}) as [data Hdata].
    exists data. by rewrite Hdata. }
  split_and!.
  - intros p priv Hlen. destruct (Hsign p priv Hlen) as (data & Hdata & Hp).
    eexists. split; [exact Hp|]. cbn [Signature PktType Sender Recipient Timestamp
                                       Nonce Payload].
    split_and!; try done.
    by apply ed_sign_nonempty.
  - intros p priv pub Hpair. destruct (ed_pair_sizes _ _ Hpair) as [Hpriv Hpub].
    destruct (Hsign p priv Hpriv) as (data & Hdata & Hp).
    eexists. split; [exact Hp|].
    unfold Verify. rewrite decide_False by (by intros ?). cbn [Signature].
    rewrite decide_False
      by (rewrite len_zero; by apply ed_sign_nonempty).
    rewrite signableData_signature, Hdata. cbn.
    by rewrite (ed_verify_sign _ _ _ Hpair).
  - intros p priv. split.
    + intros Hlen. unfold Sign. by rewrite decide_True.
    + intros Herr Hlen. destruct (Hsign p priv Hlen) as (data & _ & Hp).
      by rewrite Hp in Herr.
  - intros p priv o <-. destruct (decide (length priv = PrivateKeySize)) as [Hlen|Hlen].
    + destruct (Hsign p priv Hlen) as (data & _ & Hp). left. by rewrite Hp; eexists.
    + right. unfold Sign. by rewrite decide_True.
  - intros p pub Hlen. unfold Verify. by rewrite decide_True.
  - intros p pub Hlen Hsig. unfold Verify. rewrite decide_False by (by intros ?).
    rewrite decide_True; [done|]. by rewrite Hsig.
Qed.

Lemma Sign_then_Verify_witness :
  ∃ p', Sign (E := marker_ed25519) (J := marker_json) test_packet test_key = Ok p'
        ∧ Verify (E := marker_ed25519) (J := marker_json) p' (ones 32) = Ok ().
Proof.
  refine (proj1 (proj2 (Sign_then_Verify marker_ed25519 marker_json
                          marker_ed25519_correct marker_json_marshals))
            test_packet test_key (ones 32) _).
  split; reflexivity.
Defined.

Lemma EnqueueAll_fits l : ∀ pq,
  Int.len (packets pq) + Int.len l ≤ maxSize pq →
  EnqueueAll pq l
  = (replicate (length l) None, {| packets := packets pq ++ l; maxSize := maxSize pq |}).
Proof.
  induction l as [|packet l IH]; intros pq Hfit.
  - cbn. rewrite app_nil_r. by destruct pq.
  - assert (Int.len (packet :: l) = 1 + Int.len l) as Hcons
      by (unfold Int.len; cbn [length]; lia).
    pose proof (len_nonneg l).
    cbn [EnqueueAll]. unfold Enqueue. rewrite decide_False by lia.
    rewrite IH; cbn [packets maxSize].
    + by rewrite <- app_assoc.
    + unfold Int.len in *. rewrite length_app. cbn [length]. lia.
Qed.

Lemma EnqueueAll_full l : ∀ pq,
  maxSize pq ≤ Int.len (packets pq) →
  EnqueueAll pq l = (replicate (length l) (Some "queue is full"), pq).
Proof.
  induction l as [|packet l IH]; intros pq Hfull; [done|].
  cbn [EnqueueAll]. unfold Enqueue. rewrite decide_True by done.
  by rewrite IH.
Qed.

Lemma EnqueueAll_app l1 l2 pq :
  EnqueueAll pq (l1 ++ l2)
  = ((EnqueueAll pq l1).1 ++ (EnqueueAll (EnqueueAll pq l1).2 l2).1,
     (EnqueueAll (EnqueueAll pq l1).2 l2).2).
Proof.
  revert pq. induction l1 as [|packet l1 IH]; intros pq.
  - cbn. by destruct (EnqueueAll pq l2).
  - cbn [app EnqueueAll]. unfold Enqueue. case_decide.
    + rewrite IH. by destruct (EnqueueAll pq l1), (EnqueueAll _ l2).
    + rewrite IH. by destruct (EnqueueAll _ l1), (EnqueueAll _ l2).
Qed.

(** X15. [NewPacketQueue] panics in [make] exactly when [maxSize] is
    negative or its slice of pointers would exceed the allocation limit of
    the runtime. The queue it makes otherwise takes the first [maxSize]
    packets offered and refuses every later one with "queue is full",
    leaving the queue as it is: it never holds more than [maxSize] packets.
    [Clear] gives the empty queue back. *)
Theorem PacketQueue_capacity (L : Runtime.Limits) (size : Z) (l : list Packet) :
  (size < 0 ∨ Runtime.maxAlloc < 8 * size ↔
     NewPacketQueue size = Panic "makeslice: cap out of range")
  ∧ (0 ≤ size → 8 * size ≤ Runtime.maxAlloc →
     ∃ pq, NewPacketQueue size = Ok pq ∧ Size pq = 0 ∧ IsEmpty pq = true
       ∧ EnqueueAll pq l
         = (replicate (length (take (Z.to_nat size) l)) None
              ++ replicate (length (drop (Z.to_nat size) l)) (Some "queue is full"),
            {| packets := take (Z.to_nat size) l; maxSize := size |})
       ∧ Size (EnqueueAll pq l).2 = Z.min size (Int.len l)
       ∧ Clear (EnqueueAll pq l).2 = Ok pq).
Proof.
  unfold NewPacketQueue. rewrite makeslice_cap. unfold Runtime.pointer_size. split.
  - case_decide; split; try done; lia.
  - intros Hpos Hfits. rewrite decide_True by lia. eexists. split; [done|].
    assert (EnqueueAll {| packets := []; maxSize := size |} l
            = (replicate (length (take (Z.to_nat size) l)) None
                 ++ replicate (length (drop (Z.to_nat size) l)) (Some "queue is full"),
               {| packets := take (Z.to_nat size) l; maxSize := size |})) as Hall.
    { rewrite <- (take_drop (Z.to_nat size) l) at 1. rewrite EnqueueAll_app.
      rewrite EnqueueAll_fits
        by (cbn; unfold Int.len; cbn; rewrite length_take; lia).
      cbn [fst snd packets maxSize app].
      destruct (decide (Z.to_nat size ≤ length l)%nat).
      - rewrite EnqueueAll_full; [done|]. cbn. unfold Int.len. rewrite length_take. lia.
      - rewrite drop_ge by lia. done. }
    split_and!; [done|done|exact Hall| |].
    + rewrite Hall. unfold Size, Int.len. cbn. rewrite length_take. lia.
    + rewrite Hall. unfold Clear. cbn [snd maxSize]. rewrite makeslice_cap.
      unfold Runtime.pointer_size. by rewrite decide_True by lia.
Qed.

Lemma PacketQueue_capacity_witness :
  ∃ pq, NewPacketQueue (H := Examples.linux_amd64) 1 = Ok pq
    ∧ (EnqueueAll pq
         [test_packet; NewPacket 1700000001 PacketTypeAck "bob" "alice" (text "ok")]).1
      = [None; Some "queue is full"].
Proof.
  destruct (proj2 (PacketQueue_capacity Examples.linux_amd64 1
                     [test_packet;
                      NewPacket 1700000001 PacketTypeAck "bob" "alice" (text "ok")])
              ltac:(lia) ltac:(cbn; lia))
    as (pq & Hnew & _ & _ & Hall & _).
  exists pq. split; [exact Hnew|]. by rewrite Hall.
Defined.

Lemma DequeueN_prefix l : ∀ rest size,
  DequeueN (length l) {| packets := l ++ rest; maxSize := size |}
  = Some (l, {| packets := rest; maxSize := size |}).
Proof.
  induction l as [|packet l IH]; intros rest size; [done|].
  cbn [length DequeueN app]. unfold Dequeue. cbn [packets maxSize].
  rewrite decide_False by (unfold Int.len; cbn; lia).
  by rewrite IH.
Qed.

(** X16. The queue is first in, first out. Packets enqueued while the
    queue has room are appended behind those already waiting, and dequeuing
    returns all of them in that order and leaves the queue empty, where
    [Dequeue] answers "queue is empty". *)
Theorem PacketQueue_fifo (pq : PacketQueue) (l : list Packet) :
  Int.len (packets pq) + Int.len l ≤ maxSize pq →
  (EnqueueAll pq l).1 = replicate (length l) None
  ∧ packets (EnqueueAll pq l).2 = packets pq ++ l
  ∧ DequeueN (length (packets pq ++ l)) (EnqueueAll pq l).2
    = Some (packets pq ++ l, {| packets := []; maxSize := maxSize pq |})
  ∧ Dequeue {| packets := []; maxSize := maxSize pq |} = Err "queue is empty".
Proof.
  intros Hfit. rewrite EnqueueAll_fits by done. cbn [fst snd packets].
  split_and!; [done|done| |done].
  rewrite <- (app_nil_r (packets pq ++ l)) at 2. apply DequeueN_prefix.
Qed.

Lemma PacketQueue_fifo_witness :
  DequeueN 2 (EnqueueAll {| packets := []; maxSize := 2 |}
                [test_packet; NewPacket 1700000001 PacketTypeAck "bob" "alice" (text "ok")]).2
  = Some ([test_packet; NewPacket 1700000001 PacketTypeAck "bob" "alice" (text "ok")],
          {| packets := []; maxSize := 2 |}).
Proof.
  apply (PacketQueue_fifo {| packets := []; maxSize := 2 |}
           [test_packet; NewPacket 1700000001 PacketTypeAck "bob" "alice" (text "ok")]).
  vm_compute. discriminate.
Defined.
End PacketClaims.

(** ** The mix node *)

Section MixNodes.
Import Crypto MarkerCipher Routing Mix.
Local Open Scope Z_scope.

Lemma swap_Permutation shuffled i j shuffled' :
  swap shuffled i j = Ok shuffled' → shuffled' ≡ₚ shuffled.
Proof.
  unfold swap. case_decide; [|done].
  destruct (shuffled !! Z.to_nat i) as [xi|] eqn:Hi; [|done].
  destruct (shuffled !! Z.to_nat j) as [xj|] eqn:Hj; [|done].
  intros [= <-]. by apply Permutation_insert_swap.
Qed.

Lemma swap_ok (shuffled : list bytes) i j :
  0 ≤ i < Int.len shuffled → 0 ≤ j < Int.len shuffled →
  ∃ shuffled', swap shuffled i j = Ok shuffled'.
Proof.
  unfold Int.len. intros Hi Hj. unfold swap. rewrite decide_True by lia.
  destruct (lookup_lt_is_Some_2 shuffled (Z.to_nat i)) as [xi ->]; [lia|].
  destruct (lookup_lt_is_Some_2 shuffled (Z.to_nat j)) as [xj ->]; [lia|].
  eauto.
Qed.

Lemma shuffle_loop_Permutation idxs : ∀ draws shuffled result rest,
  shuffle_loop idxs draws shuffled = Some (Ok (result, rest)) →
  result ≡ₚ shuffled ∧ draws = take (length idxs) draws ++ rest
  ∧ length (take (length idxs) draws) = length idxs.
Proof.
  induction idxs as [|i idxs IH]; intros draws shuffled result rest; cbn [shuffle_loop].
  - intros [= <- <-]. done.
  - unfold randInt. case_decide; [done|].
    destruct draws as [|[raw|] draws]; [done| |done].
    destruct (swap _ _ _) as [shuffled'| |] eqn:Hswap; [|done..].
    intros (Hperm & Hdraws & Hlen)%IH. split_and!.
    + rewrite Hperm. by eapply swap_Permutation.
    + cbn [length take app]. by rewrite <- Hdraws.
    + cbn [length take]. by rewrite Hlen.
Qed.

Lemma shuffle_loop_outcome idxs : ∀ draws shuffled o,
  (∀ i, i ∈ idxs → 0 < i < Int.len shuffled) → Int.len shuffled ≤ Int.max_int →
  shuffle_loop idxs draws shuffled = Some o →
  (∃ result rest, o = Ok (result, rest))
  ∨ (o = Err rand_error ∧ DrawFailed ∈ take (length idxs) draws).
Proof.
  induction idxs as [|i idxs IH]; intros draws shuffled o Hidx Hmax; cbn [shuffle_loop].
  - intros [= <-]. eauto.
  - destruct (Hidx i ltac:(left)) as [Hi0 Hi]. unfold randInt, Int.add.
    rewrite wrap_in_range by (unfold Int.in_range, Int.min_int, Int.max_int in *; lia).
    rewrite decide_False by lia.
    destruct draws as [|[raw|] draws]; [done| |].
    + pose proof (Z.mod_pos_bound raw (i + 1) ltac:(lia)) as Hj.
      destruct (swap_ok shuffled i (raw `mod` (i + 1)) ltac:(lia) ltac:(lia))
        as [shuffled' Hswap].
      rewrite Hswap. intros Ho. apply IH in Ho as [?|[-> Hf]].
      * by left.
      * right. split; [done|]. cbn [length take]. by right.
      * intros k Hk. apply swap_Permutation, Permutation_length in Hswap.
        unfold Int.len. rewrite Hswap. apply Hidx. by right.
      * apply swap_Permutation, Permutation_length in Hswap.
        unfold Int.len in *. by rewrite Hswap.
    + intros [= <-]. right. split; [done|]. cbn [length take]. by left.
Qed.

Lemma shuffle_loop_ends idxs : ∀ draws shuffled,
  (∀ i, i ∈ idxs → 0 < i < Int.len shuffled) → Int.len shuffled ≤ Int.max_int →
  (length idxs ≤ length draws)%nat →
  Forall (λ d, d ≠ DrawFailed) (take (length idxs) draws) →
  ∃ result, shuffle_loop idxs draws shuffled
            = Some (Ok (result, drop (length idxs) draws)).
Proof.
  induction idxs as [|i idxs IH]; intros draws shuffled Hidx Hmax Hlen Hok;
    cbn [shuffle_loop]; [eauto|].
  destruct (Hidx i ltac:(left)) as [Hi0 Hi]. unfold randInt, Int.add.
  rewrite wrap_in_range by (unfold Int.in_range, Int.min_int, Int.max_int in *; lia).
  rewrite decide_False by lia. cbn [length] in Hlen, Hok.
  destruct draws as [|[raw|] draws]; [cbn in Hlen; lia| |].
  - pose proof (Z.mod_pos_bound raw (i + 1) ltac:(lia)) as Hj.
    destruct (swap_ok shuffled i (raw `mod` (i + 1)) ltac:(lia) ltac:(lia))
      as [shuffled' Hswap].
    rewrite Hswap. cbn [take] in Hok. apply Forall_cons in Hok as [_ Hok].
    cbn [length drop]. apply IH; [| |cbn in Hlen; lia|done].
    + intros k Hk. apply swap_Permutation, Permutation_length in Hswap.
      unfold Int.len. rewrite Hswap. apply Hidx. by right.
    + apply swap_Permutation, Permutation_length in Hswap.
      unfold Int.len in *. by rewrite Hswap.
  - cbn [take] in Hok. by apply Forall_cons in Hok as [? _].
Qed.

(** The values of [i] in the loop of [shuffleBatch]. *)
Lemma shuffle_indices (batch : list bytes) :
  Int.len batch ≤ Int.max_int →
  length (reverse (seqZ 1 (Int.sub (Int.len batch) 1))) = (length batch - 1)%nat
  ∧ ∀ i, i ∈ reverse (seqZ 1 (Int.sub (Int.len batch) 1)) → 0 < i < Int.len batch.
Proof.
  intros Hmax. pose proof (len_nonneg batch). unfold Int.sub.
  rewrite wrap_in_range by (unfold Int.in_range, Int.min_int, Int.max_int in *; lia).
  split.
  - rewrite length_reverse, length_seqZ. unfold Int.len. lia.
  - intros i Hi%elem_of_reverse%elem_of_seqZ. lia.
Qed.

Lemma shuffleBatch_outcome (batch : list bytes) draws o :
  Int.len batch ≤ Int.max_int →
  shuffleBatch batch draws = Some o →
  (∃ shuffled rest, o = Ok (shuffled, rest) ∧ shuffled ≡ₚ batch)
  ∨ o = Err rand_error.
Proof.
  intros Hmax Hs. destruct (shuffle_indices batch Hmax) as [_ Hidx].
  unfold shuffleBatch in Hs.
  destruct (shuffle_loop_outcome _ _ _ _ Hidx Hmax Hs) as [(result & rest & ->)|[-> _]];
    [|by right].
  left. exists result, rest. split; [done|].
  by apply shuffle_loop_Permutation in Hs as [? _].
Qed.

(** X17. [shuffleBatch] returns a permutation of the batch: no packet is
    lost, repeated or invented. It consumes one draw for each position but
    the first (none for a batch of at most one packet), fails only with the
    error of a failed draw among these, and does return once it is given
    that many successful draws. *)
Theorem shuffleBatch_permutes (batch : list bytes) :
  Int.len batch ≤ Int.max_int →
  (∀ draws shuffled rest,
     shuffleBatch batch draws = Some (Ok (shuffled, rest)) →
     shuffled ≡ₚ batch ∧ draws = take (length batch - 1) draws ++ rest)
  ∧ (∀ draws o, shuffleBatch batch draws = Some o →
       (∃ shuffled rest, o = Ok (shuffled, rest))
       ∨ (o = Err rand_error ∧ DrawFailed ∈ take (length batch - 1) draws))
  ∧ (∀ draws,
       (length batch - 1 ≤ length draws)%nat →
       Forall (λ d, d ≠ DrawFailed) (take (length batch - 1) draws) →
       ∃ shuffled, shuffleBatch batch draws
                   = Some (Ok (shuffled, drop (length batch - 1) draws)))
  ∧ ((length batch ≤ 1)%nat → ∀ draws, shuffleBatch batch draws = Some (Ok (batch, draws))).
Proof.
  intros Hmax. destruct (shuffle_indices batch Hmax) as [Hlen Hidx].
  unfold shuffleBatch. split_and!.
  - intros draws shuffled rest Hs.
    apply shuffle_loop_Permutation in Hs as (Hperm & Hdraws & _).
    rewrite Hlen in Hdraws. done.
  - intros draws o Hs. rewrite <- Hlen. by eapply shuffle_loop_outcome.
  - intros draws Hdraws Hok. rewrite <- Hlen. apply shuffle_loop_ends; try done; by rewrite Hlen.
  - intros Hshort draws.
    destruct (reverse (seqZ 1 (Int.sub (Int.len batch) 1))) as [|i idxs]; [done|].
    cbn in Hlen. lia.
Qed.

Lemma shuffleBatch_permutes_witness :
  ∃ shuffled,
    shuffleBatch [text "p0"; text "p1"; text "p2"] [Drawn 7; Drawn 4; Drawn 9]
    = Some (Ok (shuffled, drop 2 [Drawn 7; Drawn 4; Drawn 9])).
Proof.
  refine (proj1 (proj2 (proj2 (shuffleBatch_permutes [text "p0"; text "p1"; text "p2"] _)))
            [Drawn 7; Drawn 4; Drawn 9] _ _).
  - vm_compute. discriminate.
  - cbn. lia.
  - repeat constructor; discriminate.
Defined.

Lemma shuffleBatch_short (batch : list bytes) draws :
  (length batch ≤ 1)%nat → shuffleBatch batch draws = Some (Ok (batch, draws)).
Proof.
  intros Hshort. unfold shuffleBatch.
  assert (Int.len batch ≤ Int.max_int) as Hmax
    by (unfold Int.len, Int.max_int; lia).
  destruct (shuffle_indices batch Hmax) as [Hlen _].
  destruct (reverse (seqZ 1 (Int.sub (Int.len batch) 1))) as [|i idxs]; [done|].
  cbn in Hlen. lia.
Qed.

Lemma shuffleBatch_ends (batch : list bytes) draws :
  Int.len batch ≤ Int.max_int →
  (length batch - 1 ≤ length draws)%nat →
  Forall (λ d, d ≠ DrawFailed) (take (length batch - 1) draws) →
  ∃ shuffled, shuffleBatch batch draws
              = Some (Ok (shuffled, drop (length batch - 1) draws)).
Proof.
  intros Hmax Hdraws Hok. destruct (shuffle_indices batch Hmax) as [Hlen Hidx].
  unfold shuffleBatch. rewrite <- Hlen.
  apply shuffle_loop_ends; try done; by rewrite Hlen.
Qed.

Lemma shuffleBatch_failed_first (batch : list bytes) draws :
  Int.len batch ≤ Int.max_int → (1 < length batch)%nat →
  shuffleBatch batch (DrawFailed :: draws) = Some (Err rand_error).
Proof.
  intros Hmax Hlong. destruct (shuffle_indices batch Hmax) as [Hlen Hidx].
  unfold shuffleBatch.
  destruct (reverse (seqZ 1 (Int.sub (Int.len batch) 1))) as [|i idxs];
    [cbn in Hlen; lia|].
  specialize (Hidx i ltac:(by left)).
  cbn [shuffle_loop]. unfold randInt, Int.add.
  rewrite wrap_in_range by (unfold Int.in_range, Int.min_int, Int.max_int in *; lia).
  by rewrite decide_False by lia.
Qed.

(** X18. [randomDelay] of a node with 0 ≤ minDelay ≤ maxDelay never
    panics and returns a delay d with minDelay ≤ d ≤ maxDelay, below maxDelay
    when the two differ. With equal bounds it returns without a draw; a
    failed draw is answered with minDelay. *)
Theorem randomDelay_bounds (mn : MixNode) :
  0 ≤ minDelay mn → minDelay mn ≤ maxDelay mn → maxDelay mn ≤ Int.max_int →
  (∀ draws o, randomDelay mn draws = Some o →
     ∃ d, o = Ok d ∧ minDelay mn ≤ d ≤ maxDelay mn
          ∧ (minDelay mn < maxDelay mn → d < maxDelay mn))
  ∧ (minDelay mn = maxDelay mn → ∀ draws, randomDelay mn draws = Some (Ok (minDelay mn)))
  ∧ (∀ draws, randomDelay mn (DrawFailed :: draws) = Some (Ok (minDelay mn)))
  ∧ (∀ d draws, ∃ delay, randomDelay mn (d :: draws) = Some (Ok delay)).
Proof.
  intros Hmin Hminmax Hmax.
  assert (minDelay mn ≠ maxDelay mn →
          Int.sub (maxDelay mn) (minDelay mn) = maxDelay mn - minDelay mn) as Hrange.
  { intros _. apply wrap_in_range.
    unfold Int.in_range, Int.min_int, Int.max_int in *. lia. }
  assert (∀ raw, minDelay mn ≠ maxDelay mn →
            Int.add (minDelay mn) (raw `mod` (maxDelay mn - minDelay mn))
            = minDelay mn + raw `mod` (maxDelay mn - minDelay mn)) as Hadd.
  { intros raw Hne. apply wrap_in_range.
    pose proof (Z.mod_pos_bound raw (maxDelay mn - minDelay mn) ltac:(lia)).
    unfold Int.in_range, Int.min_int, Int.max_int in *. lia. }
  unfold randomDelay, randInt. split_and!.
  - intros draws o. case_decide as Heq; [intros [= <-]; exists (minDelay mn); split; [done|lia]|].
    rewrite Hrange by done. rewrite decide_False by lia.
    destruct draws as [|[raw|] draws]; [done| |].
    + intros [= <-]. eexists. split; [done|]. rewrite Hadd by done.
      pose proof (Z.mod_pos_bound raw (maxDelay mn - minDelay mn) ltac:(lia)). lia.
    + intros [= <-]. exists (minDelay mn). split; [done|lia].
  - intros Heq draws. by rewrite decide_True.
  - intros draws. case_decide; [done|]. rewrite Hrange by done.
    by rewrite decide_False by lia.
  - intros d draws. case_decide; [eauto|]. rewrite Hrange by done.
    rewrite decide_False by lia. destruct d; eauto.
Qed.

Lemma randomDelay_bounds_witness :
  ∃ delay,
    randomDelay {| ID := "mix1"; packetQueue := []; maxQueueSize := 1000;
                   minDelay := 50000000; maxDelay := 200000000; batchSize := 5 |}
      [Drawn 123456789012]
    = Some (Ok delay).
Proof.
  refine (proj2 (proj2 (proj2 (randomDelay_bounds _ _ _ _))) _ _).
  - cbn. lia.
  - cbn. lia.
  - vm_compute. discriminate.
Defined.

Lemma send_loop_sent shuffled : ∀ fired sent0 sent,
  send_loop shuffled fired sent0 = Some sent →
  ∃ k, (k ≤ length shuffled)%nat ∧ sent = sent0 ++ take k shuffled
       ∧ take k fired = replicate k Sends
       ∧ (k = length shuffled ∨ fired !! k = Some Stops).
Proof.
  induction shuffled as [|packet shuffled IH]; intros fired sent0 sent; cbn [send_loop].
  - intros [= <-]. exists 0%nat. cbn. rewrite app_nil_r. split_and!; [lia|done|done|by left].
  - destruct fired as [|[|] fired]; [done| |].
    + intros (k & Hk & -> & Hf & Hend)%IH. exists (S k). cbn.
      split_and!; [lia|by rewrite <- app_assoc|by rewrite Hf|].
      destruct Hend as [->|?]; [by left|by right].
    + intros [= <-]. exists 0%nat. cbn. rewrite app_nil_r.
      split_and!; [lia|done|done|by right].
Qed.

Lemma send_loop_all shuffled fired sent :
  Forall (λ c, c = Sends) (take (length shuffled) fired) →
  send_loop shuffled fired [] = Some sent → sent = shuffled.
Proof.
  intros Hall (k & Hk & -> & _ & [->|Hstop])%send_loop_sent; cbn.
  - by rewrite take_ge.
  - destruct (decide (k = length shuffled)) as [->|Hne]; [by rewrite take_ge|].
    exfalso. rewrite Forall_lookup in Hall.
    specialize (Hall k Stops). rewrite lookup_take_lt in Hall by lia. by specialize (Hall Hstop).
Qed.

Lemma send_loop_stopped shuffled : ∀ k rest sent0,
  send_loop shuffled (replicate k Sends ++ Stops :: rest) sent0
  = Some (sent0 ++ take k shuffled).
Proof.
  induction shuffled as [|packet shuffled IH]; intros k rest sent0; cbn [send_loop].
  - by rewrite take_nil, app_nil_r.
  - destruct k as [|k]; cbn.
    + by rewrite app_nil_r.
    + by rewrite IH, <- app_assoc.
Qed.

Lemma send_loop_ends shuffled : ∀ fired sent0,
  (length shuffled ≤ length fired)%nat ∨ Stops ∈ fired →
  ∃ sent, send_loop shuffled fired sent0 = Some sent.
Proof.
  induction shuffled as [|packet shuffled IH]; intros fired sent0 Hfired;
    cbn [send_loop]; [eauto|].
  destruct fired as [|[|] fired]; [|apply IH|eauto].
  - exfalso. destruct Hfired as [Hlen|Hin]; [cbn in Hlen; lia|by apply elem_of_nil in Hin].
  - destruct Hfired as [Hlen|Hin]; [left; cbn in Hlen; lia|right].
    by apply elem_of_cons in Hin as [?|?].
Qed.

Section Batch.
Context (mn : MixNode).
Context (Hconf : configured mn) (Hmax : maxQueueSize mn ≤ Int.max_int).

Lemma processBatch_unfold draws fired :
  packetQueue mn ≠ [] →
  processBatch mn draws fired =
    match shuffleBatch (take (taken mn) (packetQueue mn)) draws with
    | None => None
    | Some (Panic p) => Some (Panic p)
    | Some (Ok (shuffled, _)) =>
        sent ← send_loop shuffled fired [];
        Some (Ok (set_packetQueue mn (drop (taken mn) (packetQueue mn)), sent))
    | Some (Err _) =>
        sent ← send_loop (take (taken mn) (packetQueue mn)) fired [];
        Some (Ok (set_packetQueue mn (drop (taken mn) (packetQueue mn)), sent))
    end.
Proof.
  intros Hne. destruct Hconf as (Hlen & Hq & Hb & Hd). unfold processBatch, taken.
  rewrite decide_False by (by rewrite len_zero).
  pose proof (len_nonneg (packetQueue mn)).
  destruct (decide (Int.len (packetQueue mn) < batchSize mn)).
  - rewrite decide_False by lia. by rewrite Z.min_r by lia.
  - rewrite decide_False by lia. by rewrite Z.min_l by lia.
Qed.

Lemma batch_length : Int.len (take (taken mn) (packetQueue mn)) ≤ Int.max_int.
Proof.
  destruct Hconf as (Hlen & _). unfold Int.len in *. rewrite length_take. lia.
Qed.

Lemma taken_length : length (take (taken mn) (packetQueue mn)) = taken mn.
Proof.
  destruct Hconf as (_ & _ & Hb & _). unfold taken, Int.len. rewrite length_take. lia.
Qed.

Lemma configured_rest : configured (set_packetQueue mn (drop (taken mn) (packetQueue mn))).
Proof.
  destruct Hconf as (Hlen & Hq & Hb & Hd). unfold configured. cbn.
  split_and!; try lia. unfold Int.len in *. rewrite length_drop. lia.
Qed.

(** A call that returns has shuffled the packets taken (or kept their
    order, the shuffle failing) and run the send loop on them. *)
Lemma processBatch_run draws fired o :
  processBatch mn draws fired = Some o →
  ∃ shuffled sent,
    o = Ok (set_packetQueue mn (drop (taken mn) (packetQueue mn)), sent)
    ∧ shuffled ≡ₚ take (taken mn) (packetQueue mn)
    ∧ send_loop shuffled fired [] = Some sent.
Proof.
  destruct (decide (packetQueue mn = [])) as [Hnil|Hne].
  - unfold processBatch. rewrite decide_True by (by rewrite Hnil). intros [= <-].
    exists [], []. unfold taken. rewrite Hnil. cbn. rewrite take_nil, drop_nil.
    split_and!; try done. destruct mn. cbn in *. by subst.
  - rewrite (processBatch_unfold draws fired Hne).
    destruct (shuffleBatch (take (taken mn) (packetQueue mn)) draws) as [o'|] eqn:Hs;
      [|done].
    destruct (shuffleBatch_outcome _ _ _ batch_length Hs)
      as [(shuffled & rest & -> & Hperm)| ->].
    + destruct (send_loop shuffled fired []) as [sent|] eqn:Hsend; [|done].
      intros [= <-]. by exists shuffled, sent.
    + destruct (send_loop _ fired []) as [sent|] eqn:Hsend; [|done].
      intros [= <-]. by eexists _, sent.
Qed.
End Batch.

(** X19. [processBatch] on a configured node never fails. On an empty
    queue it does nothing. Otherwise it takes the first
    min(batchSize, queue length) packets off the queue, leaves the others
    queued in their order, and sends the packets taken in a shuffled order
    (in their original order when the shuffle fails on a draw), one [select]
    each. While the node is not stopped every packet taken is sent, and what
    was sent together with what stays queued is a permutation of the queue
    before. When a [select] takes the stop case the call returns at once:
    what was sent is a proper prefix of the shuffled batch, and the packets
    taken but not yet sent are neither sent nor queued any more. *)
Theorem processBatch_conserves (mn : MixNode) :
  configured mn → maxQueueSize mn ≤ Int.max_int →
  (packetQueue mn = [] → ∀ draws fired, processBatch mn draws fired = Some (Ok (mn, [])))
  ∧ (∀ draws fired o, processBatch mn draws fired = Some o →
       ∃ mn' sent shuffled, o = Ok (mn', sent)
         ∧ mn' = set_packetQueue mn (drop (taken mn) (packetQueue mn))
         ∧ configured mn'
         ∧ shuffled ≡ₚ take (taken mn) (packetQueue mn)
         ∧ sent `prefix_of` shuffled
         ∧ (Forall (λ c, c = Sends) (take (taken mn) fired) →
              sent = shuffled ∧ sent ++ packetQueue mn' ≡ₚ packetQueue mn))
  ∧ (∀ draws k rest o,
       (k < taken mn)%nat →
       processBatch mn draws (replicate k Sends ++ Stops :: rest) = Some o →
       ∃ mn' sent, o = Ok (mn', sent)
         ∧ length sent = k
         ∧ packetQueue mn' = drop (taken mn) (packetQueue mn)
         ∧ (length sent + length (packetQueue mn') + (taken mn - k)
            = length (packetQueue mn))%nat)
  ∧ (packetQueue mn ≠ [] → ∀ draws fired,
       (taken mn ≤ length fired)%nat →
       Forall (λ c, c = Sends) (take (taken mn) fired) →
       processBatch mn (DrawFailed :: draws) fired
       = Some (Ok (set_packetQueue mn (drop (taken mn) (packetQueue mn)),
                   take (taken mn) (packetQueue mn))))
  ∧ (∀ draws fired,
       (taken mn - 1 ≤ length draws)%nat →
       Forall (λ d, d ≠ DrawFailed) draws →
       (taken mn ≤ length fired)%nat ∨ Stops ∈ fired →
       ∃ mn' sent, processBatch mn draws fired = Some (Ok (mn', sent))).
Proof.
  intros Hconf Hmax.
  pose proof (batch_length mn Hconf Hmax) as Hbatch.
  pose proof (taken_length mn Hconf) as Htaken.
  pose proof (configured_rest mn Hconf) as Hconf'.
  split_and!.
  - intros Hnil draws fired. unfold processBatch. rewrite decide_True; [done|].
    by rewrite Hnil.
  - intros draws fired o Hrun.
    destruct (processBatch_run mn Hconf Hmax draws fired o Hrun)
      as (shuffled & sent & -> & Hperm & Hsend).
    eexists _, sent, shuffled. split_and!; try done.
    + apply send_loop_sent in Hsend as (k & _ & -> & _). cbn.
      exists (drop k shuffled). by rewrite take_drop.
    + intros Hall. assert (sent = shuffled) as ->.
      { apply (send_loop_all _ fired); [|done].
        by rewrite (Permutation_length Hperm), Htaken. }
      split; [done|]. cbn [packetQueue set_packetQueue].
      by rewrite Hperm, take_drop.
  - intros draws k rest o Hk Hrun.
    destruct (processBatch_run mn Hconf Hmax _ _ o Hrun)
      as (shuffled & sent & -> & Hperm & Hsend).
    rewrite send_loop_stopped in Hsend. injection Hsend as <-.
    apply Permutation_length in Hperm. rewrite Htaken in Hperm.
    eexists _, _. split; [done|]. cbn [packetQueue set_packetQueue app].
    rewrite length_take, length_drop.
    assert (taken mn ≤ length (packetQueue mn))%nat
      by (rewrite <- Htaken, length_take; lia).
    split_and!; [lia|done|lia].
  - intros Hne draws fired Hlen Hall.
    rewrite (processBatch_unfold mn Hconf _ _ Hne).
    assert (send_loop (take (taken mn) (packetQueue mn)) fired []
            = Some (take (taken mn) (packetQueue mn))) as Hsend.
    { destruct (send_loop_ends (take (taken mn) (packetQueue mn)) fired [])
        as [sent Hsend]; [left; by rewrite Htaken|].
      rewrite Hsend. f_equal. apply (send_loop_all _ fired); [|done].
      by rewrite Htaken. }
    destruct (decide (length (take (taken mn) (packetQueue mn)) ≤ 1)%nat) as [Hshort|Hlong].
    + rewrite shuffleBatch_short by done. by rewrite Hsend.
    + rewrite shuffleBatch_failed_first by (done || lia). by rewrite Hsend.
  - intros draws fired Hdraws Hok Hfired.
    destruct (decide (packetQueue mn = [])) as [Hnil|Hne].
    + exists mn, []. unfold processBatch. rewrite decide_True; [done|]. by rewrite Hnil.
    + rewrite (processBatch_unfold mn Hconf draws fired Hne).
      destruct (shuffleBatch_ends _ draws Hbatch) as [shuffled Hs].
      * rewrite Htaken. lia.
      * by apply Forall_take.
      * rewrite Hs. pose proof Hs as Hperm.
        apply (shuffleBatch_outcome _ _ _ Hbatch) in Hperm
          as [(? & ? & [= <- <-] & Hperm)|?]; [|done].
        apply Permutation_length in Hperm. rewrite Htaken in Hperm.
        destruct (send_loop_ends shuffled fired []) as [sent ->];
          [by rewrite Hperm|]. cbn. eauto.
Qed.

Lemma processBatch_conserves_witness :
  ∃ mn' sent,
    processBatch Examples.mix_node [Drawn 7] [Sends; Sends] = Some (Ok (mn', sent)).
Proof.
  refine (proj2 (proj2 (proj2 (proj2 (processBatch_conserves Examples.mix_node _ _))))
            [Drawn 7] [Sends; Sends] _ _ _).
  - unfold configured, Int.len. cbn. lia.
  - vm_compute. discriminate.
  - vm_compute. lia.
  - repeat constructor; discriminate.
  - left. vm_compute. lia.
Defined.

(** X20. [NewMixNode] returns a node exactly for a positive queue size
    whose queue and channels fit the allocation limit of the runtime, a
    positive batch size and delays with 0 ≤ minDelay ≤ maxDelay; with valid
    settings and a queue size beyond that limit it panics in [make]. The
    node it returns is configured and has an empty queue. On a configured
    node [AddPacket] fails exactly when the queue holds [maxQueueSize]
    packets, with "queue is full"; otherwise it appends the packet at the
    end, changes nothing else, and the node stays configured: the queue never
    exceeds [maxQueueSize]. *)
Theorem MixNode_queue_bounded (L : Runtime.Limits) :
  (∀ id mq bs dmin dmax,
     (∃ mn, NewMixNode id mq bs dmin dmax = Ok mn)
     ↔ 0 < mq ∧ 24 * mq ≤ Runtime.maxAlloc - Runtime.hchanSize
       ∧ 0 < bs ∧ 0 ≤ dmin ≤ dmax)
  ∧ (∀ id mq bs dmin dmax,
       (∃ msg, NewMixNode id mq bs dmin dmax = Panic msg)
       ↔ 0 < mq ∧ Runtime.maxAlloc - Runtime.hchanSize < 24 * mq
         ∧ 0 < bs ∧ 0 ≤ dmin ≤ dmax)
  ∧ (∀ id mq bs dmin dmax mn, NewMixNode id mq bs dmin dmax = Ok mn →
       configured mn ∧ QueueSize mn = 0 ∧ ID mn = id ∧ maxQueueSize mn = mq
       ∧ batchSize mn = bs ∧ minDelay mn = dmin ∧ maxDelay mn = dmax)
  ∧ (∀ mn packet, configured mn →
       (AddPacket mn packet = Err "queue is full" ↔ QueueSize mn = maxQueueSize mn)
       ∧ (QueueSize mn < maxQueueSize mn →
            AddPacket mn packet = Ok (set_packetQueue mn (packetQueue mn ++ [packet])))
       ∧ (∀ o, AddPacket mn packet = o →
            o = Err "queue is full"
            ∨ ∃ mn', o = Ok mn' ∧ configured mn'
                     ∧ QueueSize mn' = QueueSize mn + 1)).
Proof.
  pose proof Runtime.limits_sane as Hsane.
  assert (∀ id mq bs dmin dmax,
            NewMixNode id mq bs dmin dmax =
              if decide (mq ≤ 0) then Err "max queue size must be positive"
              else if decide (bs ≤ 0) then Err "batch size must be positive"
              else if decide (dmin < 0 ∨ dmax < dmin)
              then Err "invalid delay configuration"
              else if decide (24 * mq ≤ Runtime.maxAlloc)
              then if decide (24 * mq ≤ Runtime.maxAlloc - Runtime.hchanSize)
                   then Ok {| ID := id; packetQueue := []; maxQueueSize := mq;
                              minDelay := dmin; maxDelay := dmax; batchSize := bs |}
                   else Panic "makechan: size out of range"
              else Panic "makeslice: cap out of range") as Hnew.
  { intros id mq bs dmin dmax. unfold NewMixNode.
    rewrite makeslice_cap, !makechan_spec. unfold Runtime.slice_size.
    repeat case_decide; try done; lia. }
  split_and!.
  - intros id mq bs dmin dmax. rewrite Hnew.
    repeat case_decide; split; try (intros [? ?]; done); try lia; eauto.
  - intros id mq bs dmin dmax. rewrite Hnew.
    repeat case_decide; split; try (intros [? ?]; done); try lia; eauto.
  - intros id mq bs dmin dmax mn. rewrite Hnew. unfold configured, QueueSize.
    repeat case_decide; try done. intros [= <-]. unfold Int.len. cbn.
    split_and!; (done || lia).
  - intros mn packet (Hlen & Hq & Hb & Hd). unfold AddPacket, QueueSize. split_and!.
    + case_decide; split; try done; lia.
    + intros Hlt. by rewrite decide_False by lia.
    + intros o <-. case_decide; [by left|right]. eexists. split; [done|].
      unfold configured, QueueSize, Int.len in *. cbn. rewrite length_app. cbn. lia.
Qed.

Lemma MixNode_queue_bounded_witness :
  ∃ mn, NewMixNode (H := Examples.linux_amd64) "mix1" 1000 5 50000000 200000000 = Ok mn.
Proof.
  refine (proj2 (proj1 (MixNode_queue_bounded Examples.linux_amd64)
                   "mix1" 1000 5 50000000 200000000) _).
  cbn. lia.
Defined.
End MixNodes.

(** ** More on the onion codec and the ratchet *)

Section MoreCrypto.
Import Crypto MarkerCipher.

Lemma WrapLayers_app {A : AEAD} keys1 keys2 rnd plain :
  WrapLayers rnd plain (keys1 ++ keys2) =
    match WrapLayers rnd plain keys2 with
    | Ok (inner, rnd1) => WrapLayers rnd1 inner keys1
    | Err e => Err e
    | Panic p => Panic p
    end.
Proof.
  induction keys1 as [|key keys1 IH].
  - cbn. by destruct (WrapLayers rnd plain keys2) as [[? ?]| |].
  - cbn [app WrapLayers]. rewrite IH.
    by destruct (WrapLayers rnd plain keys2) as [[? ?]| |].
Qed.

(** X21. [CreateOnionPacket] refuses a key that is not 32 bytes long before
    it draws anything, fails with the error of the random source when that
    cannot give 12 bytes, and otherwise returns the packet whose payload is
    the 12 bytes drawn, used as nonce, followed by the sealed plaintext. Such
    a packet is never an "invalid payload" for [PeelOnion]. *)
Theorem CreateOnionPacket_outcome (A : AEAD) (rnd plain key : bytes) :
  (length key ≠ KeySize →
     CreateOnionPacket rnd plain key = Err "chacha20poly1305: bad key length")
  ∧ (length key = KeySize → (length rnd < NonceSize)%nat →
       ∃ msg, ReadFull rnd NonceSize = Err msg
              ∧ CreateOnionPacket rnd plain key = Err msg)
  ∧ (∀ pkt rnd', CreateOnionPacket rnd plain key = Ok (pkt, rnd') ↔
       length key = KeySize ∧ (NonceSize ≤ length rnd)%nat
       ∧ Payload pkt = take NonceSize rnd ++ seal key (take NonceSize rnd) plain []
       ∧ rnd' = drop NonceSize rnd)
  ∧ (∀ pkt rnd' key',
       CreateOnionPacket rnd plain key = Ok (pkt, rnd') → length key' = KeySize →
       rnd = take NonceSize (Payload pkt) ++ rnd'
       ∧ PeelOnion pkt key' ≠ Err "invalid payload")
  ∧ (∀ msg, CreateOnionPacket rnd plain key ≠ Panic msg).
Proof.
  split_and!.
  - intros Hk. unfold CreateOnionPacket. by rewrite New_bad.
  - intros Hk Hr. unfold CreateOnionPacket. rewrite New_ok by done.
    unfold ReadFull. rewrite decide_False by lia. destruct rnd; eauto.
  - intros pkt rnd'. split.
    + intros Hc. destruct (CreateOnionPacket_inv _ _ _ _ _ Hc) as [Hk Hr].
      rewrite CreateOnionPacket_ok in Hc by done. by injection Hc as <- <-.
    + intros (Hk & Hr & Hp & ->). rewrite CreateOnionPacket_ok by done.
      destruct pkt as [payload]. cbn in Hp. by subst payload.
  - intros pkt rnd' key' Hc Hk'.
    destruct (CreateOnionPacket_inv _ _ _ _ _ Hc) as [Hk Hr].
    rewrite CreateOnionPacket_ok in Hc by done. injection Hc as <- <-.
    cbn [Payload]. split.
    + rewrite take_app_length' by (by rewrite take_nonce_length).
      by rewrite take_drop.
    + rewrite PeelOnion_cases. rewrite decide_True by done. cbn [Payload].
      rewrite decide_False; [by destruct (open _ _ _ _)|].
      rewrite length_app, take_nonce_length by done. lia.
  - intros msg. unfold CreateOnionPacket, New, ReadFull.
    repeat case_decide; try done; by destruct rnd.
Qed.

(** X22. An onion for the route keys1 ++ keys2 is the onion for keys2
    wrapped further under keys1: given 32-byte keys and 12 random bytes for
    each, wrapping succeeds, peeling with keys1 alone exposes exactly the
    onion that wrapping under keys2 builds, and peeling that with keys2
    gives the payload. *)
Theorem onion_layers_compose (A : AEAD) (HA : AEADCorrect A)
    (keys1 keys2 : list bytes) (rnd plain : bytes) :
  Forall (λ key, length key = KeySize) (keys1 ++ keys2) →
  (NonceSize * length (keys1 ++ keys2) ≤ length rnd)%nat →
  ∃ inner rnd1 onion rnd',
    WrapLayers rnd plain keys2 = Ok (inner, rnd1)
    ∧ WrapLayers rnd1 inner keys1 = Ok (onion, rnd')
    ∧ WrapLayers rnd plain (keys1 ++ keys2) = Ok (onion, rnd')
    ∧ PeelLayers onion keys1 = Ok inner
    ∧ PeelLayers inner keys2 = Ok plain
    ∧ length rnd = (NonceSize * length (keys1 ++ keys2) + length rnd')%nat.
Proof.
  intros [Hk1 Hk2]%Forall_app Hrnd. rewrite length_app in *.
  destruct (wrap_then_peel keys2 rnd plain Hk2 ltac:(lia))
    as (inner & rnd1 & Hw2 & Hlen1 & Hp2).
  destruct (wrap_then_peel keys1 rnd1 inner Hk1 ltac:(lia))
    as (onion & rnd' & Hw1 & Hlen' & Hp1).
  exists inner, rnd1, onion, rnd'. split_and!; try done.
  - by rewrite WrapLayers_app, Hw2.
  - lia.
Qed.

Lemma onion_layers_compose_witness :
  ∃ inner rnd1 onion rnd',
    WrapLayers (A := marker) (zeros 40) (text "Secret message")
      [zeros 32; replicate 32 x02] = Ok (inner, rnd1)
    ∧ WrapLayers (A := marker) rnd1 inner [ones 32] = Ok (onion, rnd')
    ∧ PeelLayers (A := marker) onion [ones 32] = Ok inner.
Proof.
  destruct (onion_layers_compose marker marker_open_seal
              [ones 32] [zeros 32; replicate 32 x02] (zeros 40) (text "Secret message")
              ltac:(repeat constructor) ltac:(vm_compute; lia))
    as (inner & rnd1 & onion & rnd' & Hw2 & Hw1 & _ & Hp1 & _).
  exists inner, rnd1, onion, rnd'. split_and!; assumption.
Defined.

Lemma xor_byte_55_differs b : xor_byte b x55 ≠ b.
Proof. destruct b; discriminate. Qed.

Lemma steps_parity n r :
  steps n r = if Nat.even n then r else RatchetStep r.
Proof.
  induction n as [n IH] using lt_wf_ind. destruct n as [|[|n]]; [done..|].
  replace (S (S n)) with (n + 2)%nat by lia. rewrite steps_add_two.
  rewrite IH by lia. replace (n + 2)%nat with (S (S n)) by lia. done.
Qed.

Lemma NextKeys_lookup n : ∀ r i,
  (i < n)%nat → NextKeys n r !! i = Some (ChainKey (steps (S i) r)).
Proof.
  induction n as [|n IH]; intros r i Hi; [lia|].
  destruct i as [|i]; [done|].
  cbn [NextKeys GetNextKey lookup list_lookup]. rewrite IH by lia.
  unfold steps. by rewrite <- !Nat.iter_succ_r.
Qed.

(** X23. A ratchet step touches the chain key only: the key pair, the peer
    key and the root key stay. The new chain key has the length of the old
    one and differs from it in every byte, so it is a different key unless
    the key is empty. The keys that successive calls of [GetNextKey] hand
    out alternate between two values: the stepped key at the even calls
    (counting from 0) and the key the session started with at the odd
    ones. *)
Theorem RatchetStep_changes_every_byte (r : RatchetSession) :
  (DHPrivate (RatchetStep r) = DHPrivate r ∧ DHPublic (RatchetStep r) = DHPublic r
   ∧ PeerPub (RatchetStep r) = PeerPub r ∧ RootKey (RatchetStep r) = RootKey r)
  ∧ length (ChainKey (RatchetStep r)) = length (ChainKey r)
  ∧ (∀ i b b', ChainKey r !! i = Some b → ChainKey (RatchetStep r) !! i = Some b' →
       b' = xor_byte b x55 ∧ b' ≠ b)
  ∧ (ChainKey r ≠ [] → ChainKey (RatchetStep r) ≠ ChainKey r)
  ∧ (∀ n i, (i < n)%nat →
       NextKeys n r !! i
       = Some (if Nat.even i then ChainKey (RatchetStep r) else ChainKey r)).
Proof.
  split_and!; try done.
  - unfold RatchetStep. cbn. by rewrite length_fmap.
  - intros i b b' Hb. unfold RatchetStep. cbn. rewrite list_lookup_fmap, Hb. cbn.
    intros [= <-]. split; [done|]. apply xor_byte_55_differs.
  - intros Hne Heq. destruct (ChainKey r) as [|b chain] eqn:Hchain; [done|].
    unfold RatchetStep in Heq. cbn in Heq. rewrite Hchain in Heq. cbn in Heq.
    injection Heq as Hb _. by apply xor_byte_55_differs in Hb.
  - intros n i Hi. rewrite NextKeys_lookup by done. rewrite steps_parity.
    rewrite Nat.even_succ, <- Nat.negb_even. by destruct (Nat.even i).
Qed.
End MoreCrypto.
